(** * diffeq: adaptive Dormand-Prince integration (fumin/diffeq, diffeq.go)

    A shallow embedding of [diffeq.go] over Rocq's primitive binary64
    floats, which are Go's [float64]: the same IEEE-754 format, the same
    round-to-nearest-even arithmetic, one NaN.  Slices of [float64] are
    lists; the two loops that may run for ever take a fuel argument and
    return [None] when it runs out. *)

From Stdlib Require Import ZArith List Bool Lia Floats.
From Stdlib Require Uint63 QArith Qcanon.
Import ListNotations.
Set Warnings "-inexact-float".
Local Open Scope float_scope.

(** ** Go's built-ins on [float64] *)

Module Go.

(** [float64(n)] for a slice length or a small [int]. *)
Definition of_int (n : Z) : float :=
  if (n <? 0)%Z then - of_uint63 (Uint63.of_Z (- n)) else of_uint63 (Uint63.of_Z n).
Definition of_len {A} (l : list A) : float := of_int (Z.of_nat (length l)).

(** The built-in [min] and [max] on floats (runtime [fmin], [fmax]): a NaN
    operand gives NaN, and -0 is below +0. *)
Definition min (x y : float) : float :=
  if is_nan y || (y <? x) then y
  else if is_nan x || (x <? y) || negb (x =? 0) then x
  else if get_sign x then x else y.

Definition max (x y : float) : float :=
  if is_nan y || (x <? y) then y
  else if is_nan x || (y <? x) || negb (x =? 0) then x
  else if get_sign x then y else x.

Definition min3 (x y z : float) : float := min (min x y) z.

(** [math.Nextafter(x, math.Inf(1))]. *)
Definition Nextafter_up (x : float) : float := next_up x.

(** [math.IsInf(x, 0)]. *)
Definition IsInf (x : float) : bool := is_infinity x.

(** A slice index expression on a slice of floats; the program never
    indexes out of range, the default is never seen. *)
Definition idx (l : list float) (i : nat) : float := nth i l 0.

(** [l[i] = v]. *)
Fixpoint upd {A} (l : list A) (i : nat) (v : A) : list A :=
  match l, i with
  | [], _ => []
  | _ :: t, O => v :: t
  | a :: t, S i' => a :: upd t i' v
  end.

(** [make([]float64, n)]. *)
Definition make (n : nat) : list float := repeat 0 n.

End Go.

(** ** math.Pow

    [math.Pow] is Go's library, not this repository's.  Its documented
    special cases decide every call the program makes on 0, 1, NaN and the
    infinities; its value at ordinary arguments is the parameter
    [pow_core], about which nothing is assumed.  The program raises only to
    the powers [2], [1/5] and [-1/5]; the rows of the table for odd integer
    and infinite exponents are left to [pow_core] as well. *)

Definition exponent_used (y : float) : bool :=
  (y =? 2) || (y =? 1 / 5) || (y =? -1 / 5).

Definition Pow (pow_core : float -> float -> float) (x y : float) : float :=
  if (y =? 0) || (x =? 1) then 1
  else if y =? 1 then x
  else if is_nan x || is_nan y then nan
  else if negb (exponent_used y) then pow_core x y
  else if x =? 0 then (if y <? 0 then infinity else 0)
  else if Go.IsInf x then
    if x <? 0 then (if 0 <? y then infinity else 0)
    else (if y <? 0 then 0 else infinity)
  else if (x <? 0) && negb (y =? 2) then nan
  else pow_core x y.

(** ** The data of diffeq.go *)

Inductive error := ErrTooSmallStep.

(** [type DydxFunc func(dydx []float64, x float64, y []float64)]: the
    callback is handed a zeroed buffer [dydx] of the length of [y] and fills
    it.  A callback is modelled by the list it writes; [call] is the buffer
    after the call: entries the callback does not write stay 0, and it
    cannot write past the end. *)
Definition DydxFunc := float -> list float -> list float.

Definition call (dydxFunc : DydxFunc) (n : nat) (x : float) (y : list float) : list float :=
  firstn n (dydxFunc x y ++ Go.make n).

Record tolerance := { tol_abs : float; tol_rel : float }.

(** [type rungeKutta interface]. [yPlusH] returns the two buffers it
    fills, [(yPlusH, te)]. *)
Record rungeKutta := {
  errorOrder : Z;
  yPlusH : DydxFunc -> float -> list float -> float -> list float * list float
}.

(** ** dormandPrince

    The tableau is written in Go as untyped constant expressions
    ([1. / 5], [-56. / 15]): exact rationals, rounded once when they become
    [float64].  The stage evaluator is transcribed over an arithmetic [F]
    with [ratio n d] for the constant [n/d], so that it can be run both on
    [float64] and on exact rationals. *)

Record Arith (F : Type) := {
  zero : F;
  add : F -> F -> F;
  mul : F -> F -> F;
  ratio : Z -> Z -> F
}.
Arguments zero {F}.
Arguments add {F}.
Arguments mul {F}.
Arguments ratio {F}.

Module DP.

Definition c : list (Z * Z) :=
  [(0, 1); (1, 5); (3, 10); (4, 5); (8, 9); (1, 1); (1, 1)]%Z.

Definition a : list (list (Z * Z)) :=
  [ [(0, 1); (0, 1); (0, 1); (0, 1); (0, 1); (0, 1)];
    [(1, 5); (0, 1); (0, 1); (0, 1); (0, 1); (0, 1)];
    [(3, 40); (9, 40); (0, 1); (0, 1); (0, 1); (0, 1)];
    [(44, 45); (-56, 15); (32, 9); (0, 1); (0, 1); (0, 1)];
    [(19372, 6561); (-25360, 2187); (64448, 6561); (-212, 729); (0, 1); (0, 1)];
    [(9017, 3168); (-355, 33); (46732, 5247); (49, 176); (-5103, 18656); (0, 1)];
    [(35, 384); (0, 1); (500, 1113); (125, 192); (-2187, 6784); (11, 84)] ]%Z.

Definition b : list (Z * Z) :=
  [(35, 384); (0, 1); (500, 1113); (125, 192); (-2187, 6784); (11, 84); (0, 1)]%Z.

Definition e : list (Z * Z) :=
  [(-71, 57600); (0, 1); (71, 16695); (-71, 1920); (17253, 339200); (-22, 525); (1, 40)]%Z.

Section Stages.

Context {F : Type} (A : Arith F).

Local Notation "x [+] y" := (add A x y) (at level 50, left associativity).
Local Notation "x [*] y" := (mul A x y) (at level 40, left associativity).

(** A tableau entry [t[i]] and a slice element [v[i]]. *)
Definition coef (t : list (Z * Z)) (i : nat) : F :=
  let '(n, d) := nth i t (0, 1)%Z in ratio A n d.
Definition at_ (v : list F) (i : nat) : F := nth i v (zero A).

(** [dydxFunc(buf, x, y)] on a zeroed [buf] of length [n]. *)
Definition fill (dydxFunc : F -> list F -> list F) (n : nat) (x : F) (y : list F) : list F :=
  firstn n (dydxFunc x y ++ repeat (zero A) n).

Definition xItp (x h : F) (i : nat) : F := x [+] coef c i [*] h.

(** [yItp[j] = y[j]; for l := range len(k) - 1 { yItp[j] += a[i][l] *
    k[l][j] * h }], for every [j]. *)
Definition yItp (k : list (list F)) (y : list F) (h : F) (i : nat) : list F :=
  map (fun j =>
         fold_left (fun acc l => acc [+] coef (nth i a []) l [*] at_ (nth l k []) j [*] h)
                   (seq 0 (length k - 1)) (at_ y j))
      (seq 0 (length y)).

(** One turn of [for i := range k], ending in [dydxFunc(k[i], xItp,
    yItp)]. *)
Definition stage (dydxFunc : F -> list F -> list F) (x : F) (y : list F) (h : F)
           (k : list (list F)) (i : nat) : list (list F) :=
  Go.upd k i (fill dydxFunc (length (nth i k [])) (xItp x h i) (yItp k y h i)).

(** [k] after the stage loop. *)
Definition stages (dydxFunc : F -> list F -> list F) (x : F) (y : list F) (h : F)
  : list (list F) :=
  fold_left (stage dydxFunc x y h) (seq 0 (length c))
            (repeat (repeat (zero A) (length y)) (length c)).

(** The two closing loops, over [yPlusH] and over [te]. *)
Definition combine_b (k : list (list F)) (y : list F) (h : F) : list F :=
  map (fun i => fold_left (fun acc j => acc [+] coef b j [*] h [*] at_ (nth j k []) i)
                          (seq 0 (length b)) (at_ y i))
      (seq 0 (length y)).

Definition combine_e (k : list (list F)) (n : nat) : list F :=
  map (fun i => fold_left (fun acc j => acc [+] coef e j [*] at_ (nth j k []) i)
                          (seq 0 (length e)) (zero A))
      (seq 0 n).

Definition yPlusH (dydxFunc : F -> list F -> list F) (x : F) (y : list F) (h : F)
  : list F * list F :=
  let k := stages dydxFunc x y h in
  (combine_b k y h, combine_e k (length y)).

End Stages.

End DP.

(** [float64] arithmetic; a constant [n/d] of the tableau is the float
    nearest to the rational, which is the float quotient of the two
    integers (both are below 2^53). *)
Definition float64 : Arith float :=
  {| zero := 0; add := PrimFloat.add; mul := PrimFloat.mul;
     ratio := fun n d => Go.of_int n / Go.of_int d |}.

Definition dormandPrince : rungeKutta :=
  {| errorOrder := 4; yPlusH := DP.yPlusH float64 |}.

(** ** The step controller and the driver *)

Section Integrator.

Variable pow_core : float -> float -> float.
Let Pow := Pow pow_core.

Definition maxFactor : float := 10.
Definition minFactor : float := 0.2.
Definition safety : float := 0.9.

Definition minStep (x : float) : float :=
  10 * abs (Go.Nextafter_up x - x).

(** [scale[i] = tol.abs + tol.rel*max(|y[i]|, |yPlusH[i]|)]. *)
Definition stepScale (tol : tolerance) (y yPlusH : list float) : list float :=
  map (fun i => tol_abs tol + tol_rel tol * Go.max (abs (Go.idx y i)) (abs (Go.idx yPlusH i)))
      (seq 0 (length y)).

Definition errorNorm (te scale : list float) (h : float) : float :=
  PrimFloat.sqrt (fold_left (fun acc i => acc + Pow (Go.idx te i * h / Go.idx scale i) 2)
                  (seq 0 (length te)) 0
        / Go.of_len te).

Definition exponent (errorOrder : Z) : float :=
  -1 / (Go.of_int errorOrder + 1).

(** Lines 78-110, the controller: from the buffers of one attempt to
    its verdict.  [Accept newH]: the step is taken and [newH] proposed for
    the next one; [Reject h']: the same step is tried again with [h']. *)
Inductive verdict := Accept (newH : float) | Reject (h : float).

Definition acceptFactor (errorOrder : Z) (errorNorm : float) (rejected : bool) : float :=
  let factor :=
    if errorNorm =? 0 then maxFactor
    else Go.min (safety * Pow errorNorm (exponent errorOrder)) maxFactor in
  if rejected then Go.min 1 factor else factor.

Definition rejectFactor (errorOrder : Z) (errorNorm : float) : float :=
  Go.max (safety * Pow errorNorm (exponent errorOrder)) minFactor.

Definition control (errorOrder : Z) (tol : tolerance)
           (y yPlusH te : list float) (h : float) (rejected : bool) : verdict :=
  let scale := stepScale tol y yPlusH in
  let errorNorm := errorNorm te scale h in
  if errorNorm <? 1 then Accept (h * acceptFactor errorOrder errorNorm rejected)
  else Reject (h * rejectFactor errorOrder errorNorm).

Inductive stepResult :=
| StepOk (xPlusH newH : float) (yPlusH te : list float)
| StepErr (e : error).

(** Lines 69-73: [xPlusH] and the [h] of this attempt. *)
Definition clamp (x h xMax : float) : float * float :=
  let xPlusH := x + h in
  if xMax <? xPlusH then (xMax, xMax - x) else (xPlusH, h).

(** One turn of the endless [for] of [rungeKuttaStep]: it returns, or
    goes round again with a new [h] and [rejected = true]. *)
Inductive turn := Return (r : stepResult) | Continue (h : float) (rejected : bool).

Definition stepTurn (rk : rungeKutta) (dydxFunc : DydxFunc)
           (x : float) (y : list float) (xMax : float) (tol : tolerance)
           (h : float) (rejected : bool) : turn :=
  if h <? minStep x then Return (StepErr ErrTooSmallStep)
  else
    let '(xPlusH, h) := clamp x h xMax in
    let '(yPlusH, te) := yPlusH rk dydxFunc x y h in
    match control (errorOrder rk) tol y yPlusH te h rejected with
    | Accept newH => Return (StepOk xPlusH newH yPlusH te)
    | Reject h' => Continue h' true
    end.

(** [None]: the loop is still running after [fuel] turns. *)
Fixpoint stepLoop (fuel : nat) (rk : rungeKutta) (dydxFunc : DydxFunc)
         (x : float) (y : list float) (xMax : float) (tol : tolerance)
         (h : float) (rejected : bool) : option stepResult :=
  match fuel with
  | O => None
  | S fuel' =>
    match stepTurn rk dydxFunc x y xMax tol h rejected with
    | Return r => Some r
    | Continue h' rejected' => stepLoop fuel' rk dydxFunc x y xMax tol h' rejected'
    end
  end.

Definition rungeKuttaStep (fuel : nat) (rk : rungeKutta) (dydxFunc : DydxFunc)
           (x : float) (y : list float) (h xMax : float) (tol : tolerance)
  : option stepResult :=
  stepLoop fuel rk dydxFunc x y xMax tol h false.

(** [getFirstStep], Hairer, Norsett and Wanner, Sec. II.4, in the three
    parts its two calls of [dydxFunc] cut it into.  Lines 119-145: the
    scale, [d1], the guess [h0] and the Euler point [y1]. *)
Definition firstGuess (tol : tolerance) (interval : float) (y0 dydx0 : list float)
  : list float * float * float * list float :=
  let scale := map (fun y => tol_abs tol + abs y * tol_rel tol) y0 in
  let d0 := fold_left (fun acc i => acc + Pow (Go.idx y0 i / Go.idx scale i) 2)
                      (seq 0 (length scale)) 0 in
  let d1 := fold_left (fun acc i => acc + Pow (Go.idx dydx0 i / Go.idx scale i) 2)
                      (seq 0 (length scale)) 0 in
  let d0 := PrimFloat.sqrt (d0 / Go.of_len scale) in
  let d1 := PrimFloat.sqrt (d1 / Go.of_len scale) in
  let h0 := if (d0 <? 1e-5) || (d1 <? 1e-6) then 1e-6 else 0.01 * d0 / d1 in
  let h0 := Go.min h0 interval in
  let y1 := map (fun i => Go.idx y0 i + h0 * Go.idx dydx0 i) (seq 0 (length y0)) in
  (scale, d1, h0, y1).

(** Lines 148-163: [d2], [h1] and the result. *)
Definition firstFinish (errorOrder : Z) (interval : float) (scale : list float)
           (d1 h0 : float) (dydx0 dydx1 : list float) : float :=
  let d2 := fold_left (fun acc i => acc + Pow ((Go.idx dydx1 i - Go.idx dydx0 i) / Go.idx scale i) 2)
                      (seq 0 (length dydx0)) 0 in
  let d2 := PrimFloat.sqrt (d2 / Go.of_len scale) / h0 in
  let h1 :=
    if (d1 <=? 1e-15) && (d2 <=? 1e-15) then Go.max 1e-6 (h0 * 1e-3)
    else
      let order := Go.of_int errorOrder in
      Pow (0.01 / Go.max d1 d2) (1 / (order + 1)) in
  Go.min3 (100 * h0) h1 interval.

Definition getFirstStep (rk : rungeKutta) (dydxFunc : DydxFunc)
           (xspan : float * float) (y0 : list float) (tol : tolerance) : float :=
  let dydx0 := call dydxFunc (length y0) (fst xspan) y0 in
  let '(scale, d1, h0, y1) := firstGuess tol (snd xspan - fst xspan) y0 dydx0 in
  let dydx1 := call dydxFunc (length y0) (fst xspan + h0) y1 in
  firstFinish (errorOrder rk) (snd xspan - fst xspan) scale d1 h0 dydx0 dydx1.

(** What [rungeKuttaIntegrate] returns: [(xs, ys, err)]; a nil slice is
    the empty list. *)
Record result := { xs : list float; ys : list (list float); err : option error }.

Definition defaultTol : tolerance := {| tol_abs := 1e-6; tol_rel := 1e-3 |}.

(** [for x < xspan[1] { ... }]. *)
Fixpoint integrateLoop (fuel : nat) (rk : rungeKutta) (dydxFunc : DydxFunc)
         (xEnd : float) (tol : tolerance)
         (x : float) (y : list float) (h : float)
         (xs : list float) (ys : list (list float)) : option result :=
  match fuel with
  | O => None
  | S fuel' =>
    if x <? xEnd then
      match rungeKuttaStep fuel' rk dydxFunc x y h xEnd tol with
      | None => None
      | Some (StepErr e) => Some {| xs := []; ys := []; err := Some e |}
      | Some (StepOk xPlusH newH yPlusH _) =>
        integrateLoop fuel' rk dydxFunc xEnd tol xPlusH yPlusH newH
                      (xs ++ [xPlusH]) (ys ++ [yPlusH])
      end
    else Some {| xs := xs; ys := ys; err := None |}
  end.

Definition rungeKuttaIntegrate (fuel : nat) (rk : rungeKutta) (dydxFunc : DydxFunc)
           (xspan : float * float) (y0 : list float) : option result :=
  let tol := defaultTol in
  let h := getFirstStep rk dydxFunc xspan y0 tol in
  integrateLoop fuel rk dydxFunc (snd xspan) tol (fst xspan) y0 h
                [fst xspan] [y0].

Definition DormandPrince (fuel : nat) (dydxFunc : DydxFunc)
           (xspan : float * float) (y0 : list float) : option result :=
  rungeKuttaIntegrate fuel dormandPrince dydxFunc xspan y0.

End Integrator.

(** ** The same code with its slices in a store

    A Go slice is a view of a backing array, and [ys = append(ys, y0)]
    stores the caller's view, not a copy.  Here the arrays live in a store:
    a slice is the index of its array, [make] allocates, the loops that
    assign every element of a slice are one [store] of the new contents,
    and [dydxFunc] is called through [callDydx], which logs the call.  The
    arithmetic is that of the definitions above. *)

Module Mem.

Definition slice := nat.

Record world := {
  heap : list (list float);
  calls : list (float * list float);
  writes : list slice
}.

Definition M (A : Type) : Type := world -> A * world.

Definition ret {A} (a : A) : M A := fun w => (a, w).

Definition bind {A B} (m : M A) (k : A -> M B) : M B :=
  fun w => let '(a, w') := m w in k a w'.

Notation "x <- m ;; k" := (bind m (fun x => k))
  (at level 61, m at next level, right associativity).
Notation "m ;; k" := (bind m (fun _ => k))
  (at level 61, right associativity).

Definition make (n : nat) : M slice :=
  fun w => (length (heap w),
            {| heap := heap w ++ [Go.make n]; calls := calls w; writes := writes w |}).

Definition load (s : slice) : M (list float) :=
  fun w => (nth s (heap w) [], w).

Definition store (s : slice) (v : list float) : M unit :=
  fun w => (tt, {| heap := Go.upd (heap w) s v; calls := calls w;
                   writes := writes w ++ [s] |}).

(** [copy(dst, src)]. *)
Definition copy (dst src : slice) : M unit :=
  v <- load src ;; d <- load dst ;;
  store dst (firstn (length d) v ++ skipn (length v) d).

(** [dydxFunc(dydx, x, y)]. *)
Definition callDydx (dydxFunc : DydxFunc) (dydx : slice) (x : float) (y : slice) : M unit :=
  yv <- load y ;; d <- load dydx ;;
  (fun w => (tt, {| heap := heap w; calls := calls w ++ [(x, yv)]; writes := writes w |})) ;;
  store dydx (call dydxFunc (length d) x yv).

Fixpoint forEach {A} (l : list A) (body : A -> M unit) : M unit :=
  match l with
  | [] => ret tt
  | a :: l' => body a ;; forEach l' body
  end.

Fixpoint mapM {A B} (f : A -> M B) (l : list A) : M (list B) :=
  match l with
  | [] => ret []
  | a :: l' => b <- f a ;; bs <- mapM f l' ;; ret (b :: bs)
  end.

Record rungeKutta := {
  errorOrder : Z;
  yPlusH : slice -> slice -> DydxFunc -> float -> slice -> float -> M unit
}.

(** [dormandPrince.yPlusH]. *)
Definition dpYPlusH (yPlusH te : slice) (dydxFunc : DydxFunc)
           (x : float) (y : slice) (h : float) : M unit :=
  yv <- load y ;;
  k <- mapM (fun _ => make (length yv)) DP.c ;;
  yItp <- make (length yv) ;;
  forEach (seq 0 (length k))
          (fun i =>
             kv <- mapM load k ;;
             store yItp (DP.yItp float64 kv yv h i) ;;
             callDydx dydxFunc (nth i k 0%nat) (DP.xItp float64 x h i) yItp) ;;
  kv <- mapM load k ;;
  store yPlusH (DP.combine_b float64 kv yv h) ;;
  t <- load te ;;
  store te (DP.combine_e float64 kv (length t)).

Definition dormandPrince : rungeKutta :=
  {| errorOrder := 4; yPlusH := dpYPlusH |}.

Section Integrator.

Variable pow_core : float -> float -> float.

(** What [rungeKuttaStep] returns: [(xPlusH, newH, err)]. *)
Definition stepResult : Type := float * float * option error.

Inductive turn := Return (r : stepResult) | Continue (h : float) (rejected : bool).

Definition stepTurn (yPlusH te : slice) (rk : rungeKutta) (dydxFunc : DydxFunc)
           (x : float) (y : slice) (xMax : float) (tol : tolerance)
           (h : float) (rejected : bool) : M turn :=
  if h <? minStep x then ret (Return (nan, nan, Some ErrTooSmallStep))
  else
    let '(xPlusH, h) := clamp x h xMax in
    Mem.yPlusH rk yPlusH te dydxFunc x y h ;;
    yv <- load y ;; yp <- load yPlusH ;; t <- load te ;;
    scale <- make (length yv) ;;
    store scale (stepScale tol yv yp) ;;
    match control pow_core (errorOrder rk) tol yv yp t h rejected with
    | Accept newH => ret (Return (xPlusH, newH, None))
    | Reject h' => ret (Continue h' true)
    end.

Fixpoint stepLoop (fuel : nat) (yPlusH te : slice) (rk : rungeKutta) (dydxFunc : DydxFunc)
         (x : float) (y : slice) (xMax : float) (tol : tolerance)
         (h : float) (rejected : bool) : M (option stepResult) :=
  match fuel with
  | O => ret None
  | S fuel' =>
    t <- stepTurn yPlusH te rk dydxFunc x y xMax tol h rejected ;;
    match t with
    | Return r => ret (Some r)
    | Continue h' rejected' =>
      stepLoop fuel' yPlusH te rk dydxFunc x y xMax tol h' rejected'
    end
  end.

Definition rungeKuttaStep (fuel : nat) (yPlusH te : slice) (rk : rungeKutta)
           (dydxFunc : DydxFunc) (x : float) (y : slice) (h xMax : float) (tol : tolerance)
  : M (option stepResult) :=
  stepLoop fuel yPlusH te rk dydxFunc x y xMax tol h false.

Definition getFirstStep (rk : rungeKutta) (dydxFunc : DydxFunc)
           (xspan : float * float) (y0 : slice) (tol : tolerance) : M float :=
  y0v <- load y0 ;;
  dydx0 <- make (length y0v) ;;
  callDydx dydxFunc dydx0 (fst xspan) y0 ;;
  d0v <- load dydx0 ;;
  let '(sc, d1, h0, y1v) := firstGuess pow_core tol (snd xspan - fst xspan) y0v d0v in
  scale <- make (length y0v) ;;
  store scale sc ;;
  y1 <- make (length y0v) ;;
  store y1 y1v ;;
  dydx1 <- make (length y0v) ;;
  callDydx dydxFunc dydx1 (fst xspan + h0) y1 ;;
  d1v <- load dydx1 ;;
  ret (firstFinish pow_core (errorOrder rk) (snd xspan - fst xspan) sc d1 h0 d0v d1v).

(** [(xs, ys, err)]: [ys] is a slice of slices. *)
Record result := { xs : list float; ys : list slice; err : option error }.

Fixpoint integrateLoop (fuel : nat) (rk : rungeKutta) (dydxFunc : DydxFunc)
         (xEnd : float) (tol : tolerance) (n : nat)
         (x : float) (y te : slice) (h : float)
         (xs : list float) (ys : list slice) : M (option result) :=
  match fuel with
  | O => ret None
  | S fuel' =>
    if x <? xEnd then
      yPlusH <- make n ;;
      r <- rungeKuttaStep fuel' yPlusH te rk dydxFunc x y h xEnd tol ;;
      match r with
      | None => ret None
      | Some (_, _, Some e) => ret (Some {| xs := []; ys := []; err := Some e |})
      | Some (xPlusH, newH, None) =>
        copy y yPlusH ;;
        integrateLoop fuel' rk dydxFunc xEnd tol n xPlusH y te newH
                      (xs ++ [xPlusH]) (ys ++ [yPlusH])
      end
    else ret (Some {| xs := xs; ys := ys; err := None |})
  end.

Definition rungeKuttaIntegrate (fuel : nat) (rk : rungeKutta) (dydxFunc : DydxFunc)
           (xspan : float * float) (y0 : slice) : M (option result) :=
  let tol := defaultTol in
  h <- getFirstStep rk dydxFunc xspan y0 tol ;;
  y0v <- load y0 ;;
  y <- make (length y0v) ;;
  copy y y0 ;;
  te <- make (length y0v) ;;
  integrateLoop fuel rk dydxFunc (snd xspan) tol (length y0v) (fst xspan) y te h
                [fst xspan] [y0].

Definition DormandPrince (fuel : nat) (dydxFunc : DydxFunc)
           (xspan : float * float) (y0 : slice) : M (option result) :=
  rungeKuttaIntegrate fuel dormandPrince dydxFunc xspan y0.

End Integrator.

End Mem.

(** * The specification's wording, and inputs for the examples *)

(** The controller as section 4.2 of the specification words it: sums over
    the components of the vectors, taken in order. *)
Module Spec.

Definition sum (v : list float) : float := fold_left PrimFloat.add v 0.

Definition scale (tol : tolerance) (y yTrial : list float) : list float :=
  map (fun p => tol_abs tol + tol_rel tol * Go.max (abs (fst p)) (abs (snd p)))
      (combine y yTrial).

Definition errorNorm (pow : float -> float -> float) (te scale : list float) (h : float) : float :=
  PrimFloat.sqrt
    (sum (map (fun p => pow (fst p * h / snd p) 2) (combine te scale)) / Go.of_len te).

Definition exponent (errorOrder : Z) : float := -1 / (Go.of_int errorOrder + 1).

Definition controller (pow : float -> float -> float) (tol : tolerance) (errorOrder : Z)
           (y yTrial te : list float) (h : float) (rejected : bool) : verdict :=
  let n := errorNorm pow te (scale tol y yTrial) h in
  if n <? 1 then
    let factor :=
      if n =? 0 then 10 else Go.min (0.9 * pow n (exponent errorOrder)) 10 in
    Accept (h * (if rejected then Go.min 1 factor else factor))
  else Reject (h * Go.max (0.9 * pow n (exponent errorOrder)) 0.2).

(** The first-step heuristic as section 4.3 words it. *)

(** [||v / scale||], root mean square. *)
Definition rmsNorm (pow : float -> float -> float) (v scale : list float) : float :=
  PrimFloat.sqrt (sum (map (fun p => pow (fst p / snd p) 2) (combine v scale))
                  / Go.of_len scale).

Definition firstScale (tol : tolerance) (y0 : list float) : list float :=
  map (fun y => tol_abs tol + tol_rel tol * abs y) y0.

Definition h0Guess (pow : float -> float -> float) (tol : tolerance)
           (interval : float) (y0 f0 : list float) : float :=
  let d0 := rmsNorm pow y0 (firstScale tol y0) in
  let d1 := rmsNorm pow f0 (firstScale tol y0) in
  Go.min (if (d0 <? 1e-5) || (d1 <? 1e-6) then 1e-6 else 0.01 * d0 / d1) interval.

Definition h1 (pow : float -> float -> float) (errorOrder : Z) (tol : tolerance)
           (y0 f0 f1 : list float) (h0 : float) : float :=
  let d1 := rmsNorm pow f0 (firstScale tol y0) in
  let d2 := rmsNorm pow (map (fun q => fst q - snd q) (combine f1 f0)) (firstScale tol y0)
            / h0 in
  if (d1 <=? 1e-15) && (d2 <=? 1e-15) then Go.max 1e-6 (h0 * 1e-3)
  else pow (0.01 / Go.max d1 d2) (1 / (Go.of_int errorOrder + 1)).

(** [h0_guess] and [h1] of an integration. *)
Definition firstH0 (pow : float -> float -> float) (f : DydxFunc)
           (x0 xEnd : float) (y0 : list float) (tol : tolerance) : float :=
  h0Guess pow tol (xEnd - x0) y0 (call f (length y0) x0 y0).

Definition firstH1 (pow : float -> float -> float) (errorOrder : Z) (f : DydxFunc)
           (x0 xEnd : float) (y0 : list float) (tol : tolerance) : float :=
  let f0 := call f (length y0) x0 y0 in
  let h0 := h0Guess pow tol (xEnd - x0) y0 f0 in
  let y1 := map (fun p => fst p + h0 * snd p) (combine y0 f0) in
  let f1 := call f (length y0) (x0 + h0) y1 in
  h1 pow errorOrder tol y0 f0 f1 h0.

End Spec.

(** ** Inputs for the examples

    A stand-in for the ordinary values of [math.Pow] at the three exponents
    the program uses: squares by one multiplication, fifth roots by
    Newton's iteration from a power of two.  It only serves to run the
    code on examples; no theorem depends on what it computes. *)
Definition root5 (x : float) : float :=
  let r0 := Z.ldexp 1 (snd (Z.frexp x) / 5 + 1) in
  Nat.iter 80 (fun r => (4 * r + x / (r * r * r * r)) / 5) r0.

Definition powStandIn (x y : float) : float :=
  if y =? 2 then x * x
  else if y =? 1 / 5 then root5 x
  else if y =? -1 / 5 then 1 / root5 x
  else nan.

(** The derivative of example_test.go and of the second test case:
    [dy/dx = z + x], [dz/dx = y]; and the caller's store, holding
    [y0 = [1, -1]]. *)
Definition scenarioB : DydxFunc := fun x y => [Go.idx y 1 + x; Go.idx y 0].
Definition callerWorld : Mem.world :=
  {| Mem.heap := [[1; -1]]; Mem.calls := []; Mem.writes := [] |}.

(** Other derivatives, and a [math.Pow] that knows only the special cases. *)
Definition nanDydx : DydxFunc := fun _ _ => [nan].

Definition zeroDydx : DydxFunc := fun _ y => map (fun _ => 0) y.
Definition noPow : float -> float -> float := fun _ _ => nan.

(** C6 as the specification states it: the step proposed after a clamped
    attempt would be the controller's factor times the unclamped [h]. *)
Definition clamp_keeps_proposal : Prop :=
  forall pow_core rk f x y xMax tol h rej xPlusH newH yP te,
    (xMax <? x + h) = true ->
    stepTurn pow_core rk f x y xMax tol h rej = Return (StepOk xPlusH newH yP te) ->
    newH = h * acceptFactor pow_core (errorOrder rk)
                 (errorNorm pow_core te (stepScale tol y yP) (xMax - x)) rej.

(** Exact rational arithmetic. *)
Definition exactQ : Arith Qcanon.Qc :=
  {| zero := Qcanon.Q2Qc (QArith_base.Qmake 0 1);
     add := Qcanon.Qcplus;
     mul := Qcanon.Qcmult;
     ratio := fun n d => Qcanon.Q2Qc (QArith_base.Qmake n (Z.to_pos d)) |}.

(** [dy/dx = y]. *)
Definition growth : DydxFunc := fun _ y => y.

(** C8 as the specification states it, on [float64]: the last stage
    derivative is the derivative at [(x + h, yPlusH)]. *)
Definition fsal_in_float64 : Prop :=
  forall (f : DydxFunc) (x : float) (y : list float) (h : float),
    nth 6 (DP.stages float64 f x y h) []
    = DP.fill float64 f (length y) (x + h) (fst (DP.yPlusH float64 f x y h)).

(** C7 as the specification states it: a strictly positive first step, no
    larger than the interval. *)
Definition first_step_bounds : Prop :=
  forall pow_core (f : DydxFunc) (x0 xEnd : float) (y0 : list float),
    (x0 <? xEnd) = true -> y0 <> [] ->
    let h := getFirstStep pow_core dormandPrince f (x0, xEnd) y0 defaultTol in
    (0 <? h) = true /\ (h <=? xEnd - x0) = true.

(** A finite derivative whose scaled norm overflows. *)
Definition hugeDydx : DydxFunc := fun _ _ => [1e308].

(** ** Runs of the integrator

    Notions used to state what the driver and the step controller do over
    a whole run. *)

(** [xs[i] < xs[i+1]] for every [i]. *)
Definition increasing (l : list float) : Prop :=
  forall i, (S i < length l)%nat -> (Go.idx l i <? Go.idx l (S i)) = true.

Section Attempts.

Variable pow_core : float -> float -> float.

(** The error norm of the attempt of one turn of [rungeKuttaStep] that
    starts with step size [h] (lines 69-87). *)
Definition attemptNorm (rk : rungeKutta) (dydxFunc : DydxFunc)
           (x : float) (y : list float) (xMax : float) (tol : tolerance)
           (h : float) : float :=
  let '(_, h) := clamp x h xMax in
  let '(yPlusH, te) := yPlusH rk dydxFunc x y h in
  errorNorm pow_core te (stepScale tol y yPlusH) h.

(** [h] and [rejected] at the head of the loop of [rungeKuttaStep] after
    [k] turns that did not return. *)
Fixpoint attempt (k : nat) (rk : rungeKutta) (dydxFunc : DydxFunc)
         (x : float) (y : list float) (xMax : float) (tol : tolerance)
         (h : float) (rejected : bool) : option (float * bool) :=
  match k with
  | O => Some (h, rejected)
  | S k' =>
    match stepTurn pow_core rk dydxFunc x y xMax tol h rejected with
    | Continue h' rejected' => attempt k' rk dydxFunc x y xMax tol h' rejected'
    | Return _ => None
    end
  end.

(** The attempt with step size [h] produces a finite error norm that is
    at least 1, of which [math.Pow] takes a power [-1/(q+1)] that is at
    most 1. *)
Definition rejects (rk : rungeKutta) (dydxFunc : DydxFunc)
           (x : float) (y : list float) (xMax : float) (tol : tolerance)
           (h : float) : Prop :=
  let n := attemptNorm rk dydxFunc x y xMax tol h in
  is_finite n = true /\ (1 <=? n) = true
  /\ (Pow pow_core n (exponent (errorOrder rk)) <=? 1) = true.

(** So does every attempt that a call of [rungeKuttaStep] makes. *)
Definition alwaysRejects (rk : rungeKutta) (dydxFunc : DydxFunc)
           (x : float) (y : list float) (xMax : float) (tol : tolerance)
           (h0 : float) : Prop :=
  forall k h rejected,
    attempt k rk dydxFunc x y xMax tol h0 false = Some (h, rejected) ->
    (h <? minStep x) = false ->
    rejects rk dydxFunc x y xMax tol h.

(** Runs the attempts of a call of [rungeKuttaStep], at most [n] of them,
    and checks of each what [rejects] asks. *)
Fixpoint rejectsUpTo (n : nat) (rk : rungeKutta) (dydxFunc : DydxFunc)
         (x : float) (y : list float) (xMax : float) (tol : tolerance)
         (h : float) (rejected : bool) : bool :=
  match n with
  | O => false
  | S n' =>
    if h <? minStep x then true
    else
      let nrm := attemptNorm rk dydxFunc x y xMax tol h in
      is_finite nrm && (1 <=? nrm)
      && (Pow pow_core nrm (exponent (errorOrder rk)) <=? 1)
      && match stepTurn pow_core rk dydxFunc x y xMax tol h rejected with
         | Continue h' rejected' =>
           rejectsUpTo n' rk dydxFunc x y xMax tol h' rejected'
         | Return _ => true
         end
  end.

(** The states [(x, y, h, xs, ys)] at the head of the [for] of
    [rungeKuttaIntegrate] (line 41): a state is followed by the one that
    an accepted step (lines 43-57) makes of it. *)
Definition loopState : Type :=
  float * list float * float * list float * list (list float).

Inductive reaches (rk : rungeKutta) (dydxFunc : DydxFunc) (xEnd : float)
          (tol : tolerance) : loopState -> loopState -> Prop :=
| reaches_here s : reaches rk dydxFunc xEnd tol s s
| reaches_step n x y h xs ys xPlusH newH yPlusH te s :
    (x <? xEnd) = true ->
    rungeKuttaStep pow_core n rk dydxFunc x y h xEnd tol
    = Some (StepOk xPlusH newH yPlusH te) ->
    reaches rk dydxFunc xEnd tol
            (xPlusH, yPlusH, newH, xs ++ [xPlusH], ys ++ [yPlusH]) s ->
    reaches rk dydxFunc xEnd tol (x, y, h, xs, ys) s.

End Attempts.

(** A derivative with a spike just after [x = 1]. *)
Definition spikeDydx : DydxFunc :=
  fun x _ => [if (1 <? x) && (x <? 1.0000005) then 1e100 else 0].

(** * Facts about binary64 *)

Module SF.

Lemma compare_refl x : x <> S754_nan -> SFcompare x x = Some Eq.
Proof.
  destruct x as [s|s| |s m e]; simpl; try congruence; intros _.
  - now destruct s.
  - destruct s; rewrite Z.compare_refl, Pos.compare_cont_refl; reflexivity.
Qed.

Lemma compare_antisym x y :
  SFcompare y x = option_map CompOpp (SFcompare x y).
Proof.
  destruct x as [s|s| |s m e], y as [t|t| |t n f]; simpl; try reflexivity;
    try (destruct s; reflexivity); try (destruct t; reflexivity);
    try (destruct s, t; reflexivity).
  assert (H : Pos.compare_cont Eq n m = CompOpp (Pos.compare_cont Eq m n))
    by (rewrite Pos.compare_cont_antisym; reflexivity).
  destruct s, t; simpl; try reflexivity;
    rewrite (Z.compare_antisym e f), H;
    destruct (e ?= f)%Z; simpl; try reflexivity;
    destruct (Pos.compare_cont Eq m n); reflexivity.
Qed.

Lemma compare_nan x y :
  SFcompare x y = None <-> x = S754_nan \/ y = S754_nan.
Proof.
  destruct x as [s|s| |s m e], y as [t|t| |t n f]; simpl;
    split; intros H; try discriminate; auto;
    try (destruct H; discriminate).
Qed.

End SF.

Module F64.

Lemma is_nan_spec x : is_nan x = true <-> Prim2SF x = S754_nan.
Proof.
  unfold is_nan. rewrite eqb_spec. unfold SFeqb.
  destruct (Prim2SF x) eqn:E.
  1,2,4: rewrite SF.compare_refl by discriminate; simpl; split; discriminate.
  simpl; split; reflexivity.
Qed.

Lemma is_nan_false x : is_nan x = false <-> Prim2SF x <> S754_nan.
Proof.
  rewrite <- is_nan_spec. destruct (is_nan x); split; congruence.
Qed.

Lemma is_nan_eq x : is_nan x = true -> x = nan.
Proof. intros H. apply Prim2SF_inj. apply is_nan_spec in H. now rewrite H. Qed.

Lemma ltb_leb x y : (x <? y) = true -> (x <=? y) = true.
Proof.
  rewrite ltb_spec, leb_spec. unfold SFltb, SFleb.
  destruct (SFcompare _ _) as [[]|]; congruence.
Qed.

Lemma ltb_not_nan x y : (x <? y) = true -> is_nan x = false /\ is_nan y = false.
Proof.
  rewrite ltb_spec, !is_nan_false. unfold SFltb.
  destruct (SFcompare _ _) eqn:E; [|discriminate]. intros _.
  split; intros H; assert (N : SFcompare (Prim2SF x) (Prim2SF y) = None)
    by (apply SF.compare_nan; auto); congruence.
Qed.

Lemma leb_not_nan x y : (x <=? y) = true -> is_nan x = false /\ is_nan y = false.
Proof.
  rewrite leb_spec, !is_nan_false. unfold SFleb.
  destruct (SFcompare _ _) eqn:E; [|discriminate]. intros _.
  split; intros H; assert (N : SFcompare (Prim2SF x) (Prim2SF y) = None)
    by (apply SF.compare_nan; auto); congruence.
Qed.

Lemma nltb_leb x y :
  is_nan x = false -> is_nan y = false -> (x <? y) = false -> (y <=? x) = true.
Proof.
  rewrite ltb_spec, leb_spec, !is_nan_false. unfold SFltb, SFleb. intros Hx Hy.
  rewrite (SF.compare_antisym (Prim2SF x) (Prim2SF y)).
  destruct (SFcompare (Prim2SF x) (Prim2SF y)) as [[]|] eqn:E; simpl; try congruence.
  apply SF.compare_nan in E. tauto.
Qed.

Lemma leb_nltb x y : (x <=? y) = true -> (y <? x) = false.
Proof.
  rewrite ltb_spec, leb_spec. unfold SFltb, SFleb.
  rewrite (SF.compare_antisym (Prim2SF x) (Prim2SF y)).
  destruct (SFcompare (Prim2SF x) (Prim2SF y)) as [[]|]; simpl; congruence.
Qed.

Lemma ltb_nltb x y : (x <? y) = true -> (y <? x) = false.
Proof. intros H. apply leb_nltb, ltb_leb, H. Qed.

Lemma leb_refl x : is_nan x = false -> (x <=? x) = true.
Proof.
  rewrite leb_spec, is_nan_false. unfold SFleb. intros H.
  now rewrite SF.compare_refl.
Qed.

Lemma leb_nltb_eqb x y : (x <=? y) = true -> (x <? y) = false -> (x =? y) = true.
Proof.
  rewrite ltb_spec, leb_spec, eqb_spec. unfold SFltb, SFleb, SFeqb.
  destruct (SFcompare _ _) as [[]|]; congruence.
Qed.

End F64.

(** ** The order of the floats *)

Module Key.

Local Open Scope Z_scope.

(** The order of the floats that are not NaN, read off three integers. *)
Definition key (x : spec_float) : Z * Z * Z :=
  match x with
  | S754_nan => (0, 0, 0)
  | S754_zero _ => (0, 0, 0)
  | S754_infinity true => (-2, 0, 0)
  | S754_infinity false => (2, 0, 0)
  | S754_finite true m e => (-1, - e, - Zpos m)
  | S754_finite false m e => (1, e, Zpos m)
  end.

Definition klt (a b : Z * Z * Z) : Prop :=
  fst (fst a) < fst (fst b)
  \/ (fst (fst a) = fst (fst b)
      /\ (snd (fst a) < snd (fst b)
          \/ (snd (fst a) = snd (fst b) /\ snd a < snd b))).

Definition keq (a b : Z * Z * Z) : Prop :=
  fst (fst a) = fst (fst b) /\ snd (fst a) = snd (fst b) /\ snd a = snd b.

Definition kle (a b : Z * Z * Z) : Prop := klt a b \/ keq a b.

Lemma compare_key x y :
  x <> S754_nan -> y <> S754_nan ->
  match SFcompare x y with
  | Some Lt => klt (key x) (key y)
  | Some Eq => keq (key x) (key y)
  | Some Gt => klt (key y) (key x)
  | None => False
  end.
Proof.
  intros Hx Hy.
  destruct x as [s|s| |s m e], y as [t|t| |t n f]; try congruence;
    try (destruct s; try destruct t; cbn; unfold klt, keq; cbn; lia);
    try (destruct t; cbn; unfold klt, keq; cbn; lia).
  destruct s, t; cbn; unfold klt, keq; cbn; try lia;
    change (Pos.compare_cont Eq m n) with (Pos.compare m n);
    destruct (Z.compare_spec e f); destruct (Pos.compare_spec m n); cbn; lia.
Qed.

End Key.

Module Order.

Import Key.

Definition K (x : float) : Z * Z * Z := key (Prim2SF x).

Lemma ltb_true x y :
  (x <? y) = true <-> is_nan x = false /\ is_nan y = false /\ klt (K x) (K y).
Proof.
  rewrite ltb_spec, !F64.is_nan_false. unfold SFltb, K. split.
  - destruct (SFcompare _ _) as [[]|] eqn:E; try discriminate. intros _.
    assert (Hx : Prim2SF x <> S754_nan)
      by (intros N; rewrite N in E; discriminate).
    assert (Hy : Prim2SF y <> S754_nan)
      by (intros N; rewrite N in E; destruct (Prim2SF x) as [| | |[]]; discriminate).
    pose proof (compare_key _ _ Hx Hy) as C. rewrite E in C. auto.
  - intros (Hx & Hy & L). pose proof (compare_key _ _ Hx Hy) as C.
    destruct (SFcompare _ _) as [[]|]; try reflexivity; try tauto;
      unfold klt, keq in *; lia.
Qed.

Lemma leb_true x y :
  (x <=? y) = true <-> is_nan x = false /\ is_nan y = false /\ kle (K x) (K y).
Proof.
  rewrite leb_spec, !F64.is_nan_false. unfold SFleb, K. split.
  - destruct (SFcompare _ _) as [[]|] eqn:E; try discriminate; intros _;
    (assert (Hx : Prim2SF x <> S754_nan)
      by (intros N; rewrite N in E; discriminate));
    (assert (Hy : Prim2SF y <> S754_nan)
      by (intros N; rewrite N in E; destruct (Prim2SF x) as [| | |[]]; discriminate));
    pose proof (compare_key _ _ Hx Hy) as C; rewrite E in C; unfold kle; auto.
  - intros (Hx & Hy & L). pose proof (compare_key _ _ Hx Hy) as C.
    destruct (SFcompare _ _) as [[]|]; try reflexivity; try tauto;
      unfold kle, klt, keq in *; lia.
Qed.

Lemma eqb_true x y :
  (x =? y) = true <-> is_nan x = false /\ is_nan y = false /\ keq (K x) (K y).
Proof.
  rewrite eqb_spec, !F64.is_nan_false. unfold SFeqb, K. split.
  - destruct (SFcompare _ _) as [[]|] eqn:E; try discriminate; intros _;
    (assert (Hx : Prim2SF x <> S754_nan)
      by (intros N; rewrite N in E; discriminate));
    (assert (Hy : Prim2SF y <> S754_nan)
      by (intros N; rewrite N in E; destruct (Prim2SF x) as [| | |[]]; discriminate));
    pose proof (compare_key _ _ Hx Hy) as C; rewrite E in C; auto.
  - intros (Hx & Hy & L). pose proof (compare_key _ _ Hx Hy) as C.
    destruct (SFcompare _ _) as [[]|]; try reflexivity; try tauto;
      unfold kle, klt, keq in *; lia.
Qed.

Lemma ltb_false x y :
  (x <? y) = false <-> is_nan x = true \/ is_nan y = true \/ kle (K y) (K x).
Proof.
  destruct (x <? y) eqn:E.
  - apply ltb_true in E. destruct E as (Hx & Hy & L). split; [discriminate|].
    intros [H|[H|H]]; try congruence; unfold kle, klt, keq in *; lia.
  - split; [intros _|reflexivity].
    destruct (is_nan x) eqn:Hx; [auto|]. destruct (is_nan y) eqn:Hy; [auto|].
    right; right.
    assert (T : ~ klt (K x) (K y)).
    { intros L. assert ((x <? y) = true) by (apply ltb_true; auto). congruence. }
    unfold kle, klt, keq in *. lia.
Qed.

Lemma leb_false x y :
  (x <=? y) = false <-> is_nan x = true \/ is_nan y = true \/ klt (K y) (K x).
Proof.
  destruct (x <=? y) eqn:E.
  - apply leb_true in E. destruct E as (Hx & Hy & L). split; [discriminate|].
    intros [H|[H|H]]; try congruence; unfold kle, klt, keq in *; lia.
  - split; [intros _|reflexivity].
    destruct (is_nan x) eqn:Hx; [auto|]. destruct (is_nan y) eqn:Hy; [auto|].
    right; right.
    assert (T : ~ kle (K x) (K y)).
    { intros L. assert ((x <=? y) = true) by (apply leb_true; auto). congruence. }
    unfold kle, klt, keq in *. lia.
Qed.

Lemma eqb_false x y :
  (x =? y) = false <-> is_nan x = true \/ is_nan y = true \/ ~ keq (K x) (K y).
Proof.
  destruct (x =? y) eqn:E.
  - apply eqb_true in E. destruct E as (Hx & Hy & L). split; [discriminate|].
    intros [H|[H|H]]; try congruence; tauto.
  - split; [intros _|reflexivity].
    destruct (is_nan x) eqn:Hx; [auto|]. destruct (is_nan y) eqn:Hy; [auto|].
    right; right. intros L.
    assert ((x =? y) = true) by (apply eqb_true; auto). congruence.
Qed.

Lemma K_zero : K 0 = (0, 0, 0)%Z.
Proof. reflexivity. Qed.

Lemma nan_zero : is_nan 0 = false.
Proof. reflexivity. Qed.

End Order.

(** Decides a goal about the order of floats from hypotheses about it. *)
Ltac float_order :=
  repeat match goal with
         | H : (_ <? _) = true |- _ => apply Order.ltb_true in H
         | H : (_ <? _) = false |- _ => apply Order.ltb_false in H
         | H : (_ <=? _) = true |- _ => apply Order.leb_true in H
         | H : (_ <=? _) = false |- _ => apply Order.leb_false in H
         | H : (_ =? _) = true |- _ => apply Order.eqb_true in H
         | H : (_ =? _) = false |- _ => apply Order.eqb_false in H
         end;
  try match goal with
      | |- (_ <? _) = true => apply Order.ltb_true
      | |- (_ <? _) = false => apply Order.ltb_false
      | |- (_ <=? _) = true => apply Order.leb_true
      | |- (_ <=? _) = false => apply Order.leb_false
      | |- (_ =? _) = true => apply Order.eqb_true
      | |- (_ =? _) = false => apply Order.eqb_false
      end;
  rewrite ?Order.K_zero, ?Order.nan_zero in *;
  unfold Key.kle, Key.klt, Key.keq in *;
  repeat match goal with
         | |- context [Order.K ?x] =>
           let a := fresh "a" in let b := fresh "b" in let c := fresh "c" in
           destruct (Order.K x) as [[a b] c]
         | H : context [Order.K ?x] |- _ =>
           let a := fresh "a" in let b := fresh "b" in let c := fresh "c" in
           destruct (Order.K x) as [[a b] c]
         end;
  cbn [fst snd] in *;
  repeat match goal with
         | |- context [is_nan ?x] => destruct (is_nan x)
         | H : context [is_nan ?x] |- _ => destruct (is_nan x)
         end;
  intuition (try congruence; try lia).

Module MinMax.

Lemma min_nan x y : is_nan (Go.min x y) = is_nan x || is_nan y.
Proof.
  unfold Go.min.
  destruct (is_nan y) eqn:Ny; cbn [orb].
  - rewrite Ny. now rewrite orb_true_r.
  - rewrite orb_false_r.
    destruct (y <? x) eqn:L; [rewrite Ny; float_order|].
    destruct (is_nan x) eqn:Nx; cbn [orb]; [assumption|].
    destruct (x <? y); cbn [orb]; [assumption|].
    destruct (negb (x =? 0)); [assumption|].
    destruct (get_sign x); assumption.
Qed.

Lemma min_le x y :
  is_nan (Go.min x y) = false ->
  (Go.min x y <=? x) = true /\ (Go.min x y <=? y) = true.
Proof.
  rewrite min_nan. intros N. apply orb_false_elim in N. destruct N as [Nx Ny].
  unfold Go.min. rewrite Nx, Ny. cbn [orb].
  destruct (y <? x) eqn:L1; [split; float_order|].
  destruct (x <? y) eqn:L2; cbn [orb]; [split; float_order|].
  destruct (negb (x =? 0)); [split; float_order|].
  destruct (get_sign x); split; float_order.
Qed.

Lemma min_pos x y : (0 <? Go.min x y) = (0 <? x) && (0 <? y).
Proof.
  unfold Go.min.
  destruct (is_nan y) eqn:Ny; cbn [orb].
  - destruct (0 <? y) eqn:P; [float_order|now rewrite andb_false_r].
  - destruct (y <? x) eqn:L1.
    + destruct (0 <? y) eqn:P; [|now rewrite andb_false_r].
      rewrite andb_true_r. symmetry. float_order.
    + destruct (is_nan x) eqn:Nx; cbn [orb].
      * destruct (0 <? x) eqn:P; [float_order|reflexivity].
      * destruct (x <? y) eqn:L2; cbn [orb].
        -- destruct (0 <? x) eqn:P; [|reflexivity]. symmetry. cbn [andb]. float_order.
        -- assert (E : (0 <? y) = (0 <? x)).
           { destruct (0 <? x) eqn:P; float_order. }
           rewrite E.
           destruct (negb (x =? 0)); [|destruct (get_sign x)];
             try rewrite E; now destruct (0 <? x).
Qed.

End MinMax.

(** * Slices *)

Module GoFacts.

Lemma length_upd {A} (l : list A) : forall i v, length (Go.upd l i v) = length l.
Proof. induction l as [|a l IH]; intros [|i] v; cbn; auto. Qed.

Lemma nth_upd_neq {A} (l : list A) d : forall i j v,
  i <> j -> nth j (Go.upd l i v) d = nth j l d.
Proof.
  induction l as [|a l IH]; intros [|i] [|j] v H; cbn; auto; try congruence.
Qed.

Lemma nth_upd_eq {A} (l : list A) d : forall i v,
  i < length l -> nth i (Go.upd l i v) d = v.
Proof.
  induction l as [|a l IH]; intros [|i] v H; cbn in *; try lia; auto.
  apply IH. lia.
Qed.

End GoFacts.

(** * The step controller *)

Section Controller.

Variable pow_core : float -> float -> float.

Lemma stepLoop_S fuel rk f x y xMax tol h rej :
  stepLoop pow_core (S fuel) rk f x y xMax tol h rej =
  match stepTurn pow_core rk f x y xMax tol h rej with
  | Return r => Some r
  | Continue h' rej' => stepLoop pow_core fuel rk f x y xMax tol h' rej'
  end.
Proof. reflexivity. Qed.

Lemma stepTurn_small rk f x y xMax tol h rej :
  stepTurn pow_core rk f x y xMax tol h rej = Return (StepErr ErrTooSmallStep)
  <-> (h <? minStep x) = true.
Proof.
  unfold stepTurn. destruct (h <? minStep x); [tauto|].
  destruct (clamp x h xMax) as [xp h'].
  destruct (yPlusH rk f x y h') as [yp te].
  destruct (control _ _ _ _ _ _ _ _); split; discriminate.
Qed.

(** An error of the step loop comes from a turn whose [h] is below the
    floor. *)
Lemma stepLoop_err fuel rk f x y xMax tol : forall h rej e,
  stepLoop pow_core fuel rk f x y xMax tol h rej = Some (StepErr e) ->
  exists h' rej',
    stepTurn pow_core rk f x y xMax tol h' rej' = Return (StepErr e)
    /\ (h' <? minStep x) = true.
Proof.
  induction fuel as [|fuel IH]; intros h rej e; [discriminate|].
  rewrite stepLoop_S.
  destruct (stepTurn pow_core rk f x y xMax tol h rej) as [r|h1 rej1] eqn:T.
  - intros [= ->]. exists h, rej. split; [exact T|].
    destruct e. now apply stepTurn_small in T.
  - apply IH.
Qed.

Lemma integrateLoop_err fuel rk f xEnd tol : forall x y h xs0 ys0 r,
  integrateLoop pow_core fuel rk f xEnd tol x y h xs0 ys0 = Some r ->
  err r <> None ->
  xs r = [] /\ ys r = [] /\ err r = Some ErrTooSmallStep.
Proof.
  induction fuel as [|fuel IH]; intros x y h xs0 ys0 r; [discriminate|].
  simpl. destruct (x <? xEnd).
  - destruct (rungeKuttaStep pow_core fuel rk f x y h xEnd tol) as [[xp nh yp te|e]|];
      [apply IH| |discriminate].
    intros [= <-] _. destruct e. auto.
  - intros [= <-]. simpl. congruence.
Qed.

(** What a call of [rungeKuttaStep] returns, it returns with more turns
    allowed as well. *)
Lemma stepLoop_mono rk f x y xMax tol r : forall n m h rej,
  stepLoop pow_core n rk f x y xMax tol h rej = Some r -> (n <= m)%nat ->
  stepLoop pow_core m rk f x y xMax tol h rej = Some r.
Proof.
  induction n as [|n IH]; intros m h rej; [discriminate|].
  destruct m as [|m]; [lia|]. rewrite !stepLoop_S.
  destruct (stepTurn pow_core rk f x y xMax tol h rej) as [r'|h' rej'].
  - auto.
  - intros E L. apply IH; [exact E|lia].
Qed.

(** A step that fails in a state that the loop reaches ends the loop: it
    returns the error and nothing of the trajectory gathered so far. *)
Lemma integrateLoop_fail rk f xEnd tol s s' :
  reaches pow_core rk f xEnd tol s s' ->
  forall n e,
    (let '(x, y, h, _, _) := s' in
     (x <? xEnd) = true
     /\ rungeKuttaStep pow_core n rk f x y h xEnd tol = Some (StepErr e)) ->
    exists N, forall fuel, (N <= fuel)%nat ->
      (let '(x, y, h, xs0, ys0) := s in
       integrateLoop pow_core fuel rk f xEnd tol x y h xs0 ys0)
      = Some {| xs := []; ys := []; err := Some e |}.
Proof.
  induction 1 as [[[[[x y] h] xs0] ys0]|n x y h xs0 ys0 xp nh yp te s' L E R IH];
    intros m e F.
  - destruct F as [L F]. exists (S m). intros [|fuel] Hf; [lia|].
    cbn [integrateLoop]. rewrite L.
    unfold rungeKuttaStep in *.
    rewrite (stepLoop_mono _ _ _ _ _ _ _ m fuel _ _ F) by lia. reflexivity.
  - destruct (IH m e F) as [N HN]. exists (S (Nat.max n N)).
    intros [|fuel] Hf; [lia|].
    cbn [integrateLoop]. rewrite L.
    unfold rungeKuttaStep in *.
    rewrite (stepLoop_mono _ _ _ _ _ _ _ n fuel _ _ E) by lia.
    apply HN. lia.
Qed.

(** A result without an error is a whole trajectory: as many states as
    abscissae, the last of them not before [xEnd]. *)
Lemma integrateLoop_whole fuel rk f xEnd tol d : forall x y h xs0 ys0 r,
  integrateLoop pow_core fuel rk f xEnd tol x y h xs0 ys0 = Some r ->
  length ys0 = length xs0 -> last xs0 d = x ->
  err r = None ->
  length (ys r) = length (xs r) /\ (last (xs r) d <? xEnd) = false.
Proof.
  induction fuel as [|fuel IH]; intros x y h xs0 ys0 r; [discriminate|].
  simpl. destruct (x <? xEnd) eqn:L.
  - destruct (rungeKuttaStep pow_core fuel rk f x y h xEnd tol) as [[xp nh yp te|e]|];
      [|intros [= <-] _ _; discriminate|discriminate].
    intros E Hl _. apply (IH _ _ _ _ _ _ E).
    + rewrite !length_app. simpl. lia.
    + apply last_last.
  - intros [= <-] Hl Hx _. simpl. split; [exact Hl|]. now rewrite Hx.
Qed.

(** C3. A turn of the step loop fails with [ErrTooSmallStep] exactly when
    its candidate [h] is below [10 * |Nextafter(x, +Inf) - x|].  A step
    that fails is fatal to the call: if the loop of [rungeKuttaIntegrate]
    reaches, by accepted steps, a state at [x] before the end in which
    [rungeKuttaStep] returns an error, the call returns that error with
    nil [xs] and [ys], whatever had been gathered.  Conversely a call
    returns either an error alone, or without an error a whole
    trajectory whose last abscissa is not before the end: never a part
    of one. *)
Theorem too_small_step_is_fatal rk f x y xMax tol h rej :
  (stepTurn pow_core rk f x y xMax tol h rej = Return (StepErr ErrTooSmallStep)
   <-> (h <? minStep x) = true)
  /\ (forall xspan y0 h0 xs0 ys0 n e,
        reaches pow_core rk f (snd xspan) defaultTol
                (fst xspan, y0, getFirstStep pow_core rk f xspan y0 defaultTol,
                 [fst xspan], [y0])
                (x, y, h0, xs0, ys0) ->
        (x <? snd xspan) = true ->
        rungeKuttaStep pow_core n rk f x y h0 (snd xspan) defaultTol
        = Some (StepErr e) ->
        exists N, forall fuel, (N <= fuel)%nat ->
          rungeKuttaIntegrate pow_core fuel rk f xspan y0
          = Some {| xs := []; ys := []; err := Some e |})
  /\ (forall fuel xspan y0 r,
        rungeKuttaIntegrate pow_core fuel rk f xspan y0 = Some r ->
        (err r <> None ->
         xs r = [] /\ ys r = [] /\ err r = Some ErrTooSmallStep)
        /\ (err r = None ->
            length (ys r) = length (xs r)
            /\ (last (xs r) (fst xspan) <? snd xspan) = false)).
Proof.
  split; [apply stepTurn_small|]. split.
  - intros xspan y0 h0 xs0 ys0 n e R L F.
    exact (integrateLoop_fail _ _ _ _ _ _ R n e (conj L F)).
  - intros fuel xspan y0 r E. split.
    + exact (integrateLoop_err _ _ _ _ _ _ _ _ _ _ _ E).
    + intros N.
      exact (integrateLoop_whole _ _ _ _ _ _ _ _ _ _ _ _ E eq_refl eq_refl N).
Qed.

(** ** A derivative that is NaN *)

Lemma nan_first_step :
  getFirstStep pow_core dormandPrince nanDydx (0, 1) [0] defaultTol = nan.
Proof. vm_compute. reflexivity. Qed.

Lemma nan_turn rej :
  stepTurn pow_core dormandPrince nanDydx 0 [0] 1 defaultTol nan rej = Continue nan true.
Proof. destruct rej; vm_compute; reflexivity. Qed.

Lemma nan_stepLoop fuel : forall rej,
  stepLoop pow_core fuel dormandPrince nanDydx 0 [0] 1 defaultTol nan rej = None.
Proof.
  induction fuel as [|fuel IH]; intros rej; [reflexivity|].
  rewrite stepLoop_S, nan_turn. apply IH.
Qed.

(** C4. With the derivative [dydx[0] = NaN] on [[0, 1]] from [y0 = [0]],
    [DormandPrince] has not returned after any number of turns: the first
    step size is NaN, [h < minStep] is false, the attempt is rejected and
    [h] stays NaN. *)
Theorem nan_derivative_never_returns fuel :
  DormandPrince pow_core fuel nanDydx (0, 1) [0] = None.
Proof.
  unfold DormandPrince, rungeKuttaIntegrate. rewrite nan_first_step.
  destruct fuel as [|fuel]; [reflexivity|].
  cbn [integrateLoop fst snd].
  replace (0 <? 1) with true by (vm_compute; reflexivity).
  unfold rungeKuttaStep. now rewrite nan_stepLoop.
Qed.

End Controller.

Lemma too_small_step_is_fatal_witness :
  reaches powStandIn dormandPrince spikeDydx 1.0000004 defaultTol
          (0.999999, [0],
           getFirstStep powStandIn dormandPrince spikeDydx (0.999999, 1.0000004) [0]
                        defaultTol,
           [0.999999], [[0]])
          (1, [0], 9.9999999999999991e-06, [0.999999; 1], [[0]; [0]])
  /\ (1 <? 1.0000004) = true
  /\ rungeKuttaStep powStandIn 200 dormandPrince spikeDydx 1 [0]
                    9.9999999999999991e-06 1.0000004 defaultTol
     = Some (StepErr ErrTooSmallStep)
  /\ exists N, forall fuel, (N <= fuel)%nat ->
       rungeKuttaIntegrate powStandIn fuel dormandPrince spikeDydx
                           (0.999999, 1.0000004) [0]
       = Some {| xs := []; ys := []; err := Some ErrTooSmallStep |}.
Proof.
  assert (R : reaches powStandIn dormandPrince spikeDydx 1.0000004 defaultTol
                (0.999999, [0],
                 getFirstStep powStandIn dormandPrince spikeDydx (0.999999, 1.0000004) [0]
                              defaultTol,
                 [0.999999], [[0]])
                (1, [0], 9.9999999999999991e-06, [0.999999; 1], [[0]; [0]])).
  { apply (reaches_step powStandIn dormandPrince spikeDydx 1.0000004 defaultTol 100
             0.999999 [0] _ [0.999999] [[0]] 1 9.9999999999999991e-06 [0] [0]).
    - reflexivity.
    - vm_compute. reflexivity.
    - apply reaches_here. }
  assert (F : rungeKuttaStep powStandIn 200 dormandPrince spikeDydx 1 [0]
                9.9999999999999991e-06 1.0000004 defaultTol
              = Some (StepErr ErrTooSmallStep)) by (vm_compute; reflexivity).
  split; [exact R|]. split; [reflexivity|]. split; [exact F|].
  exact (proj1 (proj2 (too_small_step_is_fatal powStandIn dormandPrince spikeDydx
                         1 [0] 2 defaultTol 0 false))
           (0.999999, 1.0000004) [0] 9.9999999999999991e-06
           [0.999999; 1] [[0]; [0]] 200%nat ErrTooSmallStep R eq_refl F).
Defined.

Lemma map_seq_combine {A B C} (g : A -> B -> C) (dA : A) (dB : B) :
  forall (u : list A) (v : list B), length v = length u ->
  map (fun i => g (nth i u dA) (nth i v dB)) (seq 0 (length u))
  = map (fun p => g (fst p) (snd p)) (combine u v).
Proof.
  induction u as [|a u IH]; intros [|b v] L; try discriminate; [reflexivity|].
  simpl in L. injection L as L. cbn [length combine map seq].
  f_equal. rewrite <- seq_shift, map_map. now apply IH.
Qed.

Lemma fold_left_map_add {A} (g : A -> float) (l : list A) : forall acc,
  fold_left (fun acc i => acc + g i) l acc = fold_left PrimFloat.add (map g l) acc.
Proof. induction l as [|i l IH]; intros acc; [reflexivity|apply IH]. Qed.

Lemma length_stepScale tol y yP : length (stepScale tol y yP) = length y.
Proof. unfold stepScale. now rewrite length_map, length_seq. Qed.

Section ControllerSpec.

Variable pow_core : float -> float -> float.

Lemma stepScale_spec tol y yP :
  length yP = length y -> stepScale tol y yP = Spec.scale tol y yP.
Proof.
  intros L. unfold stepScale, Spec.scale, Go.idx.
  exact (map_seq_combine (fun a b => tol_abs tol + tol_rel tol * Go.max (abs a) (abs b)) 0 0 y yP L).
Qed.

Lemma errorNorm_spec te scale h :
  length scale = length te ->
  errorNorm pow_core te scale h = Spec.errorNorm (Pow pow_core) te scale h.
Proof.
  intros L. unfold errorNorm, Spec.errorNorm, Spec.sum, Go.idx.
  rewrite (fold_left_map_add (fun i => Pow pow_core (nth i te 0 * h / nth i scale 0) 2)).
  now rewrite (map_seq_combine (fun t s => Pow pow_core (t * h / s) 2) 0 0 te scale L).
Qed.


(** ** Clamping to [xMax] *)

Lemma stepTurn_ok rk f x y xMax tol h rej xPlusH newH yP te :
  stepTurn pow_core rk f x y xMax tol h rej = Return (StepOk xPlusH newH yP te) ->
  (h <? minStep x) = false
  /\ xPlusH = fst (clamp x h xMax)
  /\ (yP, te) = yPlusH rk f x y (snd (clamp x h xMax))
  /\ control pow_core (errorOrder rk) tol y yP te (snd (clamp x h xMax)) rej = Accept newH.
Proof.
  unfold stepTurn. destruct (h <? minStep x); [discriminate|].
  destruct (clamp x h xMax) as [xp hc]. cbn [fst snd].
  destruct (yPlusH rk f x y hc) as [yp t].
  destruct (control pow_core (errorOrder rk) tol y yp t hc rej) eqn:C; [|discriminate].
  intros [= <- <- <- <-]. auto.
Qed.


End ControllerSpec.



Lemma clamped_turn :
  stepTurn noPow dormandPrince zeroDydx 0 [0] 0.5 defaultTol 1 false
  = Return (StepOk 0.5 5 [0] [0]).
Proof. vm_compute. reflexivity. Qed.



(** * The store: what is written, what is called *)

Module MemFacts.

Import Mem GoFacts.
Local Open Scope nat_scope.

(** [ext N w w']: from [w] to [w'] the store only grew, nothing below [N]
    was written, and [k] calls of [dydxFunc] were logged. *)
Definition ext (N k : nat) (w w' : world) : Prop :=
  length (heap w) <= length (heap w')
  /\ (forall s, s < N -> nth s (heap w') [] = nth s (heap w) [])
  /\ (exists ws, writes w' = writes w ++ ws /\ Forall (fun s => N <= s) ws)
  /\ length (calls w') = length (calls w) + k.

(** A computation that respects the slices below [N], makes [k] calls and
    returns a value in [Q]. *)
Definition spec {A} (N k : nat) (m : M A) (Q : A -> Prop) : Prop :=
  forall w, N <= length (heap w) -> ext N k w (snd (m w)) /\ Q (fst (m w)).

Lemma ext_refl N w : ext N 0 w w.
Proof.
  repeat split; auto. exists []. now rewrite app_nil_r.
Qed.

Lemma ext_trans N j k w1 w2 w3 :
  ext N j w1 w2 -> ext N k w2 w3 -> ext N (j + k) w1 w3.
Proof.
  intros (L1 & H1 & (ws1 & W1 & F1) & C1) (L2 & H2 & (ws2 & W2 & F2) & C2).
  repeat split.
  - lia.
  - intros s Hs. rewrite H2, H1; auto.
  - exists (ws1 ++ ws2). rewrite W2, W1, app_assoc. split; [reflexivity|].
    apply Forall_app; auto.
  - lia.
Qed.

Lemma spec_ret {A} N (a : A) (Q : A -> Prop) : Q a -> spec N 0 (ret a) Q.
Proof. intros H w _. split; [apply ext_refl|exact H]. Qed.

Lemma spec_bind {A B} N j k (m : M A) (f : A -> M B) (Q : A -> Prop) (R : B -> Prop) :
  spec N j m Q -> (forall a, Q a -> spec N k (f a) R) ->
  spec N (j + k) (bind m f) R.
Proof.
  intros Hm Hf w Hw. unfold bind.
  destruct (Hm w Hw) as [E1 Qa]. destruct (m w) as [a w1]. cbn [fst snd] in *.
  destruct (Hf a Qa w1) as [E2 Rb]; [destruct E1; lia|].
  split; [eapply ext_trans; eauto|exact Rb].
Qed.

Lemma spec_weaken {A} N k (m : M A) (Q R : A -> Prop) :
  spec N k m Q -> (forall a, Q a -> R a) -> spec N k m R.
Proof. intros H I w Hw. destruct (H w Hw). auto. Qed.

Lemma spec_make N n : spec N 0 (make n) (fun s => N <= s).
Proof.
  intros w Hw. cbn. repeat split; cbn; auto.
  - rewrite length_app. lia.
  - intros s Hs. apply app_nth1. lia.
  - exists []. now rewrite app_nil_r.
Qed.

Lemma spec_load N s : spec N 0 (load s) (fun _ => True).
Proof. intros w _. split; [apply ext_refl|exact I]. Qed.

Lemma spec_store N s v : N <= s -> spec N 0 (store s v) (fun _ => True).
Proof.
  intros Hs w Hw. cbn. repeat split; cbn; auto.
  - now rewrite length_upd.
  - intros t Ht. apply nth_upd_neq. lia.
  - exists [s]. split; [reflexivity|]. constructor; auto.
Qed.

Lemma spec_copy N dst src : N <= dst -> spec N 0 (copy dst src) (fun _ => True).
Proof.
  intros H. unfold copy.
  apply (spec_bind N 0 0 _ _ (fun _ => True)); [apply spec_load|intros v _].
  apply (spec_bind N 0 0 _ _ (fun _ => True)); [apply spec_load|intros d _].
  now apply spec_store.
Qed.

Lemma spec_log N c :
  spec N 1 (fun w => (tt, {| heap := heap w; calls := calls w ++ [c]; writes := writes w |}))
       (fun _ => True).
Proof.
  intros w _. cbn. repeat split; cbn; auto.
  - exists []. now rewrite app_nil_r.
  - rewrite length_app. reflexivity.
Qed.

Lemma spec_callDydx N f dydx x y :
  N <= dydx -> spec N 1 (callDydx f dydx x y) (fun _ => True).
Proof.
  intros H. unfold callDydx.
  apply (spec_bind N 0 1 _ _ (fun _ => True)); [apply spec_load|intros yv _].
  apply (spec_bind N 0 1 _ _ (fun _ => True)); [apply spec_load|intros d _].
  apply (spec_bind N 1 0 _ _ (fun _ => True)); [apply spec_log|intros _ _].
  now apply spec_store.
Qed.

Lemma spec_makes N n {A} (l : list A) :
  spec N 0 (mapM (fun _ => make n) l)
       (fun k => length k = length l /\ Forall (fun s => N <= s) k).
Proof.
  induction l as [|a l IH]; cbn [mapM].
  - apply spec_ret. auto.
  - apply (spec_bind N 0 0 _ _ (fun s => N <= s)); [apply spec_make|intros s Hs].
    apply (spec_bind N 0 0 _ _ (fun k => length k = length l /\ Forall (fun s => N <= s) k));
      [exact IH|intros k [Lk Fk]].
    apply spec_ret. cbn. auto.
Qed.

Lemma spec_loads N (l : list slice) : spec N 0 (mapM load l) (fun _ => True).
Proof.
  induction l as [|a l IH]; cbn [mapM].
  - now apply spec_ret.
  - apply (spec_bind N 0 0 _ _ (fun _ => True)); [apply spec_load|intros s _].
    apply (spec_bind N 0 0 _ _ (fun _ => True)); [exact IH|intros k _].
    now apply spec_ret.
Qed.

(** A loop whose every turn makes one call. *)
Lemma spec_forEach N {A} (l : list A) (body : A -> M unit) :
  (forall a, In a l -> spec N 1 (body a) (fun _ => True)) ->
  spec N (length l) (forEach l body) (fun _ => True).
Proof.
  induction l as [|a l IH]; intros H; cbn [forEach length].
  - now apply spec_ret.
  - apply (spec_bind N 1 (length l) _ _ (fun _ => True)).
    + apply H. now left.
    + intros _ _. apply IH. intros b Hb. apply H. now right.
Qed.

Lemma spec_dpYPlusH N yPlusH te f x y h :
  N <= yPlusH -> N <= te ->
  spec N 7 (dpYPlusH yPlusH te f x y h) (fun _ => True).
Proof.
  intros Hy Ht. unfold dpYPlusH.
  apply (spec_bind N 0 7 _ _ (fun _ => True)); [apply spec_load|intros yv _].
  apply (spec_bind N 0 7 _ _ _ _ (spec_makes N (length yv) DP.c)). intros k [Lk Fk].
  apply (spec_bind N 0 7 _ _ _ _ (spec_make N (length yv))). intros yItp Hi.
  apply (spec_bind N 7 0 _ _ (fun _ => True)).
  - replace 7 with (length (seq 0 (length k))) by (rewrite length_seq, Lk; reflexivity).
    apply spec_forEach. intros i Hin. apply in_seq in Hin.
    apply (spec_bind N 0 1 _ _ (fun _ => True)); [apply spec_loads|intros kv _].
    apply (spec_bind N 0 1 _ _ (fun _ => True)); [now apply spec_store|intros _ _].
    apply spec_callDydx. rewrite Forall_forall in Fk. apply Fk. apply nth_In. lia.
  - intros _ _.
    apply (spec_bind N 0 0 _ _ (fun _ => True)); [apply spec_loads|intros kv _].
    apply (spec_bind N 0 0 _ _ (fun _ => True)); [now apply spec_store|intros _ _].
    apply (spec_bind N 0 0 _ _ (fun _ => True)); [apply spec_load|intros t _].
    now apply spec_store.
Qed.


(** The same with any number of calls. *)
Definition specA {A} (N : nat) (m : M A) (Q : A -> Prop) : Prop :=
  forall w, N <= length (heap w) ->
            (exists k, ext N k w (snd (m w))) /\ Q (fst (m w)).

Lemma spec_specA {A} N k (m : M A) Q : spec N k m Q -> specA N m Q.
Proof. intros H w Hw. destruct (H w Hw). eauto. Qed.

Lemma specA_bind {A B} N (m : M A) (f : A -> M B) (Q : A -> Prop) (R : B -> Prop) :
  specA N m Q -> (forall a, Q a -> specA N (f a) R) -> specA N (bind m f) R.
Proof.
  intros Hm Hf w Hw. unfold bind.
  destruct (Hm w Hw) as [[j E1] Qa]. destruct (m w) as [a w1]. cbn [fst snd] in *.
  destruct (Hf a Qa w1) as [[k E2] Rb]; [destruct E1; lia|].
  split; [exists (j + k); eapply ext_trans; eauto|exact Rb].
Qed.

Lemma specA_weaken {A} N (m : M A) (Q R : A -> Prop) :
  specA N m Q -> (forall a, Q a -> R a) -> specA N m R.
Proof. intros H I w Hw. destruct (H w Hw). auto. Qed.

Lemma specA_ret {A} N (a : A) (Q : A -> Prop) : Q a -> specA N (ret a) Q.
Proof. intros H. eapply spec_specA, spec_ret, H. Qed.

Section Frame.

Variable pow_core : float -> float -> float.
Variable rk : rungeKutta.
Hypothesis rk_frame : forall N yp te f x y h,
  N <= yp -> N <= te -> specA N (yPlusH rk yp te f x y h) (fun _ => True).

Lemma specA_stepTurn N yp te f x y xMax tol h rej :
  N <= yp -> N <= te ->
  specA N (stepTurn pow_core yp te rk f x y xMax tol h rej) (fun _ => True).
Proof.
  intros Hy Ht. unfold stepTurn.
  destruct (h <? minStep x)%float; [now apply specA_ret|].
  destruct (clamp x h xMax) as [xp hc].
  apply (specA_bind N _ _ (fun _ => True)); [now apply rk_frame|intros _ _].
  apply (specA_bind N _ _ (fun _ => True)); [eapply spec_specA, spec_load|intros yv _].
  apply (specA_bind N _ _ (fun _ => True)); [eapply spec_specA, spec_load|intros ypv _].
  apply (specA_bind N _ _ (fun _ => True)); [eapply spec_specA, spec_load|intros tv _].
  apply (specA_bind N _ _ _ _ (spec_specA _ _ _ _ (spec_make N (length yv)))). intros sc Hs.
  apply (specA_bind N _ _ (fun _ => True)); [eapply spec_specA; now apply spec_store|intros _ _].
  destruct (control _ _ _ _ _ _ _ _); now apply specA_ret.
Qed.

Lemma specA_stepLoop N yp te f x y xMax tol fuel : forall h rej,
  N <= yp -> N <= te ->
  specA N (stepLoop pow_core fuel yp te rk f x y xMax tol h rej) (fun _ => True).
Proof.
  induction fuel as [|fuel IH]; intros h rej Hy Ht; cbn [stepLoop].
  - now apply specA_ret.
  - apply (specA_bind N _ _ (fun _ => True)); [now apply specA_stepTurn|intros [r|h' rej'] _].
    + now apply specA_ret.
    + now apply IH.
Qed.

Lemma spec_getFirstStep N f xspan y0 tol :
  spec N 2 (getFirstStep pow_core rk f xspan y0 tol) (fun _ => True).
Proof.
  unfold getFirstStep.
  apply (spec_bind N 0 2 _ _ (fun _ => True)); [apply spec_load|intros y0v _].
  apply (spec_bind N 0 2 _ _ _ _ (spec_make N (length y0v))). intros dydx0 H0.
  apply (spec_bind N 1 1 _ _ (fun _ => True)); [now apply spec_callDydx|intros _ _].
  apply (spec_bind N 0 1 _ _ (fun _ => True)); [apply spec_load|intros d0v _].
  destruct (firstGuess _ _ _ _ _) as [[[sc d1] h0] y1v].
  apply (spec_bind N 0 1 _ _ _ _ (spec_make N (length y0v))). intros scale Hs.
  apply (spec_bind N 0 1 _ _ (fun _ => True)); [now apply spec_store|intros _ _].
  apply (spec_bind N 0 1 _ _ _ _ (spec_make N (length y0v))). intros y1 H1.
  apply (spec_bind N 0 1 _ _ (fun _ => True)); [now apply spec_store|intros _ _].
  apply (spec_bind N 0 1 _ _ _ _ (spec_make N (length y0v))). intros dydx1 Hd.
  apply (spec_bind N 1 0 _ _ (fun _ => True)); [now apply spec_callDydx|intros _ _].
  apply (spec_bind N 0 0 _ _ (fun _ => True)); [apply spec_load|intros d1v _].
  now apply spec_ret.
Qed.

(** The trajectory only grows at its end, or is dropped with an error. *)
Definition keeps (ys0 : list slice) (r : option result) : Prop :=
  forall res, r = Some res -> err res = None -> exists more, ys res = ys0 ++ more.

Lemma specA_integrateLoop N f xEnd tol n fuel : forall x y te h xs0 ys0,
  N <= y -> N <= te ->
  specA N (integrateLoop pow_core fuel rk f xEnd tol n x y te h xs0 ys0) (keeps ys0).
Proof.
  induction fuel as [|fuel IH]; intros x y te h xs0 ys0 Hy Ht; cbn [integrateLoop].
  - apply specA_ret. intros res [=].
  - destruct (x <? xEnd)%float.
    + apply (specA_bind N _ _ _ _ (spec_specA _ _ _ _ (spec_make N n))). intros yp Hp.
      apply (specA_bind N _ _ (fun _ => True)); [now apply specA_stepLoop|].
      intros [[[xp nh] [e|]]|] _.
      * apply specA_ret. intros res [= <-]. discriminate.
      * apply (specA_bind N _ _ (fun _ => True));
          [eapply spec_specA; now apply spec_copy|intros _ _].
        eapply specA_weaken; [now apply IH|].
        intros r K res E1 E2. destruct (K res E1 E2) as [more ->].
        exists (yp :: more). now rewrite <- app_assoc.
      * apply specA_ret. intros res [=].
    + apply specA_ret. intros res [= <-] _. exists []. cbn. now rewrite app_nil_r.
Qed.

Lemma specA_rungeKuttaIntegrate N fuel f xspan y0 :
  specA N (rungeKuttaIntegrate pow_core fuel rk f xspan y0) (keeps [y0]).
Proof.
  unfold rungeKuttaIntegrate.
  apply (specA_bind N _ _ (fun _ => True));
    [eapply spec_specA, spec_getFirstStep|intros h _].
  apply (specA_bind N _ _ (fun _ => True)); [eapply spec_specA, spec_load|intros y0v _].
  apply (specA_bind N _ _ _ _ (spec_specA _ _ _ _ (spec_make N (length y0v)))). intros y Hy.
  apply (specA_bind N _ _ (fun _ => True));
    [eapply spec_specA; now apply spec_copy|intros _ _].
  apply (specA_bind N _ _ _ _ (spec_specA _ _ _ _ (spec_make N (length y0v)))). intros te Ht.
  now apply specA_integrateLoop.
Qed.

End Frame.


Lemma dormandPrince_frame N yp te f x y h :
  N <= yp -> N <= te -> specA N (yPlusH dormandPrince yp te f x y h) (fun _ => True).
Proof. intros Hy Ht. eapply spec_specA. now apply spec_dpYPlusH. Qed.

End MemFacts.



Lemma spec_empty_interval pow_core rk N fuel f x0 xEnd y0 :
  (x0 <? xEnd) = false ->
  MemFacts.spec N 2 (Mem.rungeKuttaIntegrate pow_core (S fuel) rk f (x0, xEnd) y0)
    (fun r => r = Some {| Mem.xs := [x0]; Mem.ys := [y0]; Mem.err := None |}).
Proof.
  intros C. unfold Mem.rungeKuttaIntegrate. cbn [fst snd].
  apply (MemFacts.spec_bind N 2 0 _ _ (fun _ => True));
    [apply MemFacts.spec_getFirstStep|intros h _].
  apply (MemFacts.spec_bind N 0 0 _ _ (fun _ => True)); [apply MemFacts.spec_load|intros y0v _].
  apply (MemFacts.spec_bind N 0 0 _ _ _ _ (MemFacts.spec_make N (length y0v))). intros y Hy.
  apply (MemFacts.spec_bind N 0 0 _ _ (fun _ => True));
    [now apply MemFacts.spec_copy|intros _ _].
  apply (MemFacts.spec_bind N 0 0 _ _ _ _ (MemFacts.spec_make N (length y0v))). intros te Ht.
  cbn [Mem.integrateLoop]. rewrite C. now apply MemFacts.spec_ret.
Qed.

(** C10. On an interval with [xspan[1] <= xspan[0]] the loop body never
    runs: [DormandPrince] returns [xs = [xspan[0]]], [ys = [y0]] and a nil
    error, on lists and on the store alike, and on the store exactly two
    calls of [dydxFunc] have been logged, those of [getFirstStep]. *)
Theorem empty_interval_single_point pow_core fuel f x0 xEnd :
  (xEnd <=? x0) = true ->
  (forall y0, DormandPrince pow_core (S fuel) f (x0, xEnd) y0
              = Some {| xs := [x0]; ys := [y0]; err := None |})
  /\ (forall (y0 : Mem.slice) (w : Mem.world),
        let out := Mem.DormandPrince pow_core (S fuel) f (x0, xEnd) y0 w in
        fst out = Some {| Mem.xs := [x0]; Mem.ys := [y0]; Mem.err := None |}
        /\ length (Mem.calls (snd out)) = (length (Mem.calls w) + 2)%nat).
Proof.
  intros L. apply F64.leb_nltb in L. split.
  - intros y0. unfold DormandPrince, rungeKuttaIntegrate. cbn [fst snd integrateLoop].
    now rewrite L.
  - intros y0 w out.
    destruct (spec_empty_interval pow_core Mem.dormandPrince (length (Mem.heap w))
                fuel f x0 xEnd y0 L w (le_n _)) as [(_ & _ & _ & C) R].
    split; [exact R|exact C].
Qed.

Lemma empty_interval_single_point_witness :
  (0 <=? 1) = true
  /\ (forall y0, DormandPrince powStandIn 1 scenarioB (1, 0) y0
                 = Some {| xs := [1]; ys := [y0]; err := None |})
  /\ (forall (y0 : Mem.slice) (w : Mem.world),
        let out := Mem.DormandPrince powStandIn 1 scenarioB (1, 0) y0 w in
        fst out = Some {| Mem.xs := [1]; Mem.ys := [y0]; Mem.err := None |}
        /\ length (Mem.calls (snd out)) = (length (Mem.calls w) + 2)%nat).
Proof.
  exact (conj eq_refl (empty_interval_single_point powStandIn 0 scenarioB 1 0 eq_refl)).
Defined.

(** * The stage evaluator *)

Module StageFacts.

Import GoFacts.

Section Generic.

Context {F : Type} (A : Arith F).
Variable f : F -> list F -> list F.
Variables (x : F) (y : list F) (h : F).

Lemma stage_length k i : length (DP.stage A f x y h k i) = length k.
Proof. apply length_upd. Qed.

Lemma stage_other k i j : i <> j -> nth j (DP.stage A f x y h k i) [] = nth j k [].
Proof. apply nth_upd_neq. Qed.

Lemma stages_length l : forall k,
  length (fold_left (DP.stage A f x y h) l k) = length k.
Proof.
  induction l as [|i l IH]; intros k; cbn; [reflexivity|].
  now rewrite IH, stage_length.
Qed.

Lemma stages_other l j : forall k,
  ~ In j l -> nth j (fold_left (DP.stage A f x y h) l k) [] = nth j k [].
Proof.
  induction l as [|i l IH]; intros k H; cbn; [reflexivity|].
  rewrite IH by (intros I; apply H; now right).
  apply stage_other. intros ->. apply H. now left.
Qed.

Lemma fold_left_ext_in {S T} (g g' : S -> T -> S) (l : list T) :
  (forall s t, In t l -> g s t = g' s t) ->
  forall s, fold_left g l s = fold_left g' l s.
Proof.
  induction l as [|t l IH]; intros H s; cbn; [reflexivity|].
  rewrite H by now left. apply IH. intros s' t' I. apply H. now right.
Qed.

(** [yItp] reads all of [k] but its last slice. *)
Lemma yItp_ext k k' i :
  length k = length k' ->
  (forall l, (l < length k - 1)%nat -> nth l k [] = nth l k' []) ->
  DP.yItp A k y h i = DP.yItp A k' y h i.
Proof.
  intros L H. unfold DP.yItp. rewrite <- L.
  apply map_ext. intros j. apply fold_left_ext_in.
  intros s l I. apply in_seq in I. rewrite H by lia. reflexivity.
Qed.

(** The last stage derivative is the derivative at the last stage point. *)
Lemma last_stage :
  nth 6 (DP.stages A f x y h) []
  = DP.fill A f (length y) (DP.xItp A x h 6) (DP.yItp A (DP.stages A f x y h) y h 6).
Proof.
  unfold DP.stages.
  change (seq 0 (length DP.c)) with (seq 0 6 ++ [6%nat]).
  rewrite fold_left_app.
  set (k0 := repeat (repeat (zero A) (length y)) (length DP.c)).
  set (k6 := fold_left (DP.stage A f x y h) (seq 0 6) k0).
  assert (L6 : length k6 = 7%nat) by (unfold k6; rewrite stages_length; reflexivity).
  assert (N6 : nth 6 k6 [] = repeat (zero A) (length y)).
  { unfold k6. rewrite stages_other; [reflexivity|].
    intros I. apply in_seq in I. lia. }
  cbn [fold_left].
  rewrite (yItp_ext (DP.stage A f x y h k6 6) k6 6).
  - unfold DP.stage at 1. rewrite nth_upd_eq by lia.
    rewrite N6, repeat_length. reflexivity.
  - apply stage_length.
  - intros l Hl. rewrite stage_length, L6 in Hl. apply stage_other. lia.
Qed.

Lemma stages_seven : length (DP.stages A f x y h) = 7%nat.
Proof. unfold DP.stages. rewrite stages_length. reflexivity. Qed.

End Generic.

(** In exact arithmetic the last stage point is the trial point. *)
Import QArith_base Qcanon.

Lemma exact_last_point (k : list (list Qc)) (y : list Qc) (h : Qc) :
  length k = 7%nat -> DP.yItp exactQ k y h 6 = DP.combine_b exactQ k y h.
Proof.
  intros L. unfold DP.yItp, DP.combine_b. rewrite L.
  apply map_ext. intros j.
  cbn -[Qcplus Qcmult Q2Qc nth].
  unfold DP.coef, DP.at_. cbn -[Qcplus Qcmult Q2Qc].
  change (Q2Qc (0 # 1)) with 0%Qc.
  ring.
Qed.

Lemma exact_last_abscissa (x h : Qc) : DP.xItp exactQ x h 6 = (x + h)%Qc.
Proof.
  unfold DP.xItp, DP.coef. cbn -[Qcplus Qcmult Q2Qc].
  change (Q2Qc (1 # 1)) with 1%Qc. ring.
Qed.

End StageFacts.

(** C8, as the code has it. In any arithmetic [k[6]] is the derivative at
    the last stage point [(x + c[6]*h, y + sum a[6][l]*k[l]*h)]; in the
    tableau [c[6] = 1], row [a[6]] is [b] without its last entry and
    [b[6] = 0]; so in exact arithmetic the last stage point is
    [(x + h, yPlusH)] and [k[6] = f(x + h, yPlusH)]. *)
Theorem fsal_in_exact_arithmetic :
  (forall (F : Type) (A : Arith F) f x y h,
      nth 6 (DP.stages A f x y h) []
      = DP.fill A f (length y) (DP.xItp A x h 6) (DP.yItp A (DP.stages A f x y h) y h 6))
  /\ nth 6 DP.c (0, 1)%Z = (1, 1)%Z
  /\ nth 6 DP.a [] = firstn 6 DP.b
  /\ nth 6 DP.b (1, 1)%Z = (0, 1)%Z
  /\ (forall f x y h,
        nth 6 (DP.stages exactQ f x y h) []
        = DP.fill exactQ f (length y) (Qcanon.Qcplus x h) (fst (DP.yPlusH exactQ f x y h))).
Proof.
  split; [intros; apply StageFacts.last_stage|].
  repeat (split; [reflexivity|]).
  intros f x y h. rewrite StageFacts.last_stage.
  rewrite StageFacts.exact_last_abscissa, StageFacts.exact_last_point
    by apply StageFacts.stages_seven.
  reflexivity.
Qed.

Lemma fsal_fails_in_float64 : ~ fsal_in_float64.
Proof.
  intros H. specialize (H growth 0 [1] 1.5).
  apply (f_equal (fun v => Go.idx v 0 =? 4.4807031250000007)) in H.
  vm_compute in H. discriminate.
Qed.

(** * The first step *)

Module FirstStep.

Lemma mul_comm x y : x * y = y * x.
Proof.
  apply Prim2SF_inj. rewrite !mul_spec. unfold SF64mul, SFmul.
  destruct (Prim2SF x) as [s|s| |s m e], (Prim2SF y) as [t|t| |t n f];
    try reflexivity; try (now rewrite xorb_comm).
  now rewrite xorb_comm, Pos.mul_comm, Z.add_comm.
Qed.

Lemma call_length f n x y : length (call f n x y) = n.
Proof.
  unfold call, Go.make. rewrite length_firstn, length_app, repeat_length. lia.
Qed.

Section Refine.

Variable pow_core : float -> float -> float.

Lemma firstScale_spec tol y0 :
  map (fun y => tol_abs tol + abs y * tol_rel tol) y0 = Spec.firstScale tol y0.
Proof.
  unfold Spec.firstScale. apply map_ext. intros y. now rewrite mul_comm.
Qed.

Lemma norm_spec (v scale : list float) :
  length v = length scale ->
  PrimFloat.sqrt (fold_left (fun acc i => acc + (Pow pow_core) (Go.idx v i / Go.idx scale i) 2)
                            (seq 0 (length scale)) 0 / Go.of_len scale)
  = Spec.rmsNorm (Pow pow_core) v scale.
Proof.
  intros L. unfold Spec.rmsNorm, Spec.sum, Go.idx.
  rewrite (fold_left_map_add (fun i => (Pow pow_core) (nth i v 0 / nth i scale 0) 2)).
  rewrite <- L.
  now rewrite (map_seq_combine (fun t s => (Pow pow_core) (t / s) 2) 0 0 v scale (eq_sym L)).
Qed.

Lemma nth_map_seq {A} (g : nat -> A) (d : A) (n i : nat) :
  (i < n)%nat -> nth i (map g (seq 0 n)) d = g i.
Proof.
  intros H.
  rewrite (@nth_indep A (map g (seq 0 n)) i d (g 0%nat))
    by (rewrite length_map, length_seq; exact H).
  rewrite map_nth, seq_nth by exact H. reflexivity.
Qed.

Lemma diff_spec (d1 d0 : list float) :
  length d1 = length d0 ->
  forall i, (i < length d0)%nat ->
  Go.idx d1 i - Go.idx d0 i
  = Go.idx (map (fun q => fst q - snd q) (combine d1 d0)) i.
Proof.
  intros L i Hi. unfold Go.idx.
  rewrite <- (map_seq_combine (fun a b => a - b) 0 0 d1 d0 (eq_sym L)).
  rewrite nth_map_seq by lia. reflexivity.
Qed.

Lemma getFirstStep_spec rk f x0 xEnd y0 tol :
  getFirstStep pow_core rk f (x0, xEnd) y0 tol
  = Go.min3 (100 * Spec.firstH0 (Pow pow_core) f x0 xEnd y0 tol)
            (Spec.firstH1 (Pow pow_core) (errorOrder rk) f x0 xEnd y0 tol)
            (xEnd - x0).
Proof.
  unfold getFirstStep, firstGuess, firstFinish, Spec.firstH0, Spec.firstH1,
    Spec.h1, Spec.h0Guess.
  cbn [fst snd].
  set (f0 := call f (length y0) x0 y0).
  assert (L0 : length f0 = length y0) by apply call_length.
  rewrite firstScale_spec.
  assert (Ls : length (Spec.firstScale tol y0) = length y0)
    by (unfold Spec.firstScale; now rewrite length_map).
  rewrite !norm_spec by congruence.
  set (h0 := Go.min _ (xEnd - x0)).
  replace (map (fun i => Go.idx y0 i + h0 * Go.idx f0 i) (seq 0 (length y0)))
    with (map (fun p => fst p + h0 * snd p) (combine y0 f0))
    by (symmetry; exact (map_seq_combine (fun a b => a + h0 * b) 0 0 y0 f0 L0)).
  set (f1 := call f (length y0) (x0 + h0) _).
  assert (L1 : length f1 = length y0) by apply call_length.
  replace (fold_left _ (seq 0 (length f0)) 0)
    with (fold_left (fun acc i =>
                       acc + (Pow pow_core) (Go.idx (map (fun q => fst q - snd q) (combine f1 f0)) i
                                / Go.idx (Spec.firstScale tol y0) i) 2)
                    (seq 0 (length (Spec.firstScale tol y0))) 0).
  - rewrite norm_spec; [reflexivity|].
    rewrite length_map, length_combine. lia.
  - rewrite Ls, L0. apply StageFacts.fold_left_ext_in.
    intros s i I. apply in_seq in I.
    rewrite <- diff_spec by lia. reflexivity.
Qed.

End Refine.

End FirstStep.

(** C7, as the code has it. [getFirstStep] returns
    [min(100*h0_guess, h1, xEnd - x0)] with [h0_guess] and [h1] as the
    specification words them, [min] being Go's, NaN as soon as an operand
    is.  So the result is NaN or at most the interval length, and it is
    strictly positive exactly when its three operands are. *)
Theorem first_step_is_min_of_three pow_core rk f x0 xEnd y0 tol :
  let h := getFirstStep pow_core rk f (x0, xEnd) y0 tol in
  let h0 := Spec.firstH0 (Pow pow_core) f x0 xEnd y0 tol in
  let h1 := Spec.firstH1 (Pow pow_core) (errorOrder rk) f x0 xEnd y0 tol in
  h = Go.min3 (100 * h0) h1 (xEnd - x0)
  /\ (is_nan h = false -> (h <=? xEnd - x0) = true)
  /\ (0 <? h) = (0 <? 100 * h0) && (0 <? h1) && (0 <? xEnd - x0).
Proof.
  intros h h0 h1.
  assert (E : h = Go.min3 (100 * h0) h1 (xEnd - x0))
    by apply FirstStep.getFirstStep_spec.
  split; [exact E|]. rewrite E. unfold Go.min3. split.
  - intros N. now apply MinMax.min_le in N.
  - now rewrite !MinMax.min_pos.
Qed.

Lemma first_step_unbounded : ~ first_step_bounds.
Proof.
  intros H.
  destruct (H noPow hugeDydx 0 1 [1]) as [P _];
    [reflexivity|discriminate|].
  vm_compute in P. discriminate.
Qed.

(** * Rounding to binary64, from SpecFloat *)

Module Round.

Local Open Scope Z_scope.

Definition fexp (d : Z) : Z := SpecFloat.fexp prec emax d.

Lemma fexp_eq d : fexp d = Z.max (d - 53) (-1074).
Proof. reflexivity. Qed.

(** Powers of two. *)
Definition p2 (k : Z) : Z := 2 ^ k.

Lemma p2_pos k : 0 <= k -> 0 < p2 k.
Proof. intros H. unfold p2. apply Z.pow_pos_nonneg; lia. Qed.

Lemma p2_add j k : 0 <= j -> 0 <= k -> p2 (j + k) = p2 j * p2 k.
Proof. intros. unfold p2. apply Z.pow_add_r; lia. Qed.

Lemma p2_le j k : 0 <= j <= k -> p2 j <= p2 k.
Proof. intros. unfold p2. apply Z.pow_le_mono_r; lia. Qed.

Lemma p2_lt j k : 0 <= j < k -> p2 j < p2 k.
Proof. intros. unfold p2. apply Z.pow_lt_mono_r; lia. Qed.

Lemma p2_S k : 0 <= k -> p2 (k + 1) = 2 * p2 k.
Proof. intros. rewrite p2_add by lia. change (p2 1) with 2. lia. Qed.

Lemma p2_0 : p2 0 = 1.
Proof. reflexivity. Qed.

(** [p2 (k - j)] is the quotient of [p2 k] by [p2 j]. *)
Lemma p2_split j k : 0 <= j <= k -> p2 k = p2 (k - j) * p2 j.
Proof. intros. rewrite <- p2_add by lia. f_equal. lia. Qed.

(** ** The number of digits *)

Lemma digits2_pos_size p : digits2_pos p = Pos.size p.
Proof. induction p; cbn; congruence. Qed.

Lemma digits_bounds (m : positive) :
  p2 (Zpos (digits2_pos m) - 1) <= Zpos m < p2 (Zpos (digits2_pos m)).
Proof.
  rewrite digits2_pos_size. unfold p2. split.
  - pose proof (Pos.size_le m) as H.
    assert (E : Zpos (2 ^ Pos.size m) = 2 ^ Zpos (Pos.size m))
      by (now rewrite Pos2Z.inj_pow).
    assert (2 ^ Zpos (Pos.size m) <= 2 * Zpos m) by (rewrite <- E; exact H).
    replace (Zpos (Pos.size m)) with ((Zpos (Pos.size m) - 1) + 1) in H0 by lia.
    rewrite Z.pow_add_r in H0 by lia. change (2 ^ 1) with 2 in H0. lia.
  - pose proof (Pos.size_gt m) as H.
    assert (E : Zpos (2 ^ Pos.size m) = 2 ^ Zpos (Pos.size m))
      by (now rewrite Pos2Z.inj_pow).
    rewrite <- E. exact H.
Qed.

(** The number of digits is determined by the two bounds. *)
Lemma digits_unique (m : positive) d :
  0 < d -> p2 (d - 1) <= Zpos m < p2 d -> Zpos (digits2_pos m) = d.
Proof.
  intros Hd [L U]. pose proof (digits_bounds m) as [L' U'].
  set (d' := Zpos (digits2_pos m)) in *.
  assert (0 < d') by (unfold d'; lia).
  destruct (Z.lt_trichotomy d' d) as [C|[C|C]]; [|exact C|].
  - assert (p2 d' <= p2 (d - 1)) by (apply p2_le; lia). lia.
  - assert (p2 d <= p2 (d' - 1)) by (apply p2_le; lia). lia.
Qed.

(** ** Shifting right *)

Definition b2z (b : bool) : Z := if b then 1 else 0.

(** After [k] shifts of [(M, false, false)]: the quotient, the bit just
    shifted out, and whether anything was shifted out before it. *)
Definition shifted (M k : Z) (mrs : shr_record) : Prop :=
  0 <= shr_m mrs
  /\ exists t, 2 * M = p2 k * (2 * shr_m mrs + b2z (shr_r mrs)) + t
               /\ 0 <= t < p2 k
               /\ (shr_s mrs = true <-> t <> 0).

Lemma shifted_0 M : 0 <= M -> shifted M 0 (Build_shr_record M false false).
Proof.
  intros H. split; [exact H|]. exists 0. cbn [shr_m shr_r shr_s b2z]. rewrite p2_0.
  repeat split; try lia; try discriminate.
Qed.

Lemma shifted_step M k m r s (m' : Z) (r' : bool) :
  0 <= k -> 0 <= m' -> m = 2 * m' + b2z r' ->
  shifted M k (Build_shr_record m r s) ->
  shifted M (k + 1) (Build_shr_record m' r' (r || s)).
Proof.
  intros Hk Hm' Em [Hm (t & E & Ht & Hs)]. cbn [shr_m shr_r shr_s] in *.
  assert (P := p2_pos k Hk).
  split; [exact Hm'|]. exists (p2 k * b2z r + t).
  rewrite p2_S by lia. cbn [shr_m shr_r shr_s]. repeat split.
  - subst m. rewrite E. ring.
  - destruct r; cbn [b2z]; lia.
  - destruct r; cbn [b2z]; lia.
  - destruct r; cbn [orb b2z]; [lia|]. intros S. apply Hs in S. lia.
  - destruct r; cbn [orb b2z]; [reflexivity|]. intros T. apply Hs. lia.
Qed.

Lemma shifted_1 M k mrs : 0 <= k -> shifted M k mrs -> shifted M (k + 1) (shr_1 mrs).
Proof.
  intros Hk H. destruct mrs as [m r s].
  assert (Hm : 0 <= m) by (destruct H as [Hm _]; exact Hm).
  destruct m as [|[p|p|]|p]; try lia; cbn [shr_1].
  - apply (shifted_step M k 0 r s 0 false); auto; cbn [b2z]; lia.
  - apply (shifted_step M k (Zpos p~1) r s (Zpos p) true); auto; cbn [b2z]; lia.
  - apply (shifted_step M k (Zpos p~0) r s (Zpos p) false); auto; cbn [b2z]; lia.
  - apply (shifted_step M k 1 r s 0 true); auto; cbn [b2z]; lia.
Qed.

Lemma shifted_iter M (p : positive) : forall k mrs,
  0 <= k -> shifted M k mrs -> shifted M (k + Zpos p) (iter_pos shr_1 p mrs).
Proof.
  induction p as [p IH|p IH|]; intros k mrs Hk H; cbn [iter_pos].
  - replace (k + Zpos p~1) with (((k + 1) + Zpos p) + Zpos p) by lia.
    apply IH; [lia|]. apply IH; [lia|]. now apply shifted_1.
  - replace (k + Zpos p~0) with ((k + Zpos p) + Zpos p) by lia.
    apply IH; [lia|]. now apply IH.
  - now apply shifted_1.
Qed.


Lemma shr_fexp_spec (M : positive) e :
  e <= fexp (Zpos (digits2_pos M) + e) ->
  shifted (Zpos M) (fexp (Zpos (digits2_pos M) + e) - e)
          (fst (shr_fexp prec emax (Zpos M) e loc_Exact))
  /\ snd (shr_fexp prec emax (Zpos M) e loc_Exact) = fexp (Zpos (digits2_pos M) + e).
Proof.
  intros H. unfold shr_fexp, shr. cbn [Zdigits2 shr_record_of_loc].
  fold (fexp (Zpos (digits2_pos M) + e)).
  set (n := fexp (Zpos (digits2_pos M) + e) - e).
  assert (Hn : 0 <= n) by (unfold n; lia).
  destruct n as [|p|p] eqn:E; try lia; cbn [fst snd].
  - split; [apply shifted_0|]; lia.
  - split; [|lia]. change (Zpos p) with (0 + Zpos p). apply shifted_iter; [lia|].
    apply shifted_0. lia.
Qed.

(** No shift is needed when the exponent is already at least the
    canonical one. *)
Lemma shr_fexp_none (m e : Z) :
  fexp (Zdigits2 m + e) <= e ->
  shr_fexp prec emax m e loc_Exact = (Build_shr_record m false false, e).
Proof.
  intros H. unfold shr_fexp, shr. cbn [shr_record_of_loc].
  fold (fexp (Zdigits2 m + e)).
  destruct (fexp (Zdigits2 m + e) - e) eqn:E; try reflexivity. lia.
Qed.

(** ** Rounding to nearest *)

Lemma round_nearest M n mrs :
  0 <= n -> shifted M n mrs ->
  let m := shr_m mrs in
  let m2 := round_nearest_even m (loc_of_shr_record mrs) in
  0 <= m
  /\ m <= m2 <= m + 1
  /\ p2 n * m <= M < p2 n * (m + 1)
  /\ 2 * Z.abs (M - p2 n * m2) <= p2 n
  /\ (2 * M < p2 n -> m2 = 0).
Proof.
  intros Hn [Hm (t & E & Ht & Hs)]. destruct mrs as [m r s].
  cbn [shr_m shr_r shr_s] in *. cbn zeta.
  assert (P := p2_pos n Hn).
  assert (T : s = false -> t = 0).
  { intros ->. destruct (Z.eq_dec t 0); [assumption|]. apply Hs in n0. discriminate. }
  assert (T' : s = true -> t <> 0) by (intros ->; now apply Hs).
  split; [exact Hm|].
  destruct r, s; cbn [loc_of_shr_record round_nearest_even b2z] in *;
    try (specialize (T eq_refl)); try (specialize (T' eq_refl));
    try (destruct (Z.even m)); nia.
Qed.


(** ** binary_round_aux

    Values are counted in units of [2^(-bias)], small enough for every
    exponent that occurs. *)
Definition bias : Z := 2300.

(** [r] is a multiple of the unit in the last place of the binade [D] of
    [V], and no farther from [V] than half that unit. *)
Definition near (D V r : Z) : Prop :=
  exists k, 0 <= k /\ r = k * p2 (fexp D + bias)
            /\ 2 * Z.abs (V - r) <= p2 (fexp D + bias).

(** The float [R] has sign [s] and magnitude [r]. *)
Definition result (s : bool) (r : Z) (R : spec_float) : Prop :=
  match R with
  | S754_zero s' => s' = s /\ r = 0
  | S754_finite s' m e =>
    s' = s /\ r = Zpos m * p2 (e + bias) /\ bounded prec emax m e = true
  | S754_infinity s' => s' = s /\ p2 (emax + bias) <= r
  | S754_nan => False
  end.

Lemma fexp_ge d : -1074 <= fexp d.
Proof. rewrite fexp_eq. lia. Qed.

Lemma fexp_mono d d' : d <= d' -> fexp d <= fexp d'.
Proof. rewrite !fexp_eq. lia. Qed.

Lemma finish_spec s (q : positive) e1 :
  -1074 <= e1 ->
  fexp (Zpos (digits2_pos q) + e1) = e1 ->
  (971 < e1 -> p2 (emax + bias) <= Zpos q * p2 (e1 + bias)) ->
  result s (Zpos q * p2 (e1 + bias))
         (match shr_m (Build_shr_record (Zpos q) false false) with
          | 0 => S754_zero s
          | Zpos m => if e1 <=? emax - prec then S754_finite s m e1 else S754_infinity s
          | Zneg _ => S754_nan
          end).
Proof.
  intros He C O. cbn [shr_m]. change (emax - prec) with 971.
  destruct (e1 <=? 971) eqn:L; cbn [result].
  - repeat split. unfold bounded, canonical_mantissa.
    fold (fexp (Zpos (digits2_pos q) + e1)). rewrite C, Z.eqb_refl.
    change (emax - prec) with 971. now rewrite L.
  - apply Z.leb_gt in L. split; [reflexivity|]. now apply O.
Qed.

Lemma round_aux_spec s (M : positive) e :
  - bias <= e -> e <= fexp (Zpos (digits2_pos M) + e) ->
  exists r, near (Zpos (digits2_pos M) + e) (Zpos M * p2 (e + bias)) r
            /\ result s r (binary_round_aux prec emax s (Zpos M) e loc_Exact).
Proof.
  intros Hb He. unfold binary_round_aux.
  destruct (shr_fexp_spec M e He) as [Sh E1].
  destruct (shr_fexp prec emax (Zpos M) e loc_Exact) as [mrs e']. cbn [fst snd] in *.
  subst e'.
  set (dM := Zpos (digits2_pos M)) in *.
  set (D := dM + e) in *. set (e1 := fexp D) in *.
  set (n := e1 - e) in *.
  assert (Hn : 0 <= n) by (unfold n; lia).
  destruct (round_nearest (Zpos M) n mrs Hn Sh) as (Hm & Hm2 & Hq & Hnear & Hz).
  set (m := shr_m mrs) in *.
  set (m2 := round_nearest_even m (loc_of_shr_record mrs)) in *.
  assert (He1 : -1074 <= e1) by apply fexp_ge.
  assert (Pn := p2_pos n Hn).
  assert (Pe : 0 < p2 (e + bias)) by (apply p2_pos; lia).
  assert (Eu : p2 (e1 + bias) = p2 n * p2 (e + bias)).
  { rewrite <- p2_add by lia. f_equal. unfold n. lia. }
  exists (m2 * p2 (e1 + bias)). split.
  - exists m2. fold e1. split; [lia|]. split; [reflexivity|].
    rewrite !Eu.
    replace (Zpos M * p2 (e + bias) - m2 * (p2 n * p2 (e + bias)))
      with ((Zpos M - p2 n * m2) * p2 (e + bias)) by ring.
    rewrite Z.abs_mul, (Z.abs_eq (p2 (e + bias))) by lia.
    rewrite Z.mul_assoc. apply Z.mul_le_mono_nonneg_r; lia.
  - pose proof (digits_bounds M) as [DL DU]. fold dM in DL, DU.
    set (d := dM - n).
    assert (Dd : D = d + e1) by (unfold d, D, n; lia).
    destruct m2 as [|q|q] eqn:Em2; [| |lia].
    + rewrite shr_fexp_none.
      * cbn. auto.
      * cbn [Zdigits2]. rewrite fexp_eq. lia.
    + set (d2 := Zpos (digits2_pos q)).
      pose proof (digits_bounds q) as [QL QU]. fold d2 in QL, QU.
      assert (Hd2 : 0 < d2) by (unfold d2; lia).
      (* the quotient has [d] digits *)
      assert (Hmd : 1 <= d -> p2 (d - 1) <= m < p2 d).
      { intros Hd.
        assert (S1 : p2 dM = p2 d * p2 n)
          by (rewrite <- p2_add by lia; f_equal; unfold d; lia).
        assert (S2 : p2 (dM - 1) = p2 (d - 1) * p2 n)
          by (rewrite <- p2_add by lia; f_equal; unfold d; lia).
        assert (0 < p2 (d - 1)) by (apply p2_pos; lia).
        split; nia. }
      assert (Hd0 : 0 <= d).
      { destruct (Z_lt_le_dec d 0) as [C|C]; [|exact C]. exfalso.
        assert (p2 dM <= p2 (n - 1)) by (apply p2_le; unfold d in C; lia).
        assert (p2 n = 2 * p2 (n - 1))
          by (rewrite <- p2_S by (unfold d in C; lia); f_equal; lia).
        assert (Zpos q = 0) by (apply Hz; lia). lia. }
      destruct (Z.eq_dec (Zpos q) (p2 d)) as [Top|NTop].
      * (* the mantissa overflowed to a power of two *)
        assert (Ed2 : d2 = d + 1).
        { apply digits_unique; [lia|]. replace (d + 1 - 1) with d by lia.
          rewrite Top. split; [lia|]. apply p2_lt. lia. }
        destruct (Z_le_gt_dec (D - 53) (-1075)) as [Sub|Nor].
        -- (* still subnormal: no second shift *)
           rewrite shr_fexp_none by
               (cbn [Zdigits2]; fold d2; rewrite Ed2, fexp_eq; unfold e1 in *;
                rewrite fexp_eq in *; lia).
           apply finish_spec; [exact He1| |].
           ++ fold d2. rewrite Ed2, fexp_eq. unfold e1 in *. rewrite fexp_eq in *. lia.
           ++ intros O. unfold e1 in O. rewrite fexp_eq in O. lia.
        -- (* one more shift *)
           assert (Hd : 1 <= d).
           { unfold e1 in Dd. rewrite fexp_eq in Dd. lia. }
           assert (Ee1 : e1 = D - 53) by (unfold e1; rewrite fexp_eq; lia).
           assert (Ed : d = 53) by lia.
           assert (P2d : p2 d = 2 * p2 (d - 1))
             by (rewrite <- p2_S by lia; f_equal; lia).
           unfold shr_fexp, shr. cbn [Zdigits2 shr_record_of_loc].
           fold d2. fold (fexp (d2 + e1)).
           replace (fexp (d2 + e1) - e1) with 1
             by (rewrite Ed2, fexp_eq; lia).
           cbn [iter_pos].
           destruct q as [q'|q'|]; [lia| |lia].
           cbn [shr_1 shr_m].
           assert (Eq' : Zpos q' = p2 (d - 1)) by lia.
           change (emax - prec) with 971.
           assert (Val : Zpos q'~0 * p2 (e1 + bias) = Zpos q' * p2 (e1 + 1 + bias)).
           { replace (e1 + 1 + bias) with ((e1 + bias) + 1) by lia.
             rewrite p2_S by lia. lia. }
           destruct (e1 + 1 <=? 971) eqn:L; cbn [result].
           ++ split; [reflexivity|]. split; [exact Val|].
              unfold bounded, canonical_mantissa.
              assert (Zpos (digits2_pos q') = d).
              { apply digits_unique; [lia|]. rewrite Eq'. split; [lia|].
                apply p2_lt. lia. }
              rewrite H. fold (fexp (d + (e1 + 1))).
              replace (fexp (d + (e1 + 1))) with (e1 + 1) by (rewrite fexp_eq; lia).
              rewrite Z.eqb_refl. change (emax - prec) with 971. now rewrite L.
           ++ apply Z.leb_gt in L. split; [reflexivity|].
              rewrite Top. rewrite <- p2_add by lia.
              apply p2_le. unfold emax, bias. lia.
      * (* the mantissa fits *)
        assert (Cq : fexp (d2 + e1) = e1).
        { destruct (Z.eq_dec d 0) as [Z0|NZ].
          - assert (m = 0).
            { assert (p2 dM <= p2 n) by (apply p2_le; unfold d in Z0; lia). nia. }
            assert (Zpos q = 1) by lia.
            assert (d2 = 1) by (apply digits_unique; [lia|]; rewrite H0; cbn; lia).
            rewrite H1. unfold e1 in *. rewrite fexp_eq in *. lia.
          - assert (Hd : 1 <= d) by lia. specialize (Hmd Hd).
            assert (Zpos q < p2 d) by lia.
            assert (d2 = d) by (apply digits_unique; [lia|]; lia).
            rewrite H0, <- Dd. reflexivity. }
        rewrite shr_fexp_none by (cbn [Zdigits2]; fold d2; lia).
        apply finish_spec; [exact He1|exact Cq|].
        intros O.
        assert (Ee1 : e1 = D - 53) by (unfold e1 in *; rewrite fexp_eq in *; lia).
        assert (Hd : 1 <= d) by lia. specialize (Hmd Hd).
        assert (p2 (emax + bias) <= p2 (d - 1) * p2 (e1 + bias)).
        { rewrite <- p2_add by lia. apply p2_le. unfold emax, bias. lia. }
        assert (0 < p2 (e1 + bias)) by (apply p2_pos; unfold bias; lia).
        nia.
Qed.


(** ** What rounding to nearest preserves

    [G] is the magnitude of a float: at most 53 digits at an exponent that
    is not below the least one. *)
Definition repr (G : Z) : Prop :=
  exists mg eg, G = mg * p2 (eg + bias) /\ 0 <= mg < p2 53 /\ -1074 <= eg.

(** [D] is the binade of [V]. *)
Definition binade (D V : Z) : Prop :=
  0 <= D - 1 + bias /\ p2 (D - 1 + bias) <= V < p2 (D + bias).

Lemma multiple_le (u k g V : Z) :
  0 < u -> 2 * Z.abs (V - k * u) <= u -> g * u <= V -> g * u <= k * u.
Proof.
  intros Hu N L. destruct (Z_le_gt_dec g k) as [C|C]; [nia|].
  assert (k * u + u <= g * u) by nia. lia.
Qed.

Lemma multiple_ge (u k g V : Z) :
  0 < u -> 2 * Z.abs (V - k * u) <= u -> V <= g * u -> k * u <= g * u.
Proof.
  intros Hu N L. destruct (Z_le_gt_dec k g) as [C|C]; [nia|].
  assert (g * u + u <= k * u) by nia. lia.
Qed.

(** A float magnitude that is not below the binade of [V] is a multiple of
    its unit. *)
Lemma repr_multiple D V G :
  binade D V -> repr G -> p2 (D - 1 + bias) <= G ->
  exists g, G = g * p2 (fexp D + bias).
Proof.
  intros (HD & BL & BU) (mg & eg & -> & Hmg & Heg) HG.
  assert (Pg : 0 < p2 (eg + bias)) by (apply p2_pos; unfold bias; lia).
  assert (E : fexp D <= eg).
  { rewrite fexp_eq. destruct (Z_le_gt_dec (D - 53) eg) as [C|C]; [lia|]. exfalso.
    assert (p2 53 * p2 (eg + bias) <= p2 (D - 1 + bias)).
    { rewrite <- p2_add by (unfold bias; lia). apply p2_le. unfold bias. lia. }
    nia. }
  exists (mg * p2 (eg - fexp D)).
  rewrite <- Z.mul_assoc, <- p2_add by (pose proof (fexp_ge D); unfold bias; lia).
  do 2 f_equal. lia.
Qed.

Lemma near_ge D V r G :
  binade D V -> near D V r -> repr G -> V <= G -> r <= G.
Proof.
  intros HB (k & Hk & -> & N) HG L.
  destruct (repr_multiple D V G HB HG) as [g ->]; [destruct HB as (_ & ? & _); lia|].
  apply (multiple_ge _ _ _ V); auto.
  apply p2_pos. pose proof (fexp_ge D). unfold bias. lia.
Qed.

Lemma near_le D V r G :
  binade D V -> near D V r -> repr G -> G <= V -> G <= r.
Proof.
  intros HB (k & Hk & -> & N) HG L.
  assert (Pu : 0 < p2 (fexp D + bias))
    by (apply p2_pos; pose proof (fexp_ge D); unfold bias; lia).
  destruct (Z_le_gt_dec (p2 (D - 1 + bias)) G) as [C|C].
  - destruct (repr_multiple D V G HB HG C) as [g ->].
    now apply (multiple_le _ _ _ V).
  - (* [G] lies below the binade, whose lower end is a multiple of the unit *)
    destruct HB as (HD & BL & BU).
    destruct (Z_le_gt_dec (D - 1) (fexp D)) as [S|S].
    + (* the binade is the lowest: every float magnitude is a multiple *)
      destruct HG as (mg & eg & -> & Hmg & Heg).
      assert (E : fexp D <= eg) by (rewrite fexp_eq in *; lia).
      assert (M : mg * p2 (eg + bias) = (mg * p2 (eg - fexp D)) * p2 (fexp D + bias)).
      { rewrite <- Z.mul_assoc, <- p2_add by (pose proof (fexp_ge D); unfold bias; lia).
        do 2 f_equal. lia. }
      rewrite M in *. now apply (multiple_le _ _ _ V).
    + assert (M : p2 (D - 1 + bias) = p2 (D - 1 - fexp D) * p2 (fexp D + bias)).
      { rewrite <- p2_add by (pose proof (fexp_ge D); unfold bias; lia). f_equal. lia. }
      assert (p2 (D - 1 - fexp D) * p2 (fexp D + bias) <= k * p2 (fexp D + bias))
        by (apply (multiple_le _ _ _ V); auto; lia).
      lia.
Qed.

(** ** Signed values *)

Definition val (x : spec_float) : Z :=
  match x with
  | S754_finite s m e => cond_Zopp s (Zpos m * p2 (e + bias))
  | _ => 0
  end.

Definition fin (x : spec_float) : Prop :=
  match x with
  | S754_zero _ | S754_finite _ _ _ => True
  | _ => False
  end.

(** [R] is [V] rounded to nearest. *)
Definition Rnd (V : Z) (R : spec_float) : Prop :=
  (V = 0 -> exists s, R = S754_zero s)
  /\ (0 < V -> exists D r, binade D V /\ near D V r /\ result false r R)
  /\ (V < 0 -> exists D r, binade D (- V) /\ near D (- V) r /\ result true r R).

(** A signed float value, within the range of the format. *)
Definition srepr (G : Z) : Prop := repr (Z.abs G) /\ Z.abs G < p2 (emax + bias).

Lemma p2_nonneg k : 0 <= p2 k.
Proof. unfold p2. apply Z.pow_nonneg. lia. Qed.

Lemma bounded_spec m e :
  bounded prec emax m e = true ->
  -1074 <= e <= 971 /\ Zpos m < p2 53 /\ fexp (Zpos (digits2_pos m) + e) = e.
Proof.
  unfold bounded, canonical_mantissa. intros H. apply andb_prop in H.
  destruct H as [C L]. apply Z.eqb_eq in C. apply Z.leb_le in L.
  fold (fexp (Zpos (digits2_pos m) + e)) in C. change (emax - prec) with 971 in L.
  pose proof (fexp_ge (Zpos (digits2_pos m) + e)).
  split; [lia|]. split; [|exact C].
  pose proof (digits_bounds m) as [_ U].
  assert (Zpos (digits2_pos m) <= 53) by (rewrite fexp_eq in C; lia).
  assert (p2 (Zpos (digits2_pos m)) <= p2 53) by (apply p2_le; lia). lia.
Qed.

Lemma Rnd_le V R G :
  Rnd V R -> srepr G -> G <= V ->
  R = S754_infinity false \/ (fin R /\ G <= val R).
Proof.
  intros (H0 & HP & HN) [HG HR] L.
  destruct (Z.lt_trichotomy V 0) as [C|[C|C]].
  - destruct (HN C) as (D & r & HB & Hn & Hr).
    assert (r <= - G).
    { apply (near_ge D (- V)); auto; [|lia].
      replace (- G) with (Z.abs G) by lia. exact HG. }
    destruct R as [s|s| |s m e]; cbn [result] in Hr; try tauto.
    + right. cbn [val fin]. split; [exact I|lia].
    + lia.
    + right. destruct Hr as (-> & -> & _). cbn [val fin cond_Zopp]. split; [exact I|lia].
  - destruct (H0 C) as [s ->]. right. cbn [val fin]. split; [exact I|lia].
  - destruct (HP C) as (D & r & HB & Hn & Hr).
    assert (G <= r).
    { destruct (Z_le_gt_dec G 0) as [Z|Z].
      - destruct Hn as (k & Hk & -> & _). pose proof (p2_nonneg (fexp D + bias)). nia.
      - apply (near_le D V); auto. replace G with (Z.abs G) by lia. exact HG. }
    destruct R as [s|s| |s m e]; cbn [result] in Hr; try tauto.
    + right. cbn [val fin]. split; [exact I|lia].
    + destruct Hr as [-> _]. now left.
    + right. destruct Hr as (-> & -> & _). cbn [val fin cond_Zopp]. split; [exact I|lia].
Qed.

Lemma Rnd_ge V R G :
  Rnd V R -> srepr G -> V <= G ->
  R = S754_infinity true \/ (fin R /\ val R <= G).
Proof.
  intros (H0 & HP & HN) [HG HR] L.
  destruct (Z.lt_trichotomy V 0) as [C|[C|C]].
  - destruct (HN C) as (D & r & HB & Hn & Hr).
    assert (- G <= r).
    { destruct (Z_le_gt_dec 0 G) as [Z|Z].
      - destruct Hn as (k & Hk & -> & _). pose proof (p2_nonneg (fexp D + bias)). nia.
      - apply (near_le D (- V)); auto; [|lia].
        replace (- G) with (Z.abs G) by lia. exact HG. }
    destruct R as [s|s| |s m e]; cbn [result] in Hr; try tauto.
    + right. cbn [val fin]. split; [exact I|lia].
    + destruct Hr as [-> _]. now left.
    + right. destruct Hr as (-> & -> & _). cbn [val fin cond_Zopp]. split; [exact I|lia].
  - destruct (H0 C) as [s ->]. right. cbn [val fin]. split; [exact I|lia].
  - destruct (HP C) as (D & r & HB & Hn & Hr).
    assert (r <= G).
    { apply (near_ge D V); auto. replace G with (Z.abs G) by lia. exact HG. }
    destruct R as [s|s| |s m e]; cbn [result] in Hr; try tauto.
    + right. cbn [val fin]. split; [exact I|lia].
    + lia.
    + right. destruct Hr as (-> & -> & _). cbn [val fin cond_Zopp]. split; [exact I|lia].
Qed.


(** ** binary_round and binary_normalize *)

Lemma iter_xO_val (m d : positive) : Zpos (Pos.iter xO m d) = Zpos m * p2 (Zpos d).
Proof.
  induction d as [|d IH] using Pos.peano_ind.
  - cbn. change (p2 1) with 2. lia.
  - rewrite Pos.iter_succ, Pos2Z.inj_succ. unfold Z.succ. rewrite p2_S by lia.
    rewrite Pos2Z.inj_xO, IH. ring.
Qed.

Lemma iter_xO_digits (m d : positive) :
  Zpos (digits2_pos (Pos.iter xO m d)) = Zpos (digits2_pos m) + Zpos d.
Proof.
  induction d as [|d IH] using Pos.peano_ind.
  - cbn [Pos.iter digits2_pos]. lia.
  - rewrite Pos.iter_succ. cbn [digits2_pos]. rewrite Pos2Z.inj_succ, IH. lia.
Qed.

Lemma shl_align_spec (m : positive) e e' :
  let r := shl_align m e e' in
  snd r = Z.min e e'
  /\ Zpos (fst r) = Zpos m * p2 (e - snd r)
  /\ Zpos (digits2_pos (fst r)) + snd r = Zpos (digits2_pos m) + e.
Proof.
  unfold shl_align. destruct (e' - e) as [|d|d] eqn:E; cbn [fst snd].
  - replace (e - e) with 0 by lia. rewrite p2_0. lia.
  - replace (e - e) with 0 by lia. rewrite p2_0. lia.
  - rewrite iter_xO_val, iter_xO_digits. replace (e - e') with (Zpos d) by lia. lia.
Qed.

Lemma binade_digits (M : positive) e :
  - bias <= e ->
  binade (Zpos (digits2_pos M) + e) (Zpos M * p2 (e + bias)).
Proof.
  intros H. pose proof (digits_bounds M) as [L U].
  assert (0 < p2 (e + bias)) by (apply p2_pos; lia).
  split; [lia|].
  replace (Zpos (digits2_pos M) + e - 1 + bias)
    with ((Zpos (digits2_pos M) - 1) + (e + bias)) by lia.
  replace (Zpos (digits2_pos M) + e + bias)
    with (Zpos (digits2_pos M) + (e + bias)) by lia.
  rewrite (p2_add (Zpos (digits2_pos M) - 1) (e + bias)),
    (p2_add (Zpos (digits2_pos M)) (e + bias)) by lia.
  nia.
Qed.

Lemma binary_round_spec s (M : positive) e :
  - bias <= e ->
  exists r, near (Zpos (digits2_pos M) + e) (Zpos M * p2 (e + bias)) r
            /\ result s r (binary_round prec emax s M e).
Proof.
  intros H. unfold binary_round.
  fold (fexp (Zpos (digits2_pos M) + e)).
  destruct (shl_align_spec M e (fexp (Zpos (digits2_pos M) + e))) as (E1 & E2 & E3).
  destruct (shl_align M e (fexp (Zpos (digits2_pos M) + e))) as [mz ez].
  cbn [fst snd] in *.
  pose proof (fexp_ge (Zpos (digits2_pos M) + e)).
  destruct (round_aux_spec s mz ez) as (r & N & R).
  - unfold bias in *. lia.
  - rewrite E3. lia.
  - exists r. split; [|exact R].
    rewrite E3 in N. rewrite E2 in N.
    replace (Zpos M * p2 (e - ez) * p2 (ez + bias)) with (Zpos M * p2 (e + bias)) in N;
      [exact N|].
    rewrite <- Z.mul_assoc, <- p2_add by (unfold bias in *; lia). do 2 f_equal. lia.
Qed.

Lemma binary_normalize_spec (S e : Z) :
  - bias <= e ->
  Rnd (S * p2 (e + bias)) (binary_normalize prec emax S e false).
Proof.
  intros H. assert (P : 0 < p2 (e + bias)) by (apply p2_pos; lia).
  destruct S as [|M|M]; cbn [binary_normalize].
  - split; [intros _; now exists false|split; lia].
  - split; [lia|]. split; [|lia]. intros _.
    destruct (binary_round_spec false M e H) as (r & N & R).
    exists (Zpos (digits2_pos M) + e), r. split; [now apply binade_digits|auto].
  - split; [lia|]. split; [lia|]. intros _.
    destruct (binary_round_spec true M e H) as (r & N & R).
    exists (Zpos (digits2_pos M) + e), r.
    replace (- (Zneg M * p2 (e + bias))) with (Zpos M * p2 (e + bias)) by lia.
    split; [now apply binade_digits|auto].
Qed.

(** ** The operations *)

Definition valid (x : spec_float) : Prop := valid_binary x = true.

(** A float is its own rounding. *)
Lemma Rnd_self x : fin x -> valid x -> Rnd (val x) x.
Proof.
  intros F V. destruct x as [s|s| |s m e]; cbn [fin] in F; try tauto.
  - cbn [val]. split; [intros _; now exists s|split; lia].
  - unfold valid in V. cbn [valid_binary] in V.
    destruct (bounded_spec m e V) as (He & Hm & C).
    assert (P : 0 < p2 (e + bias)) by (apply p2_pos; unfold bias; lia).
    assert (N : near (Zpos (digits2_pos m) + e) (Zpos m * p2 (e + bias))
                     (Zpos m * p2 (e + bias))).
    { exists (Zpos m). rewrite C. split; [lia|]. split; [reflexivity|].
      rewrite Z.sub_diag. cbn. lia. }
    assert (B : binade (Zpos (digits2_pos m) + e) (Zpos m * p2 (e + bias)))
      by (apply binade_digits; unfold bias; lia).
    destruct s; cbn [val cond_Zopp].
    + split; [lia|]. split; [lia|]. intros _.
      exists (Zpos (digits2_pos m) + e), (Zpos m * p2 (e + bias)).
      rewrite Z.opp_involutive. cbn [result]. auto.
    + split; [lia|]. split; [|lia]. intros _.
      exists (Zpos (digits2_pos m) + e), (Zpos m * p2 (e + bias)).
      cbn [result]. auto.
Qed.

Lemma aligned_val s (m : positive) e ez :
  - bias <= ez -> ez <= e ->
  cond_Zopp s (Zpos (fst (shl_align m e ez))) * p2 (ez + bias)
  = val (S754_finite s m e).
Proof.
  intros H L. destruct (shl_align_spec m e ez) as (E1 & E2 & _).
  rewrite E2, E1. replace (Z.min e ez) with ez by lia. cbn [val].
  assert (p2 (e + bias) = p2 (e - ez) * p2 (ez + bias)).
  { rewrite <- p2_add by lia. f_equal. lia. }
  rewrite H0. destruct s; cbn [cond_Zopp]; ring.
Qed.

Lemma valid_exp s m e : valid (S754_finite s m e) -> -1074 <= e <= 971.
Proof. intros V. now destruct (bounded_spec m e V). Qed.

Lemma add_spec_SF x y :
  fin x -> fin y -> valid x -> valid y ->
  Rnd (val x + val y) (SFadd prec emax x y).
Proof.
  intros Fx Fy Vx Vy.
  destruct x as [s|s| |s m e], y as [t|t| |t n f]; cbn [fin] in *; try tauto.
  - cbn [val SFadd]. split; [intros _|split; lia].
    destruct s, t; eauto.
  - cbn [SFadd]. change (val (S754_zero s)) with 0. rewrite Z.add_0_l.
    now apply Rnd_self.
  - cbn [SFadd]. change (val (S754_zero t)) with 0. rewrite Z.add_0_r.
    now apply Rnd_self.
  - cbn [SFadd]. pose proof (valid_exp _ _ _ Vx). pose proof (valid_exp _ _ _ Vy).
    rewrite <- (aligned_val s m e (Z.min e f)), <- (aligned_val t n f (Z.min e f))
      by (unfold bias; lia).
    rewrite <- Z.mul_add_distr_r.
    apply binary_normalize_spec. unfold bias. lia.
Qed.

Lemma sub_spec_SF x y :
  fin x -> fin y -> valid x -> valid y ->
  Rnd (val x - val y) (SFsub prec emax x y).
Proof.
  intros Fx Fy Vx Vy.
  destruct x as [s|s| |s m e], y as [t|t| |t n f]; cbn [fin] in *; try tauto.
  - cbn [val SFsub]. split; [intros _|split; lia].
    destruct s, t; eauto.
  - cbn [SFsub]. change (val (S754_zero s)) with 0. rewrite Z.sub_0_l.
    replace (- val (S754_finite t n f)) with (val (S754_finite (negb t) n f))
      by (destruct t; cbn [val cond_Zopp negb]; lia).
    apply Rnd_self; [exact I|exact Vy].
  - cbn [SFsub]. change (val (S754_zero t)) with 0. rewrite Z.sub_0_r.
    now apply Rnd_self.
  - cbn [SFsub]. pose proof (valid_exp _ _ _ Vx). pose proof (valid_exp _ _ _ Vy).
    rewrite <- (aligned_val s m e (Z.min e f)), <- (aligned_val t n f (Z.min e f))
      by (unfold bias; lia).
    rewrite <- Z.mul_sub_distr_r.
    apply binary_normalize_spec. unfold bias. lia.
Qed.


Lemma digits_mul (m n : positive) :
  Zpos (digits2_pos m) + Zpos (digits2_pos n) - 1 <= Zpos (digits2_pos (m * n)).
Proof.
  pose proof (digits_bounds m) as [Lm _]. pose proof (digits_bounds n) as [Ln _].
  pose proof (digits_bounds (m * n)) as [_ U].
  set (a := Zpos (digits2_pos m)) in *. set (b := Zpos (digits2_pos n)) in *.
  set (c := Zpos (digits2_pos (m * n))) in *.
  assert (0 < a) by (unfold a; lia). assert (0 < b) by (unfold b; lia).
  assert (0 < c) by (unfold c; lia).
  destruct (Z_le_gt_dec (a + b - 1) c) as [C|C]; [exact C|exfalso].
  assert (p2 c <= p2 (a - 1 + (b - 1))) by (apply p2_le; lia).
  rewrite p2_add in H2 by lia.
  assert (0 < p2 (a - 1)) by (apply p2_pos; lia).
  assert (0 < p2 (b - 1)) by (apply p2_pos; lia).
  rewrite Pos2Z.inj_mul in U. nia.
Qed.

Lemma mul_spec_SF x y :
  fin x -> fin y -> valid x -> valid y ->
  exists V, V * p2 bias = val x * val y /\ Rnd V (SFmul prec emax x y).
Proof.
  intros Fx Fy Vx Vy.
  destruct x as [s|s| |s m e], y as [t|t| |t n f]; cbn [fin] in *; try tauto;
    try (exists 0; cbn [val SFmul]; split; [lia|];
         split; [intros _; eauto|split; lia]).
  cbn [SFmul].
  destruct (bounded_spec m e Vx) as (He & Hm & Cm).
  destruct (bounded_spec n f Vy) as (Hf & Hn & Cn).
  pose proof (digits_mul m n) as Dmn.
  assert (Pb : 0 < p2 bias) by (apply p2_pos; unfold bias; lia).
  assert (E : Zpos (m * n) * p2 (e + f + bias) * p2 bias
              = (Zpos m * p2 (e + bias)) * (Zpos n * p2 (f + bias))).
  { replace (e + f + bias) with ((e + bias) + f) by lia.
    assert (p2 (e + bias + f) * p2 bias = p2 (e + bias) * p2 (f + bias)).
    { rewrite <- !p2_add by (unfold bias; lia). f_equal. lia. }
    rewrite Pos2Z.inj_mul, <- Z.mul_assoc, H. ring. }
  destruct (round_aux_spec (xorb s t) (m * n) (e + f)) as (r & N & R).
  - unfold bias. lia.
  - rewrite fexp_eq in *.
    pose proof (Pos2Z.is_pos (digits2_pos m)). pose proof (Pos2Z.is_pos (digits2_pos n)).
    lia.
  - assert (B : binade (Zpos (digits2_pos (m * n)) + (e + f))
                       (Zpos (m * n) * p2 (e + f + bias)))
      by (apply binade_digits; unfold bias; lia).
    assert (P : 0 < Zpos (m * n) * p2 (e + f + bias)).
    { assert (0 < p2 (e + f + bias)) by (apply p2_pos; unfold bias; lia). nia. }
    exists (cond_Zopp (xorb s t) (Zpos (m * n) * p2 (e + f + bias))). split.
    + cbn [val]. destruct s, t; cbn [xorb cond_Zopp]; lia.
    + destruct (xorb s t); cbn [cond_Zopp].
      * split; [lia|]. split; [lia|]. intros _. rewrite Z.opp_involutive. eauto.
      * split; [lia|]. split; [|lia]. intros _. eauto.
Qed.

(** [SFldexp SFone E], a power of two. *)
Lemma ldexp_one_spec E :
  -1074 <= E -> Rnd (p2 (E + bias)) (SFldexp prec emax (SFone prec emax) E).
Proof.
  intros H.
  change (SFone prec emax) with (S754_finite false 4503599627370496 (-52)).
  cbn [SFldexp].
  replace (p2 (E + bias)) with (4503599627370496 * p2 (-52 + E + bias)).
  - assert (P : 0 < 4503599627370496 * p2 (-52 + E + bias)).
    { assert (0 < p2 (-52 + E + bias)) by (apply p2_pos; unfold bias; lia). lia. }
    split; [lia|]. split; [|lia]. intros _.
    destruct (binary_round_spec false 4503599627370496 (-52 + E)) as (r & N & R);
      [unfold bias; lia|].
    eexists _, r. split; [apply binade_digits; unfold bias; lia|]. split; [exact N|exact R].
  - change 4503599627370496 with (p2 52). rewrite <- p2_add by (unfold bias; lia).
    f_equal. lia.
Qed.

(** ** Canonical floats compare as their values *)

Lemma canonical_lt m e n f :
  bounded prec emax m e = true -> bounded prec emax n f = true ->
  e < f -> Zpos m * p2 (e + bias) < Zpos n * p2 (f + bias).
Proof.
  intros Bm Bn L.
  destruct (bounded_spec m e Bm) as (He & Hm & Cm).
  destruct (bounded_spec n f Bn) as (Hf & Hn & Cn).
  pose proof (digits_bounds n) as [Ln _].
  assert (Dn : Zpos (digits2_pos n) = 53) by (rewrite fexp_eq in Cn; lia).
  rewrite Dn in Ln. change (53 - 1) with 52 in Ln.
  assert (P : 0 < p2 (e + bias)) by (apply p2_pos; unfold bias; lia).
  assert (p2 53 * p2 (e + bias) <= p2 52 * p2 (f + bias)).
  { rewrite <- !p2_add by (unfold bias; lia). apply p2_le. unfold bias. lia. }
  assert (0 < p2 (f + bias)) by (apply p2_pos; unfold bias; lia).
  nia.
Qed.

End Round.

Module Round2.

Local Open Scope Z_scope.
Import Round Key.

Lemma valid_range x : fin x -> valid x -> Z.abs (val x) < p2 (emax + bias).
Proof.
  intros F V. destruct x as [s|s| |s m e]; cbn [fin] in F; try tauto.
  - cbn [val]. apply p2_pos. unfold emax, bias. lia.
  - destruct (bounded_spec m e V) as (He & Hm & _). cbn [val].
    assert (P : 0 < p2 (e + bias)) by (apply p2_pos; unfold bias; lia).
    assert (p2 53 * p2 (e + bias) <= p2 (emax + bias)).
    { rewrite <- p2_add by (unfold bias; lia). apply p2_le. unfold emax, bias. lia. }
    destruct s; cbn [cond_Zopp]; nia.
Qed.

Lemma valid_repr x : fin x -> valid x -> repr (Z.abs (val x)).
Proof.
  intros F V. destruct x as [s|s| |s m e]; cbn [fin] in F; try tauto.
  - exists 0, 0. cbn. lia.
  - destruct (bounded_spec m e V) as (He & Hm & _).
    assert (P : 0 < p2 (e + bias)) by (apply p2_pos; unfold bias; lia).
    exists (Zpos m), e. split; [|lia].
    cbn [val]. destruct s; cbn [cond_Zopp]; nia.
Qed.

Lemma valid_srepr x : fin x -> valid x -> srepr (val x).
Proof. intros F V. split; [now apply valid_repr|now apply valid_range]. Qed.

(** Values of floats are multiples of the least positive one. *)
Definition tiny : Z := p2 (bias - 1074).

Lemma tiny_pos : 0 < tiny.
Proof. apply p2_pos. unfold bias. lia. Qed.

Lemma valid_multiple x : fin x -> valid x -> exists k, val x = k * tiny.
Proof.
  intros F V. destruct x as [s|s| |s m e]; cbn [fin] in F; try tauto.
  - exists 0. reflexivity.
  - destruct (bounded_spec m e V) as (He & Hm & _). cbn [val].
    assert (E : p2 (e + bias) = p2 (e + 1074) * tiny).
    { unfold tiny. rewrite <- p2_add by (unfold bias; lia). f_equal. lia. }
    rewrite E. destruct s; cbn [cond_Zopp].
    + exists (- (Zpos m * p2 (e + 1074))). ring.
    + exists (Zpos m * p2 (e + 1074)). ring.
Qed.

Lemma valid_gap x y :
  fin x -> fin y -> valid x -> valid y -> val x < val y -> tiny <= val y - val x.
Proof.
  intros Fx Fy Vx Vy L.
  destruct (valid_multiple x Fx Vx) as [j Ej].
  destruct (valid_multiple y Fy Vy) as [k Ek].
  pose proof tiny_pos. rewrite Ej, Ek in *.
  assert (j < k) by nia. assert (j + 1 <= k) by lia. nia.
Qed.

(** The order of canonical floats is the order of their values. *)
Lemma key_val_lt x y :
  fin x -> fin y -> valid x -> valid y -> klt (key x) (key y) -> val x < val y.
Proof.
  intros Fx Fy Vx Vy.
  destruct x as [s|s| |s m e], y as [t|t| |t n f]; cbn [fin] in *; try tauto;
    unfold klt; cbn [key val fst snd].
  - lia.
  - destruct (bounded_spec n f Vy) as (Hf & _).
    assert (0 < p2 (f + bias)) by (apply p2_pos; unfold bias; lia).
    destruct t; cbn [key fst snd cond_Zopp]; nia.
  - destruct (bounded_spec m e Vx) as (He & _).
    assert (0 < p2 (e + bias)) by (apply p2_pos; unfold bias; lia).
    destruct s; cbn [key fst snd cond_Zopp]; nia.
  - destruct (bounded_spec m e Vx) as (He & _).
    destruct (bounded_spec n f Vy) as (Hf & _).
    assert (0 < p2 (e + bias)) by (apply p2_pos; unfold bias; lia).
    assert (0 < p2 (f + bias)) by (apply p2_pos; unfold bias; lia).
    destruct s, t; cbn [key fst snd cond_Zopp]; intros K; try nia.
    + destruct K as [K|[_ [K|[K1 K2]]]]; [lia| |].
      * assert (Zpos n * p2 (f + bias) < Zpos m * p2 (e + bias))
          by (apply canonical_lt; auto; lia). lia.
      * assert (e = f) by lia. subst f. nia.
    + destruct K as [K|[_ [K|[K1 K2]]]]; [lia| |].
      * assert (Zpos m * p2 (e + bias) < Zpos n * p2 (f + bias))
          by (apply canonical_lt; auto; lia). lia.
      * subst f. nia.
Qed.

Lemma key_val_eq x y :
  fin x -> fin y -> valid x -> valid y -> keq (key x) (key y) -> val x = val y.
Proof.
  intros Fx Fy Vx Vy.
  destruct x as [s|s| |s m e], y as [t|t| |t n f]; cbn [fin] in *; try tauto;
    unfold keq; cbn [key val]; intros K.
  - destruct t; cbn [fst snd] in K; lia.
  - destruct s; cbn [fst snd] in K; lia.
  - destruct s, t; cbn [fst snd cond_Zopp] in *; destruct K as (H1 & H2 & H3); try lia.
    + assert (e = f) by lia. assert (m = n) by lia. now subst.
    + assert (m = n) by lia. now subst.
Qed.

Lemma key_total (a b : Z * Z * Z) : klt a b \/ keq a b \/ klt b a.
Proof. unfold klt, keq. lia. Qed.

Lemma val_key_lt x y :
  fin x -> fin y -> valid x -> valid y -> val x < val y -> klt (key x) (key y).
Proof.
  intros Fx Fy Vx Vy L. destruct (key_total (key x) (key y)) as [H|[H|H]].
  - exact H.
  - apply key_val_eq in H; auto. lia.
  - apply key_val_lt in H; auto. lia.
Qed.

Lemma val_key_le x y :
  fin x -> fin y -> valid x -> valid y -> val x <= val y -> kle (key x) (key y).
Proof.
  intros Fx Fy Vx Vy L. unfold kle. destruct (key_total (key x) (key y)) as [H|[H|H]].
  - now left.
  - now right.
  - apply key_val_lt in H; auto. lia.
Qed.

Lemma key_val_le x y :
  fin x -> fin y -> valid x -> valid y -> kle (key x) (key y) -> val x <= val y.
Proof.
  intros Fx Fy Vx Vy [H|H].
  - apply key_val_lt in H; auto. lia.
  - apply key_val_eq in H; auto. lia.
Qed.

(** ** More on rounded values *)

Lemma Rnd_valid V R : Rnd V R -> valid R.
Proof.
  intros (H0 & HP & HN). destruct (Z.lt_trichotomy V 0) as [C|[C|C]].
  - destruct (HN C) as (D & r & _ & _ & Hr).
    destruct R as [s|s| |s m e]; cbn [result] in Hr; try reflexivity; try tauto;
      try (now destruct Hr as (_ & _ & B)).
  - destruct (H0 C) as [s ->]. reflexivity.
  - destruct (HP C) as (D & r & _ & _ & Hr).
    destruct R as [s|s| |s m e]; cbn [result] in Hr; try reflexivity; try tauto;
      try (now destruct Hr as (_ & _ & B)).
Qed.

(** A positive value rounds to +Inf or to a float that is not negative,
    and not below any float magnitude under the value. *)
Lemma Rnd_le_pos V R G :
  Rnd V R -> 0 < V -> repr G -> G <= V ->
  R = S754_infinity false \/ (fin R /\ 0 <= val R /\ G <= val R).
Proof.
  intros (_ & HP & _) C HG L.
  destruct (HP C) as (D & r & HB & Hn & Hr).
  assert (G <= r) by (apply (near_le D V); auto).
  assert (0 <= r).
  { destruct Hn as (k & Hk & -> & _). pose proof (p2_nonneg (fexp D + bias)). nia. }
  destruct R as [s|s| |s m e]; cbn [result] in Hr; try tauto.
  - right. cbn [val fin]. repeat split; lia.
  - destruct Hr as [-> _]. now left.
  - right. destruct Hr as (-> & -> & _). cbn [val fin cond_Zopp]. repeat split; lia.
Qed.

Lemma Rnd_ge_pos V R G :
  Rnd V R -> 0 < V -> srepr G -> V <= G -> fin R /\ 0 <= val R <= G.
Proof.
  intros (_ & HP & _) C [HG HR] L.
  destruct (HP C) as (D & r & HB & Hn & Hr).
  assert (r <= G).
  { apply (near_ge D V); auto. replace G with (Z.abs G) by lia. exact HG. }
  assert (0 <= r).
  { destruct Hn as (k & Hk & -> & _). pose proof (p2_nonneg (fexp D + bias)). nia. }
  destruct R as [s|s| |s m e]; cbn [result] in Hr; try tauto.
  - cbn [val fin]. repeat split; lia.
  - lia.
  - destruct Hr as (-> & -> & _). cbn [val fin cond_Zopp]. repeat split; lia.
Qed.

(** Rounding loses less than half of a value that is not tiny. *)
Lemma Rnd_half V R :
  Rnd V R -> tiny <= V ->
  R = S754_infinity false \/ (fin R /\ V < 2 * val R).
Proof.
  intros HR L. pose proof tiny_pos as T.
  assert (C : 0 < V) by lia.
  destruct HR as (H0 & HP & HN).
  destruct (HP C) as (D & r & HB & Hn & Hr).
  destruct HB as (HD & BL & BU).
  assert (E : -1074 <= D - 1).
  { destruct (Z_le_gt_dec (-1074) (D - 1)) as [K|K]; [exact K|exfalso].
    assert (p2 (D + bias) <= tiny) by (apply p2_le; unfold bias in *; lia). lia. }
  assert (G : repr (p2 (D - 1 + bias))).
  { exists 1, (D - 1). split; [lia|]. split; [|lia]. split; [lia|]. reflexivity. }
  assert (HR : Rnd V R) by (repeat split; auto).
  destruct (Rnd_le_pos V R (p2 (D - 1 + bias)) HR C G BL) as [I|(F & _ & Lr)];
    [now left|].
  right. split; [exact F|].
  assert (p2 (D + bias) = 2 * p2 (D - 1 + bias)).
  { rewrite <- p2_S by lia. f_equal. lia. }
  lia.
Qed.

End Round2.

Module Succ.

Local Open Scope Z_scope.
Import Round Round2 Key.

Lemma repr_intro mg eg : 0 <= mg < p2 53 -> -1074 <= eg -> repr (mg * p2 (eg + bias)).
Proof. intros H1 H2. exists mg, eg. auto. Qed.

Lemma frexp_exp s m e :
  valid (S754_finite s m e) ->
  fexp (snd (SFfrexp prec emax (S754_finite s m e))) = e.
Proof.
  intros V. destruct (bounded_spec m e V) as (He & Hm & Hf).
  unfold SFfrexp. destruct (Z.leb_spec prec (Zpos (digits2_pos m))) as [L|L]; cbn [snd].
  - pose proof (digits_bounds m) as [B _].
    assert (Zpos (digits2_pos m) = 53).
    { destruct (Z.eq_dec (Zpos (digits2_pos m)) 53) as [E|E]; [exact E|exfalso].
      assert (p2 53 <= p2 (Zpos (digits2_pos m) - 1)) by (apply p2_le; unfold prec in L; lia).
      lia. }
    rewrite <- Hf at 2. f_equal. unfold prec. lia.
  - rewrite <- Hf at 2. f_equal. lia.
Qed.

Lemma ulp_eq s m e :
  valid (S754_finite s m e) ->
  SFulp prec emax (S754_finite s m e) = SFldexp prec emax (SFone prec emax) e.
Proof. intros V. unfold SFulp. now rewrite frexp_exp. Qed.

Lemma ldexp_one_ge E :
  -1074 <= E ->
  let d := SFldexp prec emax (SFone prec emax) E in
  valid d /\ (d = S754_infinity false \/ (fin d /\ p2 (E + bias) <= val d)).
Proof.
  intros HE d. pose proof (ldexp_one_spec E HE) as R. fold d in R.
  split; [now apply (Rnd_valid _ _ R)|].
  assert (P : 0 < p2 (E + bias)) by (apply p2_pos; unfold bias; lia).
  destruct (Rnd_le_pos _ _ (p2 (E + bias)) R P) as [I|(F & _ & L)]; auto; try lia.
  replace (p2 (E + bias)) with (1 * p2 (E + bias)) by ring.
  apply repr_intro; [split; [lia|reflexivity]|exact HE].
Qed.

(** The float after a finite one is greater, or is +Inf. *)
Lemma succ_gt x :
  fin x -> valid x ->
  let n := SFsucc prec emax x in
  n = S754_infinity false \/ (fin n /\ valid n /\ val x < val n).
Proof.
  intros F V n. destruct x as [s|s| |s m e]; cbn [fin] in F; try tauto.
  - right. subst n. vm_compute. repeat split; reflexivity.
  - destruct (bounded_spec m e V) as (He & Hm & Hf).
    assert (P : 0 < p2 (e + bias)) by (apply p2_pos; unfold bias; lia).
    pose proof (ulp_eq s m e V) as U.
    destruct s.
    + (* negative *)
      subst n. cbn [SFsucc SFopp negb]. unfold SFpred_pos.
      set (d := if (m~0 =? _)%positive then _ else _).
      assert (D : valid d /\ (d = S754_infinity false \/
                  (fin d /\ exists G, repr G /\ 0 <= G < Zpos m * p2 (e + bias)
                                      /\ Zpos m * p2 (e + bias) - val d <= G))).
      { subst d. destruct (Pos.eqb_spec m~0 (Pos.iter xO xH (Z.to_pos prec))) as [E|E].
        - assert (Em : Zpos m = p2 52).
          { vm_compute in E. injection E as ->. reflexivity. }
          assert (Dg : Zpos (digits2_pos m) = 53).
          { apply digits_unique; [lia|]. rewrite Em. split; [apply Z.le_refl|reflexivity]. }
          replace (snd (SFfrexp prec emax (S754_finite false m e)) - 1) with (52 + e).
          2:{ unfold SFfrexp. rewrite Dg. change (prec <=? 53) with true.
              cbn [snd]. unfold prec. lia. }
          rewrite fexp_eq.
          destruct (ldexp_one_ge (Z.max (52 + e - 53) (-1074))) as [Vd [I|[Fd Ld]]];
            [lia| |]; (split; [exact Vd|]); [now left|right; split; [exact Fd|]].
          destruct (Z.eq_dec e (-1074)) as [Ee|Ee].
          + exists ((Zpos m - 1) * p2 (e + bias)). split; [apply repr_intro; lia|].
            replace (Z.max (52 + e - 53) (-1074)) with e in * by lia.
            pose proof (Pos2Z.is_pos m). repeat split; nia.
          + exists ((p2 53 - 1) * p2 (e - 1 + bias)).
            replace (Z.max (52 + e - 53) (-1074)) with (e - 1) in * by lia.
            assert (P' : 0 < p2 (e - 1 + bias)) by (apply p2_pos; unfold bias; lia).
            assert (E2 : p2 (e + bias) = 2 * p2 (e - 1 + bias)).
            { rewrite <- p2_S by (unfold bias; lia). f_equal. lia. }
            split; [apply repr_intro; [split; [now apply Z.leb_le|lia]|lia]|].
            rewrite Em, E2. change (p2 53) with (2 * p2 52) in *.
            assert (0 < p2 52) by reflexivity. repeat split; nia.
        - rewrite (ulp_eq false m e V).
          destruct (ldexp_one_ge e) as [Vd [I|[Fd Ld]]];
            [lia| |]; (split; [exact Vd|]); [now left|right; split; [exact Fd|]].
          exists ((Zpos m - 1) * p2 (e + bias)). split; [apply repr_intro; lia|].
          pose proof (Pos2Z.is_pos m). repeat split; nia. }
      destruct D as [Vd [I|(Fd & G & HG & BG & LG)]].
      * left. rewrite I. reflexivity.
      * pose proof (sub_spec_SF (S754_finite false m e) d I Fd V Vd) as R.
        cbn [val cond_Zopp] in R.
        assert (SG : srepr G).
        { split; [now replace (Z.abs G) with G by lia|].
          pose proof (valid_range (S754_finite false m e) I V) as VR.
          cbn [val cond_Zopp] in VR. lia. }
        pose proof (Rnd_valid _ _ R) as VS.
        destruct (Rnd_ge _ _ G R SG LG) as [J|[FS LS]].
        -- left. rewrite J. reflexivity.
        -- right. destruct (SFsub _ _ _ _) as [t|t| |t q f]; cbn [fin] in FS; try tauto;
             cbn [SFopp fin val cond_Zopp] in *.
           ++ repeat split; try reflexivity; lia.
           ++ destruct t; cbn [negb cond_Zopp] in *; repeat split; try exact VS; lia.
    + (* positive *)
      subst n. cbn [SFsucc]. rewrite U.
      destruct (ldexp_one_ge e) as [Vd [I|[Fd Ld]]]; [lia| |].
      * left. rewrite I. reflexivity.
      * pose proof (add_spec_SF (S754_finite false m e) _ I Fd V Vd) as R.
        cbn [val cond_Zopp] in R.
        pose proof (Rnd_valid _ _ R) as VS.
        assert (HG : repr ((Zpos m + 1) * p2 (e + bias))).
        { destruct (Z.eq_dec (Zpos m + 1) (p2 53)) as [E|E].
          - rewrite E. change (p2 53) with (p2 52 * 2).
            replace (p2 52 * 2 * p2 (e + bias)) with (p2 52 * p2 (e + 1 + bias)).
            + apply repr_intro; [split; [|reflexivity]|]; [discriminate|lia].
            + replace (e + 1 + bias) with (e + bias + 1) by lia.
              rewrite p2_S by (unfold bias; lia). ring.
          - apply repr_intro; lia. }
        destruct (Rnd_le_pos _ _ _ R ltac:(lia) HG ltac:(nia)) as [J|(FS & _ & LS)];
          [now left|right].
        cbn [val cond_Zopp]. repeat split; [exact FS|exact VS|nia].
Qed.

End Succ.

Module Val.

Local Open Scope Z_scope.
Import Round Round2 Key Succ.

(** The value and the finiteness of a [float64]. *)
Definition fv (x : float) : Z := val (Prim2SF x).
Definition ffin (x : float) : Prop := fin (Prim2SF x).
Definition pinf (x : float) : Prop := Prim2SF x = S754_infinity false.

Lemma fvalid x : valid (Prim2SF x).
Proof. apply Prim2SF_valid. Qed.

Lemma ffin_nan x : ffin x -> is_nan x = false.
Proof.
  unfold ffin. intros F. apply F64.is_nan_false. intros E. now rewrite E in F.
Qed.

Lemma pinf_nan x : pinf x -> is_nan x = false.
Proof. unfold pinf. intros F. apply F64.is_nan_false. congruence. Qed.

Lemma lt_fin x y : ffin x -> ffin y -> ((x <? y)%float = true <-> fv x < fv y).
Proof.
  intros Fx Fy. rewrite Order.ltb_true. unfold Order.K, fv. split.
  - intros (_ & _ & L). apply key_val_lt; auto using fvalid.
  - intros L. repeat split; auto using ffin_nan.
    apply val_key_lt; auto using fvalid.
Qed.

Lemma le_fin x y : ffin x -> ffin y -> ((x <=? y)%float = true <-> fv x <= fv y).
Proof.
  intros Fx Fy. rewrite Order.leb_true. unfold Order.K, fv. split.
  - intros (_ & _ & L). apply key_val_le; auto using fvalid.
  - intros L. repeat split; auto using ffin_nan.
    apply val_key_le; auto using fvalid.
Qed.

Lemma nlt_fin x y : ffin x -> ffin y -> ((x <? y)%float = false <-> fv y <= fv x).
Proof.
  intros Fx Fy. pose proof (lt_fin x y Fx Fy) as L.
  destruct (x <? y)%float; split; intros H; try reflexivity; try discriminate.
  - assert (fv x < fv y) by now apply L. lia.
  - destruct (Z_lt_le_dec (fv x) (fv y)) as [C|C]; [|exact C].
    apply L in C. discriminate.
Qed.

Lemma key_fin x : fin x -> -1 <= fst (fst (key x)) <= 1.
Proof. destruct x as [s|s| |[] m e]; cbn; try tauto; lia. Qed.

Lemma lt_pinf x y : ffin x -> pinf y -> (x <? y)%float = true.
Proof.
  intros Fx Iy. apply Order.ltb_true. repeat split; auto using ffin_nan, pinf_nan.
  unfold Order.K. rewrite Iy. pose proof (key_fin _ Fx). left. cbn. lia.
Qed.

Lemma nlt_pinf x y : pinf x -> (y <? x)%float = false -> ~ ffin y.
Proof. intros Ix N F. rewrite (lt_pinf y x F Ix) in N. discriminate. Qed.

Lemma add_Rnd x y : ffin x -> ffin y -> Rnd (fv x + fv y) (Prim2SF (x + y)).
Proof. intros. rewrite add_spec. apply add_spec_SF; auto using fvalid. Qed.

Lemma sub_Rnd x y : ffin x -> ffin y -> Rnd (fv x - fv y) (Prim2SF (x - y)).
Proof. intros. rewrite sub_spec. apply sub_spec_SF; auto using fvalid. Qed.

Lemma mul_Rnd x y :
  ffin x -> ffin y -> exists V, V * p2 bias = fv x * fv y /\ Rnd V (Prim2SF (x * y)).
Proof. intros. rewrite mul_spec. apply mul_spec_SF; auto using fvalid. Qed.

(** Every [float64] is finite, NaN or an infinity. *)
Lemma classify x : ffin x \/ x = nan \/ x = infinity \/ x = neg_infinity.
Proof.
  unfold ffin. destruct (Prim2SF x) as [s|[]| |s m e] eqn:E; cbn [fin]; auto;
    right; [right; right|right; left|left]; apply Prim2SF_inj; rewrite E; reflexivity.
Qed.

Lemma pinf_eq x : pinf x -> x = infinity.
Proof. intros H. apply Prim2SF_inj. rewrite H. reflexivity. Qed.

Lemma next_up_gt x :
  ffin x -> pinf (next_up x) \/ (ffin (next_up x) /\ fv x < fv (next_up x)).
Proof.
  intros F. unfold pinf, ffin, fv. rewrite next_up_spec.
  destruct (succ_gt (Prim2SF x) F (fvalid x)) as [I|(Fn & _ & L)]; auto.
Qed.

Lemma abs_fin x : ffin x -> ffin (abs x) /\ fv (abs x) = Z.abs (fv x).
Proof.
  unfold ffin, fv. rewrite abs_spec. intros F.
  destruct (Prim2SF x) as [s|s| |s m e] eqn:E; cbn [fin] in F; try tauto.
  pose proof (fvalid x) as V. rewrite E in V.
  destruct (bounded_spec m e V) as (He & _).
  assert (0 < p2 (e + bias)) by (apply p2_pos; unfold bias; lia).
  split; [exact I|]. cbn [SFabs val]. destruct s; cbn [cond_Zopp]; nia.
Qed.

Lemma fv_10 : ffin 10 /\ fv 10 = 10 * p2 bias.
Proof. split; [exact I|]. vm_compute. reflexivity. Qed.

Lemma mul_pinf_r x y : ffin x -> 0 < fv x -> pinf y -> pinf (x * y).
Proof.
  unfold ffin, fv, pinf. rewrite mul_spec. intros F P ->.
  pose proof (fvalid x) as V.
  destruct (Prim2SF x) as [s|s| |[] m e]; cbn [fin val cond_Zopp] in *; try tauto; try lia.
  destruct (bounded_spec m e V) as (He & _).
  assert (0 < p2 (e + bias)) by (apply p2_pos; unfold bias; lia). nia.
Qed.

Lemma sub_pinf_l x y : pinf x -> ffin y -> pinf (x - y).
Proof.
  unfold ffin, fv, pinf. rewrite sub_spec. intros -> F.
  destruct (Prim2SF y) as [s|s| |s m e]; cbn [fin] in *; try tauto; reflexivity.
Qed.

Lemma abs_pinf x : pinf x -> pinf (abs x).
Proof. unfold pinf. rewrite abs_spec. now intros ->. Qed.

Lemma repr_tiny : repr tiny.
Proof.
  unfold tiny. replace (p2 (bias - 1074)) with (1 * p2 (-1074 + bias))
    by (rewrite Z.mul_1_l; f_equal; lia).
  apply repr_intro; [split; [lia|reflexivity]|lia].
Qed.

(** [minStep x] at a finite [x]: +Inf, or at least ten times the least
    positive float and more than the distance from [x] to the next
    float. *)
Lemma minStep_cases x :
  ffin x ->
  pinf (minStep x)
  \/ (ffin (minStep x) /\ 10 * tiny <= fv (minStep x)
      /\ exists n, ffin n /\ fv x < fv n /\ fv n - fv x < fv (minStep x)).
Proof.
  intros Fx. unfold minStep, Go.Nextafter_up.
  pose proof tiny_pos as T. destruct fv_10 as [F10 V10].
  assert (P10 : 0 < fv 10) by (rewrite V10; reflexivity).
  destruct (next_up_gt x Fx) as [In|[Fn Ln]].
  { left. apply (mul_pinf_r _ _ F10 P10 (abs_pinf _ (sub_pinf_l _ _ In Fx))). }
  pose proof (sub_Rnd _ _ Fn Fx) as R1.
  assert (G : tiny <= fv (next_up x) - fv x)
    by (apply valid_gap; auto using fvalid).
  destruct (Rnd_half _ _ R1 G) as [I1|[F1 H1]].
  { left. apply (mul_pinf_r _ _ F10 P10 (abs_pinf _ I1)). }
  destruct (Rnd_le_pos _ _ _ R1 ltac:(lia) repr_tiny G) as [I1|(_ & _ & L1)].
  { left. apply (mul_pinf_r _ _ F10 P10 (abs_pinf _ I1)). }
  destruct (abs_fin _ F1) as [Fa Va].
  change (val (Prim2SF (next_up x - x))) with (fv (next_up x - x)) in L1.
  change (fin (Prim2SF (next_up x - x))) with (ffin (next_up x - x)) in F1.
  change (val (Prim2SF (next_up x - x))) with (fv (next_up x - x)) in H1.
  destruct (mul_Rnd _ _ F10 Fa) as (V & EV & R2).
  rewrite V10, Va in EV.
  assert (PB : 0 < p2 bias) by reflexivity.
  assert (EV' : V = 10 * Z.abs (fv (next_up x - x))) by nia.
  assert (LV : 10 * tiny <= V) by lia.
  assert (RG : repr (10 * tiny)).
  { unfold tiny. replace (bias - 1074) with (-1074 + bias) by lia.
    apply repr_intro; [split; [lia|reflexivity]|lia]. }
  destruct (Rnd_half _ _ R2 ltac:(lia)) as [I2|[F2 H2]]; [now left|].
  destruct (Rnd_le_pos _ _ _ R2 ltac:(lia) RG LV) as [I2|(_ & _ & L2)]; [now left|].
  right. split; [exact F2|]. split; [exact L2|].
  exists (next_up x). repeat split; auto. unfold fv in *. lia.
Qed.

(** The floor of the step size: a finite [h] that is not below
    [minStep x] is at least ten times the least positive float, and takes
    [x] to the next float at least. *)
Lemma minStep_floor x h :
  ffin x -> ffin h -> (h <? minStep x)%float = false ->
  10 * tiny <= fv h
  /\ exists n, ffin n /\ fv x < fv n /\ fv n <= fv x + fv h.
Proof.
  intros Fx Fh N.
  destruct (minStep_cases x Fx) as [J|(F & B & n & Fn & L1 & L2)].
  - exfalso. apply (nlt_pinf _ _ J N Fh).
  - apply (nlt_fin _ _ Fh F) in N. split; [lia|].
    exists n. repeat split; auto. lia.
Qed.

Lemma minStep_pos x : ffin x -> (0 <? minStep x)%float = true.
Proof.
  intros Fx. pose proof tiny_pos as T.
  destruct (minStep_cases x Fx) as [J|(F & B & _)].
  - now apply lt_pinf.
  - apply lt_fin; [exact I|exact F|]. change (fv 0) with 0. lia.
Qed.

(** A step that is not too small moves [x]. *)
Lemma step_exceeds x h :
  ffin x -> ffin h -> (h <? minStep x)%float = false -> (x <? x + h)%float = true.
Proof.
  intros Fx Fh N. destruct (minStep_floor x h Fx Fh N) as (_ & n & Fn & L1 & L2).
  pose proof (add_Rnd x h Fx Fh) as R.
  destruct (Rnd_le _ _ (fv n) R (valid_srepr _ Fn (fvalid n)) L2) as [I|[F L]].
  - now apply lt_pinf.
  - apply lt_fin; auto. unfold fv in *. lia.
Qed.

End Val.

Module NonFinite.

Local Open Scope Z_scope.
Import Round Round2 Key Succ Val.

(** NaN or +Inf. *)
Definition pin (x : float) : Prop := x = nan \/ x = infinity.

Lemma pin_spec x :
  pin x <-> Prim2SF x = S754_nan \/ Prim2SF x = S754_infinity false.
Proof.
  unfold pin. split; intros [H|H].
  - left. now rewrite H.
  - right. now rewrite H.
  - left. apply Prim2SF_inj. now rewrite H.
  - right. apply Prim2SF_inj. now rewrite H.
Qed.

Lemma pin_nfin x : pin x -> ~ ffin x.
Proof. intros [->| ->] F; exact F. Qed.

Lemma mul_nfin_r t h : ~ ffin h -> ~ ffin (t * h).
Proof.
  unfold ffin. rewrite mul_spec.
  destruct (Prim2SF t) as [s|s| |s m e], (Prim2SF h) as [s'|s'| |s' m' e'];
    cbn; tauto.
Qed.

Lemma div_nfin_l a s : ~ ffin a -> ~ ffin (a / s).
Proof.
  unfold ffin. rewrite div_spec.
  destruct (Prim2SF a) as [s1|s1| |s1 m e], (Prim2SF s) as [s'|s'| |s' m' e'];
    cbn; tauto.
Qed.

Lemma Pow_nfin pow_core v : ~ ffin v -> pin (Pow pow_core v 2).
Proof.
  intros N. destruct (classify v) as [F|[->|[->| ->]]]; [tauto| | |].
  - left. reflexivity.
  - right. reflexivity.
  - right. reflexivity.
Qed.

Lemma add_pin a b : pin b -> pin (a + b).
Proof.
  intros H. apply pin_spec in H. apply pin_spec. rewrite add_spec.
  destruct H as [-> | ->]; destruct (Prim2SF a) as [s|[]| |s m e]; cbn; auto.
Qed.

Lemma fold_pin (f : nat -> float) l : forall a,
  (forall i, pin (f i)) -> l <> [] \/ pin a ->
  pin (fold_left (fun acc i => (acc + f i)%float) l a).
Proof.
  induction l as [|i l IH]; intros a Hf H.
  - destruct H; [congruence|assumption].
  - cbn [fold_left]. apply IH; [exact Hf|]. right. apply add_pin, Hf.
Qed.

Lemma div_pin_nfin a n : pin a -> ~ ffin (a / n).
Proof.
  intros H. apply pin_spec in H. unfold ffin. rewrite div_spec.
  destruct H as [-> | ->]; destruct (Prim2SF n) as [s|s| |s m e]; cbn; tauto.
Qed.

Lemma sqrt_pin a : ~ ffin a -> pin (PrimFloat.sqrt a).
Proof.
  intros N. destruct (classify a) as [F|[->|[->| ->]]]; [tauto| | |].
  - left. reflexivity.
  - right. reflexivity.
  - left. reflexivity.
Qed.

Lemma pin_nlt a b : pin a -> (a <? b)%float = false.
Proof.
  intros H. apply Order.ltb_false. apply pin_spec in H. destruct H as [H|H].
  - left. now apply F64.is_nan_spec.
  - destruct (is_nan b) eqn:Nb; [auto|]. right; right.
    unfold Order.K. rewrite H.
    destruct (Prim2SF b) as [s|[]| |[] m e] eqn:E; unfold kle, klt, keq; cbn; lia.
Qed.

(** An error norm computed from a step size that is not finite is NaN or
    +Inf. *)
Lemma errorNorm_pin pow_core te scale h :
  ~ ffin h -> pin (errorNorm pow_core te scale h).
Proof.
  intros N. unfold errorNorm. cbv zeta. destruct te as [|t te].
  - left. reflexivity.
  - apply sqrt_pin, div_pin_nfin.
    apply (fold_pin (fun i => Pow pow_core (Go.idx (t :: te) i * h / Go.idx scale i) 2)).
    + intros i. apply Pow_nfin, div_nfin_l, mul_nfin_r, N.
    + left. discriminate.
Qed.

Lemma ffin_dec x : ffin x \/ ~ ffin x.
Proof. unfold ffin. destruct (Prim2SF x); cbn; tauto. Qed.

Lemma errorNorm_accept pow_core te scale h :
  (errorNorm pow_core te scale h <? 1)%float = true -> ffin h.
Proof.
  intros L. destruct (ffin_dec h) as [F|N]; [exact F|].
  rewrite (pin_nlt _ 1 (errorNorm_pin pow_core te scale h N)) in L. discriminate.
Qed.

Lemma errorNorm_fin pow_core te scale h :
  ffin (errorNorm pow_core te scale h) -> ffin h.
Proof.
  intros L. destruct (ffin_dec h) as [F|N]; [exact F|].
  now apply (pin_nfin _ (errorNorm_pin pow_core te scale h N)) in L.
Qed.

End NonFinite.

Module Shrink.

Local Open Scope Z_scope.
Import Round Round2 Key Succ Val NonFinite.

Lemma is_finite_ffin x : is_finite x = true -> ffin x.
Proof.
  intros H. destruct (classify x) as [F|[->|[->| ->]]]; [exact F| | |]; discriminate.
Qed.

Lemma fv_1 : ffin 1 /\ fv 1 = p2 bias.
Proof. split; [exact I|]. vm_compute. reflexivity. Qed.

Lemma fv_safety : ffin safety /\ fv safety = 8106479329266893 * p2 (bias - 53).
Proof. split; [exact I|]. vm_compute. reflexivity. Qed.

Lemma fv_minFactor : ffin minFactor /\ 0 < fv minFactor <= fv safety.
Proof. split; [exact I|]. vm_compute. split; [reflexivity|discriminate]. Qed.

Lemma p2_bias : p2 bias = 9007199254740992 * p2 (bias - 53).
Proof. vm_compute. reflexivity. Qed.

(** A product with a factor between 0 and 1 is not above the other factor. *)
Lemma mul_le_self a f :
  ffin a -> ffin f -> 0 <= fv a -> 0 <= fv f <= p2 bias ->
  ffin (a * f) /\ 0 <= fv (a * f) <= fv a.
Proof.
  intros Fa Ff La [Pf Lf].
  destruct (mul_Rnd a f Fa Ff) as (V & EV & R).
  assert (PB : 0 < p2 bias) by reflexivity.
  assert (PV : 0 <= V <= fv a) by nia.
  destruct (Z.eq_dec V 0) as [Z|Z].
  - destruct R as (H0 & _). destruct (H0 Z) as [s E].
    unfold ffin, fv at 1 2. rewrite E. cbn. lia.
  - destruct (Rnd_ge_pos _ _ (fv a) R) as (F & B); try lia.
    + apply valid_srepr; auto using fvalid.
    + split; [exact F|exact B].
Qed.

Lemma big_float a :
  ffin a -> 10 * tiny <= fv a ->
  exists m e, fv a = Zpos m * p2 (e + bias) /\ -1074 <= e /\ 6 <= Zpos m
              /\ fexp (Zpos (digits2_pos m) + e) = e.
Proof.
  unfold ffin, fv. pose proof (fvalid a) as Va. pose proof tiny_pos as T.
  destruct (Prim2SF a) as [s|s| |s m e]; cbn [fin val]; try tauto; try lia.
  destruct (bounded_spec m e Va) as (He & Hm & Hf).
  assert (P : 0 < p2 (e + bias)) by (apply p2_pos; unfold bias; lia).
  destruct s; cbn [cond_Zopp]; intros _ La; [nia|].
  exists m, e. repeat split; auto; try lia.
  destruct (Z.eq_dec e (-1074)) as [E|E].
  - subst e. unfold tiny in La. replace (-1074 + bias) with (bias - 1074) in * by lia. nia.
  - rewrite fexp_eq in Hf. assert (Dg : Zpos (digits2_pos m) = 53) by lia.
    pose proof (digits_bounds m) as [B _]. rewrite Dg in B.
    change (p2 (53 - 1)) with 4503599627370496 in B. lia.
Qed.

(** The nearest float to a value that is at most 0.9 times a float of
    mantissa 6 or more is below that float. *)
Lemma near_below (m : positive) e V D r :
  -1074 <= e -> 6 <= Zpos m -> fexp (Zpos (digits2_pos m) + e) = e ->
  0 < V -> 9007199254740992 * V <= 8106479329266893 * (Zpos m * p2 (e + bias)) ->
  binade D V -> near D V r ->
  r < Zpos m * p2 (e + bias).
Proof.
  intros He M6 Hf PV LV (HD & BL & BU) (k & Hk & Er & Hn).
  assert (P : 0 < p2 (e + bias)) by (apply p2_pos; unfold bias; lia).
  pose proof (digits_bounds m) as [_ DB].
  assert (DA : Zpos m * p2 (e + bias) < p2 (Zpos (digits2_pos m) + e + bias)).
  { replace (Zpos (digits2_pos m) + e + bias) with (Zpos (digits2_pos m) + (e + bias)) by lia.
    rewrite (p2_add (Zpos (digits2_pos m)) (e + bias)) by (unfold bias; lia). nia. }
  assert (LD : D <= Zpos (digits2_pos m) + e).
  { destruct (Z_le_gt_dec D (Zpos (digits2_pos m) + e)) as [C|C]; [exact C|exfalso].
    assert (p2 (Zpos (digits2_pos m) + e + bias) <= p2 (D - 1 + bias))
      by (apply p2_le; unfold bias; lia).
    lia. }
  assert (LF : fexp D <= e) by (rewrite <- Hf; now apply fexp_mono).
  assert (LU : p2 (fexp D + bias) <= p2 (e + bias)).
  { apply p2_le. pose proof (fexp_ge D). unfold bias. lia. }
  assert (A6 : 6 * p2 (e + bias) <= Zpos m * p2 (e + bias)) by nia.
  lia.
Qed.

(** A product with a factor of at most 0.9 is below the other factor, when
    that is at least ten times the least positive float. *)
Lemma mul_shrinks a f :
  ffin a -> ffin f -> 10 * tiny <= fv a -> 0 < fv f <= fv safety ->
  fv (a * f) < fv a.
Proof.
  intros Fa Ff La [Pf Lf].
  destruct (mul_Rnd a f Fa Ff) as (V & EV & R).
  destruct fv_safety as [_ ES]. rewrite ES in Lf. rewrite p2_bias in EV.
  pose proof tiny_pos as T.
  assert (PQ : 0 < p2 (bias - 53)) by reflexivity.
  assert (PV : 0 < V) by nia.
  assert (LV : 9007199254740992 * V <= 8106479329266893 * fv a).
  { apply Z.mul_le_mono_pos_r with (p := p2 (bias - 53)); [exact PQ|]. nia. }
  destruct R as (_ & HP & _). destruct (HP PV) as (D & r & HB & Hn & Hr).
  destruct (big_float a Fa La) as (m & e & Ea & He & M6 & Hf).
  rewrite Ea in LV.
  pose proof (near_below m e V D r He M6 Hf PV LV HB Hn) as B.
  rewrite <- Ea in B.
  pose proof (valid_range _ Fa (fvalid a)) as VR. fold (fv a) in VR.
  unfold fv at 1. destruct (Prim2SF (a * f)) as [s'|s'| |s' m' e'];
    cbn [result val] in *; try tauto; try lia.
  destruct Hr as (-> & Er & _). cbn [cond_Zopp]. lia.
Qed.

End Shrink.

(** * The trajectory: accepted steps go forward *)

Module Trajectory.
Import Val NonFinite.

Lemma nth_pred_last (l : list float) d : nth (Nat.pred (length l)) l d = last l d.
Proof.
  induction l as [|a l IH]; [reflexivity|].
  destruct l as [|b l]; [reflexivity|]. exact IH.
Qed.

Lemma increasing_snoc l x :
  increasing l -> l <> [] -> (last l 0 <? x) = true -> increasing (l ++ [x]).
Proof.
  intros Hl Hne Hx i Hi. rewrite length_app in Hi. cbn [length] in Hi.
  unfold Go.idx in *.
  destruct (Nat.eq_dec (S i) (length l)) as [E|E].
  - rewrite (app_nth1 l [x] 0) by lia.
    rewrite (app_nth2 l [x] 0) by lia.
    replace (S i - length l)%nat with 0%nat by lia. cbn [nth].
    replace (nth i l 0) with (last l 0); [exact Hx|].
    rewrite <- nth_pred_last. f_equal. lia.
  - rewrite !(app_nth1 l [x] 0) by lia. apply Hl. lia.
Qed.

Section Steps.

Variable pow_core : float -> float -> float.
Variable rk : rungeKutta.
Variable dydxFunc : DydxFunc.
Variable tol : tolerance.

Lemma lt_ffin x xMax : (x <? xMax) = true -> ffin x \/ x = neg_infinity.
Proof.
  intros L. destruct (classify x) as [F|[->|[->| ->]]]; auto.
  - apply F64.ltb_not_nan in L. destruct L as [L _]. discriminate.
  - rewrite pin_nlt in L by (now right). discriminate.
Qed.

Lemma minStep_neg_infinity : minStep neg_infinity = infinity.
Proof. reflexivity. Qed.

(** An accepted step goes forward, and not past the end. *)
Lemma stepTurn_advances x y xMax h rej xP newH yP te :
  stepTurn pow_core rk dydxFunc x y xMax tol h rej = Return (StepOk xP newH yP te) ->
  (x <? xMax) = true ->
  (x <? xP) = true /\ (xP <=? xMax) = true.
Proof.
  unfold stepTurn. destruct (h <? minStep x) eqn:N; [discriminate|].
  unfold clamp. intros H L.
  pose proof (F64.ltb_not_nan _ _ L) as [Nx NM].
  destruct (xMax <? x + h) eqn:C.
  - destruct (yPlusH rk dydxFunc x y (xMax - x)) as [yP' te'].
    destruct (control _ _ _ _ _ _ _ _); [|discriminate].
    injection H as <- _ _ _. split; [exact L|now apply F64.leb_refl].
  - destruct (yPlusH rk dydxFunc x y h) as [yP' te'].
    unfold control in H. cbv zeta in H.
    destruct (errorNorm pow_core te' (stepScale tol y yP') h <? 1) eqn:A; [|discriminate].
    injection H as <- _ _ _.
    apply errorNorm_accept in A.
    assert (Fx : ffin x).
    { destruct (lt_ffin _ _ L) as [F| ->]; [exact F|exfalso].
      rewrite minStep_neg_infinity in N.
      rewrite (lt_pinf h infinity A) in N by reflexivity. discriminate. }
    pose proof (step_exceeds x h Fx A N) as S.
    split; [exact S|].
    apply F64.nltb_leb; auto. now apply F64.ltb_not_nan in S.
Qed.

Lemma stepLoop_advances fuel : forall x y xMax h rej xP newH yP te,
  stepLoop pow_core fuel rk dydxFunc x y xMax tol h rej = Some (StepOk xP newH yP te) ->
  (x <? xMax) = true ->
  (x <? xP) = true /\ (xP <=? xMax) = true.
Proof.
  induction fuel as [|fuel IH]; intros x y xMax h rej xP newH yP te H L; [discriminate|].
  cbn [stepLoop] in H.
  destruct (stepTurn pow_core rk dydxFunc x y xMax tol h rej) as [r|h' rej'] eqn:T.
  - injection H as ->. now apply (stepTurn_advances _ _ _ _ _ _ _ _ _ T).
  - now apply (IH _ _ _ _ _ _ _ _ _ H).
Qed.

Lemma integrateLoop_trajectory xEnd fuel : forall x y h xs0 ys0 r,
  integrateLoop pow_core fuel rk dydxFunc xEnd tol x y h xs0 ys0 = Some r ->
  err r = None ->
  increasing xs0 -> xs0 <> [] -> last xs0 0 = x -> (x <=? xEnd) = true ->
  length ys0 = length xs0 ->
  increasing (xs r) /\ (exists t, xs r = xs0 ++ t) /\ (exists t, ys r = ys0 ++ t)
  /\ (last (xs r) 0 =? xEnd) = true /\ length (ys r) = length (xs r).
Proof.
  induction fuel as [|fuel IH]; intros x y h xs0 ys0 r H E I Hne Hl Hx Hlen; [discriminate|].
  cbn [integrateLoop] in H. destruct (x <? xEnd) eqn:L.
  - unfold rungeKuttaStep in H.
    destruct (stepLoop pow_core fuel rk dydxFunc x y xEnd tol h false) as [[xP newH yP te|e]|] eqn:S;
      [|injection H as <-; discriminate|discriminate].
    destruct (stepLoop_advances _ _ _ _ _ _ _ _ _ _ S L) as [A B].
    destruct (IH _ _ _ _ _ _ H E) as (R1 & [t1 R2] & [t2 R3] & R4 & R5).
    + apply increasing_snoc; auto. now rewrite Hl.
    + now destruct xs0.
    + apply last_last.
    + exact B.
    + rewrite !length_app. cbn [length]. lia.
    + repeat split; auto.
      * exists (xP :: t1). now rewrite R2, <- app_assoc.
      * exists (yP :: t2). now rewrite R3, <- app_assoc.
  - injection H as <-. cbn [xs ys]. repeat split; auto.
    + exists []. now rewrite app_nil_r.
    + exists []. now rewrite app_nil_r.
    + rewrite Hl. now apply F64.leb_nltb_eqb.
Qed.

End Steps.

End Trajectory.

(** X1.  A step that [rungeKuttaStep] accepts from [x < xMax] goes
    strictly forward and not past [xMax]: [x < xPlusH <= xMax], whatever
    the derivative, the Runge-Kutta scheme and [math.Pow] are. *)
Theorem accepted_step_advances pow_core fuel rk dydxFunc x y h xMax tol
        xPlusH newH yPlusH te :
  rungeKuttaStep pow_core fuel rk dydxFunc x y h xMax tol
  = Some (StepOk xPlusH newH yPlusH te) ->
  (x <? xMax) = true ->
  (x <? xPlusH) = true /\ (xPlusH <=? xMax) = true.
Proof.
  unfold rungeKuttaStep. apply Trajectory.stepLoop_advances.
Qed.

Lemma accepted_step_advances_witness :
  match rungeKuttaStep powStandIn 3 dormandPrince scenarioB 0 [1; -1] 0.5 4 defaultTol with
  | Some (StepOk xPlusH _ _ _) =>
    (0 <? 4) = true /\ (0 <? xPlusH) = true /\ (xPlusH <=? 4) = true
  | _ => False
  end.
Proof.
  destruct (rungeKuttaStep powStandIn 3 dormandPrince scenarioB 0 [1; -1] 0.5 4 defaultTol)
    as [[xPlusH newH yPlusH te|e]|] eqn:E.
  - split; [reflexivity|].
    exact (accepted_step_advances powStandIn 3 dormandPrince scenarioB 0 [1; -1] 0.5 4
             defaultTol xPlusH newH yPlusH te E eq_refl).
  - vm_compute in E. discriminate E.
  - vm_compute in E. discriminate E.
Defined.

(** X2.  A successful integration over [x0 < xEnd]: the returned [xs] is
    strictly increasing, starts at [x0] and ends at a value that [==]
    [xEnd]; [ys] has as many entries as [xs] and starts with [y0].  This
    holds for every derivative, every Runge-Kutta scheme and every
    [math.Pow]. *)
Theorem trajectory_increasing_to_xEnd pow_core fuel rk dydxFunc x0 xEnd y0 r :
  (x0 <? xEnd) = true ->
  rungeKuttaIntegrate pow_core fuel rk dydxFunc (x0, xEnd) y0 = Some r ->
  err r = None ->
  increasing (xs r)
  /\ hd_error (xs r) = Some x0
  /\ (last (xs r) 0 =? xEnd) = true
  /\ length (ys r) = length (xs r)
  /\ hd_error (ys r) = Some y0.
Proof.
  intros L H E. unfold rungeKuttaIntegrate in H. cbn [fst snd] in H.
  destruct (Trajectory.integrateLoop_trajectory _ _ _ _ _ _ _ _ _ _ _ _ H E)
    as (R1 & [t1 R2] & [t2 R3] & R4 & R5).
  - intros i Hi. cbn in Hi. lia.
  - discriminate.
  - reflexivity.
  - now apply F64.ltb_leb.
  - reflexivity.
  - rewrite R2, R3 in *. repeat split; auto.
Qed.

Lemma trajectory_increasing_to_xEnd_witness :
  match DormandPrince powStandIn 12 scenarioB (0, 4) [1; -1] with
  | Some r =>
    (0 <? 4) = true /\ err r = None
    /\ increasing (xs r)
    /\ hd_error (xs r) = Some 0
    /\ (last (xs r) 0 =? 4) = true
    /\ length (ys r) = length (xs r)
    /\ hd_error (ys r) = Some [1; -1]
  | None => False
  end.
Proof.
  destruct (DormandPrince powStandIn 12 scenarioB (0, 4) [1; -1]) as [r|] eqn:E.
  - assert (N : err r = None).
    { pose proof E as E'. vm_compute in E'. injection E' as <-. reflexivity. }
    split; [reflexivity|]. split; [exact N|].
    exact (trajectory_increasing_to_xEnd powStandIn 12 dormandPrince scenarioB 0 4 [1; -1]
             r eq_refl E N).
  - vm_compute in E. discriminate E.
Defined.

(** C1.  A successful call of [DormandPrince] over [x0 < xEnd]: the
    returned [xs] is strictly increasing, [xs[i] < xs[i+1]] for every [i];
    its first element is [x0]; its last element [==] [xEnd], no tolerance
    being involved; [ys] runs parallel to [xs], with as many entries, and
    its first entry is [y0].  The state vector may have any length, and
    [math.Pow] and the derivative are arbitrary. *)
Theorem successful_call_is_increasing pow_core fuel dydxFunc x0 xEnd y0 r :
  (x0 <? xEnd) = true ->
  DormandPrince pow_core fuel dydxFunc (x0, xEnd) y0 = Some r ->
  err r = None ->
  (forall i, (S i < length (xs r))%nat ->
             (Go.idx (xs r) i <? Go.idx (xs r) (S i)) = true)
  /\ hd_error (xs r) = Some x0
  /\ (last (xs r) 0 =? xEnd) = true
  /\ length (ys r) = length (xs r)
  /\ hd_error (ys r) = Some y0.
Proof.
  intros L H E. unfold DormandPrince, rungeKuttaIntegrate in H. cbn [fst snd] in H.
  destruct (Trajectory.integrateLoop_trajectory _ _ _ _ _ _ _ _ _ _ _ _ H E)
    as (R1 & [t1 R2] & [t2 R3] & R4 & R5).
  - intros i Hi. cbn in Hi. lia.
  - discriminate.
  - reflexivity.
  - now apply F64.ltb_leb.
  - reflexivity.
  - rewrite R2, R3 in *. repeat split; auto.
Qed.

Lemma successful_call_is_increasing_witness :
  match DormandPrince powStandIn 12 scenarioB (0, 2) [1; -1] with
  | Some r =>
    (0 <? 2) = true /\ err r = None
    /\ (forall i, (S i < length (xs r))%nat ->
                  (Go.idx (xs r) i <? Go.idx (xs r) (S i)) = true)
    /\ hd_error (xs r) = Some 0
    /\ (last (xs r) 0 =? 2) = true
    /\ length (ys r) = length (xs r)
    /\ hd_error (ys r) = Some [1; -1]
  | None => False
  end.
Proof.
  destruct (DormandPrince powStandIn 12 scenarioB (0, 2) [1; -1]) as [r|] eqn:E.
  - assert (N : err r = None).
    { pose proof E as E'. vm_compute in E'. injection E' as <-. reflexivity. }
    split; [reflexivity|]. split; [exact N|].
    exact (successful_call_is_increasing powStandIn 12 scenarioB 0 2 [1; -1] r
             eq_refl E N).
  - vm_compute in E. discriminate E.
Defined.

(** * Rejected steps: the step size shrinks to the floor *)

Module Rejection.
Import Round Round2 Succ Val NonFinite Shrink.
Local Open Scope Z_scope.

Lemma neg_infinity_lt x : ffin x -> (neg_infinity <? x)%float = true.
Proof.
  intros F. apply Order.ltb_true. repeat split; auto using ffin_nan.
  unfold Order.K. pose proof (key_fin _ F). left.
  change (Prim2SF neg_infinity) with (S754_infinity true). cbn. lia.
Qed.

Lemma nlt_neg_infinity x : (x <? neg_infinity)%float = false.
Proof.
  apply Order.ltb_false. destruct (is_nan x) eqn:N; [auto|]. right; right.
  unfold Order.K. change (Prim2SF neg_infinity) with (S754_infinity true).
  destruct (Prim2SF x) as [s|[]| |[] m e]; unfold Key.kle, Key.klt, Key.keq; cbn; lia.
Qed.

(** [max(safety*p, minFactor)] lies between 0.2 and 0.9 when [p <= 1]. *)
Lemma rejectFactor_bounds pow_core order norm :
  (Pow pow_core norm (exponent order) <=? 1)%float = true ->
  let f := rejectFactor pow_core order norm in
  ffin f /\ 0 < fv f <= fv safety.
Proof.
  intros L f. subst f. unfold rejectFactor. cbv zeta. revert L.
  generalize dependent (Pow pow_core norm (exponent order)). intros p L.
  destruct fv_minFactor as [Fm Bm]. destruct fv_safety as [Fs Es]. destruct fv_1 as [F1 E1].
  set (s := (safety * p)%float).
  assert (S : s = neg_infinity \/ (ffin s /\ fv s <= fv safety)).
  { destruct (classify p) as [F|[E|[E|E]]].
    - apply (le_fin p 1 F F1) in L. rewrite E1 in L.
      destruct (mul_Rnd safety p Fs F) as (V & EV & R). fold s in R.
      assert (PB : 0 < p2 bias) by reflexivity.
      assert (PS : 0 < fv safety) by (rewrite Es; reflexivity).
      assert (LV : V <= fv safety) by nia.
      destruct (Rnd_ge _ _ (fv safety) R (valid_srepr _ Fs (fvalid _)) LV) as [J|[F' L']].
      + left. apply Prim2SF_inj. rewrite J. reflexivity.
      + right. split; [exact F'|exact L'].
    - rewrite E in L. destruct (Bool.diff_false_true L).
    - rewrite E in L. destruct (Bool.diff_false_true L).
    - left. subst s. rewrite E. reflexivity. }
  unfold Go.max.
  destruct (is_nan minFactor || (s <? minFactor))%float eqn:C; [auto|].
  apply orb_false_elim in C. destruct C as [_ C].
  assert (ffin s /\ 0 < fv s <= fv safety) as G.
  { destruct S as [E|[F B]].
    - rewrite E in C. rewrite neg_infinity_lt in C by exact Fm. discriminate.
    - apply (nlt_fin _ _ F Fm) in C. split; [exact F|lia]. }
  destruct (is_nan s || (minFactor <? s) || negb (s =? 0))%float; [exact G|].
  destruct (get_sign s); auto.
Qed.

Lemma ninf_eq x : Prim2SF x = S754_infinity true -> x = neg_infinity.
Proof. intros H. apply Prim2SF_inj. rewrite H. reflexivity. Qed.

Lemma lt_ffin_r x y : (x <? y)%float = true -> ffin x -> ffin y \/ y = infinity.
Proof.
  intros L F. destruct (classify y) as [Fy|[->|[->| ->]]]; auto.
  - apply F64.ltb_not_nan in L. destruct L as [_ L]. discriminate.
  - rewrite nlt_neg_infinity in L. discriminate.
Qed.

(** The step size of an attempt, after the clamp, is positive and not
    above the step size before the clamp. *)
Lemma clamp_step x h xMax :
  ffin x -> (x <? xMax)%float = true -> (h <? minStep x)%float = false ->
  ffin (snd (clamp x h xMax)) ->
  0 < fv (snd (clamp x h xMax))
  /\ (ffin h -> 10 * tiny <= fv h /\ fv (snd (clamp x h xMax)) <= fv h).
Proof.
  intros Fx L N. unfold clamp. pose proof tiny_pos as T.
  destruct (xMax <? x + h)%float eqn:C; cbn [snd]; intros Fc.
  - assert (FM : ffin xMax).
    { destruct (lt_ffin_r _ _ L Fx) as [F|E]; [exact F|].
      rewrite E in C. rewrite pin_nlt in C by (now right). discriminate. }
    pose proof (proj1 (lt_fin _ _ Fx FM) L) as LV.
    pose proof (sub_Rnd _ _ FM Fx) as R.
    assert (G : tiny <= fv xMax - fv x) by (apply valid_gap; auto using fvalid).
    split.
    + destruct (Rnd_le_pos _ _ _ R ltac:(lia) repr_tiny G) as [J|(_ & _ & B)].
      * unfold ffin in Fc. rewrite J in Fc. destruct Fc.
      * unfold fv. lia.
    + intros Fh. destruct (minStep_floor x h Fx Fh N) as [B _]. split; [exact B|].
      destruct (Z_le_gt_dec (fv xMax - fv x) (fv h)) as [K|K].
      * destruct (Rnd_ge _ _ (fv h) R (valid_srepr _ Fh (fvalid h)) K) as [J|[_ B']].
        -- unfold ffin in Fc. rewrite J in Fc. destruct Fc.
        -- exact B'.
      * exfalso. pose proof (add_Rnd _ _ Fx Fh) as R'.
        destruct (Rnd_ge _ _ (fv xMax) R' (valid_srepr _ FM (fvalid xMax)) ltac:(lia))
          as [J|[F' B']].
        -- rewrite (ninf_eq _ J), nlt_neg_infinity in C. discriminate.
        -- apply (lt_fin _ _ FM F') in C. unfold fv in *. lia.
  - split.
    + destruct (minStep_floor x h Fx Fc N) as [B _]. lia.
    + intros Fh. destruct (minStep_floor x h Fx Fh N) as [B _]. split; [exact B|lia].
Qed.

Lemma minStep_cases_fin x : ffin x -> ffin (minStep x) \/ minStep x = infinity.
Proof.
  intros F. destruct (minStep_cases x F) as [J|(Fm & _)]; [right|now left].
  now apply pinf_eq.
Qed.

Lemma safety_le_1 : fv safety <= p2 bias.
Proof. vm_compute. discriminate. Qed.

Section Turns.

Variable pow_core : float -> float -> float.
Variable rk : rungeKutta.
Variable dydxFunc : DydxFunc.
Variable x : float.
Variable y : list float.
Variable xMax : float.
Variable tol : tolerance.
Hypothesis L : (x <? xMax)%float = true.

Lemma rejected_finite h :
  (h <? minStep x)%float = false -> rejects pow_core rk dydxFunc x y xMax tol h ->
  ffin x /\ ffin (snd (clamp x h xMax)).
Proof.
  intros N (Hf & _ & _). cbv zeta in Hf. apply is_finite_ffin in Hf.
  unfold attemptNorm in Hf.
  destruct (clamp x h xMax) as [xP hc] eqn:C.
  destruct (yPlusH rk dydxFunc x y hc) as [yP te].
  apply errorNorm_fin in Hf. cbn [snd]. split; [|exact Hf].
  destruct (Trajectory.lt_ffin _ _ L) as [F|E]; [exact F|exfalso].
  subst x. rewrite Trajectory.minStep_neg_infinity in N.
  unfold clamp in C.
  destruct (classify h) as [Fh|[E|[E|E]]].
  - rewrite (lt_pinf h infinity Fh) in N by reflexivity. discriminate.
  - subst h. change (neg_infinity + nan)%float with nan in C.
    rewrite (proj2 (Order.ltb_false xMax nan)) in C by (right; left; reflexivity).
    injection C as _ <-. exact Hf.
  - subst h. change (neg_infinity + infinity)%float with nan in C.
    rewrite (proj2 (Order.ltb_false xMax nan)) in C by (right; left; reflexivity).
    injection C as _ <-. exact Hf.
  - subst h. change (neg_infinity + neg_infinity)%float with neg_infinity in C.
    rewrite nlt_neg_infinity in C. injection C as _ <-. exact Hf.
Qed.

(** A rejected attempt: the loop goes round with a smaller step size. *)
Lemma rejected_turn h rejected :
  (h <? minStep x)%float = false -> rejects pow_core rk dydxFunc x y xMax tol h ->
  let h' := (snd (clamp x h xMax)
             * rejectFactor pow_core (errorOrder rk)
                            (attemptNorm pow_core rk dydxFunc x y xMax tol h))%float in
  stepTurn pow_core rk dydxFunc x y xMax tol h rejected = Continue h' true
  /\ ffin h' /\ 0 <= fv h' /\ (ffin h -> fv h' < fv h).
Proof.
  intros N R. destruct (rejected_finite h N R) as [Fx Fc].
  destruct (clamp_step x h xMax Fx L N Fc) as [Pc Bh].
  destruct R as (Hf & H1 & Hp).
  destruct (rejectFactor_bounds _ _ _ Hp) as (Ff & Pf & Lf).
  pose proof safety_le_1 as S1.
  destruct (mul_le_self _ _ Fc Ff ltac:(lia) ltac:(lia)) as (Fh' & Bh').
  cbv zeta. split; [|split; [exact Fh'|split; [lia|]]].
  - unfold stepTurn. rewrite N. unfold attemptNorm in *.
    destruct (clamp x h xMax) as [xP hc].
    destruct (yPlusH rk dydxFunc x y hc) as [yP te].
    unfold control. cbv zeta. cbn [snd].
    now rewrite (F64.leb_nltb _ _ H1).
  - intros Fh. destruct (Bh Fh) as [B1 B2].
    destruct (Z.eq_dec (fv (snd (clamp x h xMax))) (fv h)) as [E|E]; [|lia].
    rewrite <- E. apply mul_shrinks; auto. lia.
Qed.

Lemma stepLoop_too_small fuel h rejected :
  (h <? minStep x)%float = true ->
  stepLoop pow_core (S fuel) rk dydxFunc x y xMax tol h rejected
  = Some (StepErr ErrTooSmallStep).
Proof. intros N. cbn [stepLoop]. unfold stepTurn. now rewrite N. Qed.

(** From a finite step size, rejection after rejection ends in
    [ErrTooSmallStep]. *)
Lemma stepLoop_fails (n : nat) : forall h rejected,
  ffin h -> fv h < Z.of_nat n ->
  (forall k h' r',
      attempt pow_core k rk dydxFunc x y xMax tol h rejected = Some (h', r') ->
      (h' <? minStep x)%float = false ->
      rejects pow_core rk dydxFunc x y xMax tol h') ->
  exists N, forall fuel, (N <= fuel)%nat ->
    stepLoop pow_core fuel rk dydxFunc x y xMax tol h rejected
    = Some (StepErr ErrTooSmallStep).
Proof.
  induction n as [|n IH]; intros h rejected Fh Bh A;
    destruct (h <? minStep x)%float eqn:N.
  1,3: exists 1%nat; intros [|fuel] Hf; [lia|now apply stepLoop_too_small].
  - destruct (rejected_turn h rejected N (A 0%nat h rejected eq_refl N)) as (_ & _ & P & D).
    specialize (D Fh). lia.
  - destruct (rejected_turn h rejected N (A 0%nat h rejected eq_refl N)) as (T & Fh' & P & D).
    specialize (D Fh).
    destruct (IH _ true Fh' ltac:(lia)) as [N' HN'].
    + intros k h' r' Hk. apply (A (S k) h' r'). cbn [attempt]. now rewrite T.
    + exists (S N'). intros [|fuel] Hf; [lia|]. cbn [stepLoop]. rewrite T.
      apply HN'. lia.
Qed.

(** The same from any step size. *)
Lemma stepLoop_always_rejected h :
  alwaysRejects pow_core rk dydxFunc x y xMax tol h ->
  exists N, forall fuel, (N <= fuel)%nat ->
    stepLoop pow_core fuel rk dydxFunc x y xMax tol h false
    = Some (StepErr ErrTooSmallStep).
Proof.
  intros A. destruct (h <? minStep x)%float eqn:N.
  - exists 1%nat; intros [|fuel] Hf; [lia|now apply stepLoop_too_small].
  - destruct (rejected_turn h false N (A 0%nat h false eq_refl N)) as (T & Fh' & P & _).
    destruct (stepLoop_fails (S (Z.to_nat (fv (snd (clamp x h xMax)
                * rejectFactor pow_core (errorOrder rk)
                    (attemptNorm pow_core rk dydxFunc x y xMax tol h))%float)))
                _ true Fh' ltac:(lia)) as [N' HN'].
    + intros k h' r' Hk. apply (A (S k) h' r'). cbn [attempt]. now rewrite T.
    + exists (S N'). intros [|fuel] Hf; [lia|]. cbn [stepLoop]. rewrite T.
      apply HN'. lia.
Qed.

(** The step size at the head of a rejected attempt is not NaN and not
    -Inf. *)
Lemma rejected_head h :
  (h <? minStep x)%float = false ->
  rejects pow_core rk dydxFunc x y xMax tol h ->
  ffin h \/ h = infinity.
Proof.
  intros N R. destruct (rejected_finite h N R) as [Fx Fc].
  destruct (classify h) as [F|[E|[E|E]]]; auto; exfalso; subst h.
  - unfold clamp in Fc.
    assert (E : (x + nan)%float = nan).
    { apply F64.is_nan_eq, F64.is_nan_spec. rewrite add_spec.
      now destruct (Prim2SF x) as [s|[]| |s m e]. }
    rewrite E in Fc.
    rewrite (proj2 (Order.ltb_false xMax nan)) in Fc by (right; left; reflexivity).
    exact Fc.
  - destruct (minStep_cases_fin x Fx) as [Fm|Em].
    + rewrite (neg_infinity_lt _ Fm) in N. discriminate N.
    + rewrite Em in N. discriminate N.
Qed.

End Turns.

(** The checker of attempts is sound. *)
Lemma rejectsUpTo_sound pow_core rk dydxFunc x y xMax tol n : forall h rejected,
  rejectsUpTo pow_core n rk dydxFunc x y xMax tol h rejected = true ->
  forall k h' r',
    attempt pow_core k rk dydxFunc x y xMax tol h rejected = Some (h', r') ->
    (h' <? minStep x)%float = false ->
    rejects pow_core rk dydxFunc x y xMax tol h'.
Proof.
  induction n as [|n IH]; intros h rejected C k h' r' A N; [discriminate|].
  cbn [rejectsUpTo] in C. destruct k as [|k]; cbn [attempt] in A.
  - injection A as <- <-. rewrite N in C.
    apply andb_prop in C. destruct C as [C _].
    apply andb_prop in C. destruct C as [C C3].
    apply andb_prop in C. destruct C as [C1 C2].
    repeat split; assumption.
  - destruct (h <? minStep x)%float eqn:N0.
    + unfold stepTurn in A. rewrite N0 in A. discriminate.
    + apply andb_prop in C. destruct C as [_ C].
      destruct (stepTurn pow_core rk dydxFunc x y xMax tol h rejected) as [r|h1 r1];
        [discriminate|].
      exact (IH _ _ C _ _ _ A N).
Qed.

End Rejection.

(** X3.  A rejected attempt of [rungeKuttaStep] at [x < xMax]: when the
    error norm is finite and at least 1, and [math.Pow] takes a power of it
    that is at most 1, the loop goes round with [rejected] set and the step
    size [h * max(safety*pow, minFactor)], [h] being the size after the
    clamp; the new size is not negative and strictly below the one the
    attempt started with. *)
Theorem rejection_shrinks_step pow_core rk dydxFunc x y xMax tol h rejected :
  (x <? xMax) = true ->
  (h <? minStep x) = false ->
  rejects pow_core rk dydxFunc x y xMax tol h ->
  let h' := snd (clamp x h xMax)
            * rejectFactor pow_core (errorOrder rk)
                           (attemptNorm pow_core rk dydxFunc x y xMax tol h) in
  stepTurn pow_core rk dydxFunc x y xMax tol h rejected = Continue h' true
  /\ (0 <=? h') = true /\ (h' <? h) = true.
Proof.
  intros L N R h'.
  destruct (Rejection.rejected_turn pow_core rk dydxFunc x y xMax tol L h rejected N R)
    as (T & F & P & D).
  fold h' in T, F, P, D. split; [exact T|]. split.
  - apply Val.le_fin; [exact I|exact F|exact P].
  - destruct (Rejection.rejected_head pow_core rk dydxFunc x y xMax tol L h N R) as [Fh|E].
    + apply Val.lt_fin; auto.
    + rewrite E. now apply Val.lt_pinf.
Qed.

Lemma rejection_shrinks_step_witness :
  (1 <? 2) = true
  /\ (1e-6 <? minStep 1) = false
  /\ rejects powStandIn dormandPrince spikeDydx 1 [0] 2 defaultTol 1e-6
  /\ (let h' := snd (clamp 1 1e-6 2)
                * rejectFactor powStandIn (errorOrder dormandPrince)
                    (attemptNorm powStandIn dormandPrince spikeDydx 1 [0] 2 defaultTol 1e-6) in
      stepTurn powStandIn dormandPrince spikeDydx 1 [0] 2 defaultTol 1e-6 false
      = Continue h' true
      /\ (0 <=? h') = true /\ (h' <? 1e-6) = true).
Proof.
  assert (R : rejects powStandIn dormandPrince spikeDydx 1 [0] 2 defaultTol 1e-6)
    by (repeat split; vm_compute; reflexivity).
  split; [reflexivity|]. split; [reflexivity|]. split; [exact R|].
  exact (rejection_shrinks_step powStandIn dormandPrince spikeDydx 1 [0] 2 defaultTol
           1e-6 false eq_refl eq_refl R).
Defined.

(** X4.  When every attempt of a call of [rungeKuttaStep] at [x < xMax]
    is rejected in this way, the call does not loop for ever: it returns
    [ErrTooSmallStep]. *)
Theorem always_rejected_step_fails pow_core rk dydxFunc x y h xMax tol :
  (x <? xMax) = true ->
  alwaysRejects pow_core rk dydxFunc x y xMax tol h ->
  exists N, forall fuel, (N <= fuel)%nat ->
    rungeKuttaStep pow_core fuel rk dydxFunc x y h xMax tol
    = Some (StepErr ErrTooSmallStep).
Proof.
  intros L A. unfold rungeKuttaStep.
  now apply Rejection.stepLoop_always_rejected.
Qed.

Lemma always_rejected_step_fails_witness :
  (1 <? 2) = true
  /\ alwaysRejects powStandIn dormandPrince spikeDydx 1 [0] 2 defaultTol 1e-6
  /\ exists N, forall fuel, (N <= fuel)%nat ->
       rungeKuttaStep powStandIn fuel dormandPrince spikeDydx 1 [0] 1e-6 2 defaultTol
       = Some (StepErr ErrTooSmallStep).
Proof.
  assert (A : alwaysRejects powStandIn dormandPrince spikeDydx 1 [0] 2 defaultTol 1e-6).
  { intros k h rejected.
    apply (Rejection.rejectsUpTo_sound powStandIn dormandPrince spikeDydx 1 [0] 2
             defaultTol 200 1e-6 false).
    vm_compute. reflexivity. }
  split; [reflexivity|]. split; [exact A|].
  exact (always_rejected_step_fails powStandIn dormandPrince spikeDydx 1 [0] 1e-6 2
           defaultTol eq_refl A).
Defined.

(** X5.  An integration over [x0 < xEnd] in which every attempt of the
    first step is rejected with a finite error norm that is at least 1
    (of which [math.Pow] takes a power [-1/(q+1)] that is at most 1)
    terminates: with enough turns it returns [ErrTooSmallStep] and no
    trajectory.  A rejection with a norm that is NaN is another matter:
    it is not covered here, and the loop does not end on it. *)
Theorem always_rejected_integration_fails pow_core rk dydxFunc x0 xEnd y0 :
  (x0 <? xEnd) = true ->
  alwaysRejects pow_core rk dydxFunc x0 y0 xEnd defaultTol
                (getFirstStep pow_core rk dydxFunc (x0, xEnd) y0 defaultTol) ->
  exists N, forall fuel, (N <= fuel)%nat ->
    rungeKuttaIntegrate pow_core fuel rk dydxFunc (x0, xEnd) y0
    = Some {| xs := []; ys := []; err := Some ErrTooSmallStep |}.
Proof.
  intros L A.
  destruct (Rejection.stepLoop_always_rejected pow_core rk dydxFunc x0 y0 xEnd
              defaultTol L _ A) as [N HN].
  exists (S N). intros [|fuel] Hf; [lia|].
  unfold rungeKuttaIntegrate. cbn [fst snd integrateLoop]. rewrite L.
  unfold rungeKuttaStep. rewrite HN by lia. reflexivity.
Qed.

Lemma always_rejected_integration_fails_witness :
  (1 <? 2) = true
  /\ alwaysRejects powStandIn dormandPrince spikeDydx 1 [0] 2 defaultTol
       (getFirstStep powStandIn dormandPrince spikeDydx (1, 2) [0] defaultTol)
  /\ exists N, forall fuel, (N <= fuel)%nat ->
       DormandPrince powStandIn fuel spikeDydx (1, 2) [0]
       = Some {| xs := []; ys := []; err := Some ErrTooSmallStep |}.
Proof.
  assert (A : alwaysRejects powStandIn dormandPrince spikeDydx 1 [0] 2 defaultTol
                (getFirstStep powStandIn dormandPrince spikeDydx (1, 2) [0] defaultTol)).
  { intros k h rejected.
    apply (Rejection.rejectsUpTo_sound powStandIn dormandPrince spikeDydx 1 [0] 2
             defaultTol 200 _ false).
    vm_compute. reflexivity. }
  split; [reflexivity|]. split; [exact A|].
  exact (always_rejected_integration_fails powStandIn dormandPrince spikeDydx 1 2 [0]
           eq_refl A).
Defined.



(** * Edge behaviour of the step controller *)

Module MinMax2.

Lemma max_nan x y : is_nan (Go.max x y) = is_nan x || is_nan y.
Proof.
  unfold Go.max.
  destruct (is_nan y) eqn:Ny; cbn [orb].
  - rewrite Ny. now rewrite orb_true_r.
  - rewrite orb_false_r.
    destruct (x <? y) eqn:L; [rewrite Ny; float_order|].
    destruct (is_nan x) eqn:Nx; cbn [orb]; [assumption|].
    destruct (y <? x); cbn [orb]; [assumption|].
    destruct (negb (x =? 0)); [assumption|].
    destruct (get_sign x); assumption.
Qed.

Lemma max_ge x y :
  is_nan (Go.max x y) = false ->
  (x <=? Go.max x y) = true /\ (y <=? Go.max x y) = true.
Proof.
  rewrite max_nan. intros N. apply orb_false_elim in N. destruct N as [Nx Ny].
  unfold Go.max. rewrite Nx, Ny. cbn [orb].
  destruct (x <? y) eqn:L1; [split; float_order|].
  destruct (y <? x) eqn:L2; cbn [orb]; [split; float_order|].
  destruct (negb (x =? 0)); [split; float_order|].
  destruct (get_sign x); split; float_order.
Qed.

Lemma leb_trans x y z : (x <=? y) = true -> (y <=? z) = true -> (x <=? z) = true.
Proof. intros H1 H2. float_order. Qed.

Lemma leb_ltb_trans x y z : (x <=? y) = true -> (y <? z) = true -> (x <? z) = true.
Proof. intros H1 H2. float_order. Qed.

End MinMax2.

(** X6.  At a finite [x], a step size that is zero or negative is below
    the floor: [rungeKuttaStep] returns [ErrTooSmallStep] at once. *)
Theorem nonpositive_step_fails pow_core fuel rk dydxFunc x y h xMax tol :
  is_finite x = true ->
  (h <=? 0) = true ->
  rungeKuttaStep pow_core (S fuel) rk dydxFunc x y h xMax tol
  = Some (StepErr ErrTooSmallStep).
Proof.
  intros Fx Hh. unfold rungeKuttaStep. apply Rejection.stepLoop_too_small.
  exact (MinMax2.leb_ltb_trans _ _ _ Hh
           (Val.minStep_pos x (Shrink.is_finite_ffin x Fx))).
Qed.

Lemma nonpositive_step_fails_witness :
  is_finite 0 = true /\ (0 <=? 0) = true
  /\ rungeKuttaStep powStandIn 1 dormandPrince scenarioB 0 [1; -1] 0 4 defaultTol
     = Some (StepErr ErrTooSmallStep).
Proof.
  exact (conj eq_refl (conj eq_refl
           (nonpositive_step_fails powStandIn 0 dormandPrince scenarioB 0 [1; -1] 0 4
              defaultTol eq_refl eq_refl))).
Defined.

(** X7.  The factor by which an accepted step proposes to change the
    step size is NaN or at most [maxFactor = 10], and at most 1 when an
    attempt of the same step was rejected before. *)
Theorem accept_factor_bounded pow_core errorOrder errorNorm rejected :
  is_nan (acceptFactor pow_core errorOrder errorNorm rejected) = false ->
  (acceptFactor pow_core errorOrder errorNorm rejected <=? maxFactor) = true
  /\ (rejected = true ->
      (acceptFactor pow_core errorOrder errorNorm rejected <=? 1) = true).
Proof.
  unfold acceptFactor. cbv zeta.
  set (f := if errorNorm =? 0 then maxFactor
            else Go.min (safety * Pow pow_core errorNorm (exponent errorOrder)) maxFactor).
  assert (B : is_nan f = false -> (f <=? maxFactor) = true).
  { subst f. destruct (errorNorm =? 0); [reflexivity|].
    intros N. now apply MinMax.min_le in N. }
  destruct rejected.
  - intros N. pose proof N as N'. rewrite MinMax.min_nan in N'.
    apply orb_false_elim in N'. destruct N' as [_ Nf].
    apply MinMax.min_le in N. destruct N as [L1 Lf]. specialize (B Nf).
    split; [|intros _; exact L1].
    exact (MinMax2.leb_trans _ _ _ Lf B).
  - intros N. split; [now apply B|discriminate].
Qed.

Lemma accept_factor_bounded_witness :
  is_nan (acceptFactor powStandIn 4 0.5 true) = false
  /\ (acceptFactor powStandIn 4 0.5 true <=? maxFactor) = true
  /\ (true = true -> (acceptFactor powStandIn 4 0.5 true <=? 1) = true).
Proof.
  exact (conj eq_refl (accept_factor_bounded powStandIn 4 0.5 true eq_refl)).
Defined.

(** X8.  The factor by which a rejected attempt shrinks the step size
    is NaN or at least [minFactor = 0.2]. *)
Theorem reject_factor_floor pow_core errorOrder errorNorm :
  is_nan (rejectFactor pow_core errorOrder errorNorm) = false ->
  (minFactor <=? rejectFactor pow_core errorOrder errorNorm) = true.
Proof.
  unfold rejectFactor. intros N. now apply MinMax2.max_ge in N.
Qed.

Lemma reject_factor_floor_witness :
  is_nan (rejectFactor powStandIn 4 1e10) = false
  /\ (minFactor <=? rejectFactor powStandIn 4 1e10) = true.
Proof.
  exact (conj eq_refl (reject_factor_floor powStandIn 4 1e10 eq_refl)).
Defined.

(** * Shapes, and the empty state vector *)

Module Shape.

Lemma dp_length f x y h :
  length (fst (yPlusH dormandPrince f x y h)) = length y.
Proof.
  cbn [yPlusH dormandPrince]. unfold DP.yPlusH, DP.combine_b. cbn [fst].
  now rewrite length_map, length_seq.
Qed.

Section Loop.

Variable pow_core : float -> float -> float.
Variable rk : rungeKutta.
Variable dydxFunc : DydxFunc.

(** What [rungeKuttaStep] returns on success comes from one call of
    [yPlusH]. *)
Lemma stepLoop_ok tol fuel : forall x y xMax h rej xP newH yP te,
  stepLoop pow_core fuel rk dydxFunc x y xMax tol h rej = Some (StepOk xP newH yP te) ->
  exists hc, (yP, te) = yPlusH rk dydxFunc x y hc.
Proof.
  induction fuel as [|fuel IH]; intros x y xMax h rej xP newH yP te H; [discriminate|].
  cbn [stepLoop] in H.
  destruct (stepTurn pow_core rk dydxFunc x y xMax tol h rej) as [r|h' rej'] eqn:T.
  - injection H as ->. apply stepTurn_ok in T. destruct T as (_ & _ & E & _). eauto.
  - eapply IH, H.
Qed.

Hypothesis rk_length : forall x y h, length (fst (yPlusH rk dydxFunc x y h)) = length y.

Lemma integrateLoop_lengths xEnd tol n fuel : forall x y h xs0 ys0 r,
  length y = n -> Forall (fun v => length v = n) ys0 ->
  integrateLoop pow_core fuel rk dydxFunc xEnd tol x y h xs0 ys0 = Some r ->
  Forall (fun v => length v = n) (ys r).
Proof.
  induction fuel as [|fuel IH]; intros x y h xs0 ys0 r Hy Hys H; [discriminate|].
  cbn [integrateLoop] in H. destruct (x <? xEnd).
  - unfold rungeKuttaStep in H.
    destruct (stepLoop pow_core fuel rk dydxFunc x y xEnd tol h false)
      as [[xP newH yP te|e]|] eqn:S; [|injection H as <-; constructor|discriminate].
    destruct (stepLoop_ok _ _ _ _ _ _ _ _ _ _ _ S) as [hc E].
    assert (L : length yP = n).
    { rewrite <- Hy, <- (rk_length x y hc), <- E. reflexivity. }
    apply (IH _ _ _ _ _ _ L) in H; [exact H|].
    apply Forall_app. split; [exact Hys|]. constructor; [exact L|constructor].
  - injection H as <-. exact Hys.
Qed.

End Loop.

End Shape.

(** X9.  Every state vector that [DormandPrince] returns has the length
    of [y0]. *)
Theorem states_have_length_of_y0 pow_core fuel dydxFunc xspan y0 r :
  DormandPrince pow_core fuel dydxFunc xspan y0 = Some r ->
  Forall (fun v => length v = length y0) (ys r).
Proof.
  unfold DormandPrince, rungeKuttaIntegrate. cbv zeta.
  apply Shape.integrateLoop_lengths.
  - exact (Shape.dp_length dydxFunc).
  - reflexivity.
  - constructor; [reflexivity|constructor].
Qed.

Lemma states_have_length_of_y0_witness :
  match DormandPrince powStandIn 12 scenarioB (0, 4) [1; -1] with
  | Some r => Forall (fun v => length v = 2%nat) (ys r)
  | None => False
  end.
Proof.
  destruct (DormandPrince powStandIn 12 scenarioB (0, 4) [1; -1]) as [r|] eqn:E.
  - exact (states_have_length_of_y0 powStandIn 12 scenarioB (0, 4) [1; -1] r E).
  - vm_compute in E. discriminate E.
Defined.

Module Empty.

Import Val NonFinite.

Lemma add_nan_r x : x + nan = nan.
Proof.
  apply F64.is_nan_eq, F64.is_nan_spec. rewrite add_spec.
  now destruct (Prim2SF x) as [s|[]| |s m e].
Qed.

Lemma nlt_nan_r x : (x <? nan) = false.
Proof. apply Order.ltb_false. right; left; reflexivity. Qed.

Lemma nlt_nan_l x : (nan <? x) = false.
Proof. apply Order.ltb_false. left; reflexivity. Qed.

Lemma min_nan_l x : Go.min nan x = nan.
Proof. apply F64.is_nan_eq. now rewrite MinMax.min_nan. Qed.

Section Run.

Variable pow_core : float -> float -> float.
Variable dydxFunc : DydxFunc.

Lemma mul_nan_r x y : is_nan y = true -> is_nan (x * y) = true.
Proof.
  intros N. apply F64.is_nan_eq in N. subst y.
  apply F64.is_nan_spec. rewrite mul_spec.
  now destruct (Prim2SF x) as [s|[]| |s m e].
Qed.

(** A NaN guess [h0] makes the first step NaN. *)
Lemma firstFinish_nan errorOrder interval scale d1 h0 dydx0 dydx1 :
  is_nan h0 = true ->
  firstFinish pow_core errorOrder interval scale d1 h0 dydx0 dydx1 = nan.
Proof.
  intros N. unfold firstFinish. cbv zeta. unfold Go.min3.
  apply F64.is_nan_eq. rewrite !MinMax.min_nan, (mul_nan_r 100 h0 N). reflexivity.
Qed.

(** With no component the first step is NaN. *)
Lemma first_step_empty rk xspan tol :
  getFirstStep pow_core rk dydxFunc xspan [] tol = nan.
Proof.
  unfold getFirstStep, firstGuess. cbv beta iota zeta.
  apply firstFinish_nan. rewrite MinMax.min_nan.
  apply orb_true_iff. left. vm_compute. reflexivity.
Qed.

Lemma nan_turn_empty x xMax tol rejected :
  stepTurn pow_core dormandPrince dydxFunc x [] xMax tol nan rejected
  = Continue nan true.
Proof.
  unfold stepTurn, clamp. rewrite nlt_nan_l, add_nan_r, nlt_nan_r.
  reflexivity.
Qed.

Lemma nan_loop_empty x xMax tol fuel : forall rejected,
  stepLoop pow_core fuel dormandPrince dydxFunc x [] xMax tol nan rejected = None.
Proof.
  induction fuel as [|fuel IH]; intros rejected; [reflexivity|].
  cbn [stepLoop]. rewrite nan_turn_empty. apply IH.
Qed.

End Run.

End Empty.

(** X10.  With an empty [y0] and [x0 < xEnd], [DormandPrince] never
    returns: the first step size is NaN, the error norm of every attempt
    is NaN, and a NaN step size is never too small. *)
Theorem empty_state_never_returns pow_core fuel dydxFunc x0 xEnd :
  (x0 <? xEnd) = true ->
  DormandPrince pow_core fuel dydxFunc (x0, xEnd) [] = None.
Proof.
  intros L. unfold DormandPrince, rungeKuttaIntegrate. cbv zeta.
  rewrite Empty.first_step_empty. cbn [fst snd].
  destruct fuel as [|fuel]; [reflexivity|].
  cbn [integrateLoop]. rewrite L. unfold rungeKuttaStep.
  now rewrite Empty.nan_loop_empty.
Qed.

Lemma empty_state_never_returns_witness :
  (0 <? 4) = true /\ DormandPrince powStandIn 1000 scenarioB (0, 4) [] = None.
Proof.
  exact (conj eq_refl (empty_state_never_returns powStandIn 1000 scenarioB 0 4 eq_refl)).
Defined.

(** * The calls of the derivative *)

Module CallLog.

Import Mem.

(** The abscissae of the calls logged so far. *)
Definition abscissae (w : world) : list float := map fst (calls w).

(** A computation that calls [dydxFunc] at the abscissae [l], in order. *)
Definition callsAt {A} (m : M A) (l : list float) : Prop :=
  forall w, abscissae (snd (m w)) = abscissae w ++ l.

Lemma callsAt_ret {A} (a : A) : callsAt (ret a) [].
Proof. intros w. cbn. now rewrite app_nil_r. Qed.

Lemma callsAt_bind {A B} (m : M A) (f : A -> M B) l1 l2 :
  callsAt m l1 -> (forall a, callsAt (f a) l2) -> callsAt (bind m f) (l1 ++ l2).
Proof.
  intros Hm Hf w. unfold bind. specialize (Hm w). destruct (m w) as [a w1].
  cbn [snd] in Hm. rewrite Hf, Hm. now rewrite app_assoc.
Qed.

Lemma callsAt_make n : callsAt (make n) [].
Proof. intros w. cbn. now rewrite app_nil_r. Qed.

Lemma callsAt_load s : callsAt (load s) [].
Proof. intros w. cbn. now rewrite app_nil_r. Qed.

Lemma callsAt_store s v : callsAt (store s v) [].
Proof. intros w. unfold abscissae. cbn. now rewrite app_nil_r. Qed.

Lemma callsAt_mapM {A B} (f : A -> M B) (l : list A) :
  (forall a, callsAt (f a) []) -> callsAt (mapM f l) [].
Proof.
  intros Hf. induction l as [|a l IH]; cbn [mapM].
  - apply callsAt_ret.
  - apply (callsAt_bind _ _ [] []); [apply Hf|intros b].
    apply (callsAt_bind _ _ [] []); [exact IH|intros bs]. apply callsAt_ret.
Qed.

Lemma callsAt_callDydx f dydx x y : callsAt (callDydx f dydx x y) [x].
Proof.
  unfold callDydx.
  apply (callsAt_bind _ _ [] [x]); [apply callsAt_load|intros yv].
  apply (callsAt_bind _ _ [] [x]); [apply callsAt_load|intros d].
  apply (callsAt_bind _ _ [x] []); [|intros _; apply callsAt_store].
  intros w. unfold abscissae. cbn. now rewrite map_app.
Qed.

Lemma callsAt_forEach {A} (l : list A) (body : A -> M unit) (g : A -> float) :
  (forall a, callsAt (body a) [g a]) -> callsAt (forEach l body) (map g l).
Proof.
  intros H. induction l as [|a l IH]; cbn [forEach map].
  - apply callsAt_ret.
  - apply (callsAt_bind _ _ [g a] (map g l)); [apply H|intros _; exact IH].
Qed.

Lemma length_makes n {A} (l : list A) w :
  length (fst (mapM (fun _ => make n) l w)) = length l.
Proof.
  revert w. induction l as [|a l IH]; intros w; [reflexivity|].
  cbn [mapM]. unfold bind at 1. cbn [make]. unfold bind at 1.
  specialize (IH {| heap := heap w ++ [Go.make n]; calls := calls w; writes := writes w |}).
  destruct (mapM _ l _) as [bs w2]. cbn [fst] in *. cbn. now rewrite IH.
Qed.

End CallLog.

(** X11.  One call of [dormandPrince.yPlusH] calls the derivative seven
    times, at the abscissae [x + c[i]*h] for [i = 0, ..., 6] in this order:
    the last two calls are both at [x + 1*h]. *)
Theorem yPlusH_calls_at_stage_abscissae yPlusH te dydxFunc x y h w :
  CallLog.abscissae (snd (Mem.dpYPlusH yPlusH te dydxFunc x y h w))
  = CallLog.abscissae w
    ++ [x + 0 / 1 * h; x + 1 / 5 * h; x + 3 / 10 * h; x + 4 / 5 * h; x + 8 / 9 * h;
        x + 1 / 1 * h; x + 1 / 1 * h].
Proof.
  unfold Mem.dpYPlusH, Mem.bind at 1 2. cbn [Mem.load].
  pose proof (CallLog.length_makes (length (nth y (Mem.heap w) [])) DP.c w) as Lk.
  destruct (Mem.mapM _ DP.c w) as [k w1] eqn:Ek. cbn [fst] in Lk.
  assert (C1 : CallLog.abscissae w1 = CallLog.abscissae w).
  { pose proof (CallLog.callsAt_mapM (fun _ => Mem.make (length (nth y (Mem.heap w) [])))
                  DP.c (fun _ => CallLog.callsAt_make _) w) as H.
    rewrite Ek, app_nil_r in H. exact H. }
  rewrite <- C1.
  apply (CallLog.callsAt_bind _ _ [] _ (CallLog.callsAt_make _)). intros yItp.
  rewrite <- (app_nil_r [_; _; _; _; _; _; _]).
  apply CallLog.callsAt_bind.
  - rewrite Lk.
    apply (CallLog.callsAt_forEach (seq 0 (length DP.c)) _ (DP.xItp float64 x h)).
    intros i.
    apply (CallLog.callsAt_bind _ _ [] [_]);
      [apply CallLog.callsAt_mapM; intros s; apply CallLog.callsAt_load|intros kv].
    apply (CallLog.callsAt_bind _ _ [] [_]); [apply CallLog.callsAt_store|intros _].
    apply CallLog.callsAt_callDydx.
  - intros _.
    apply (CallLog.callsAt_bind _ _ [] []);
      [apply CallLog.callsAt_mapM; intros s; apply CallLog.callsAt_load|intros kv].
    apply (CallLog.callsAt_bind _ _ [] []); [apply CallLog.callsAt_store|intros _].
    apply (CallLog.callsAt_bind _ _ [] []); [apply CallLog.callsAt_load|intros t].
    apply CallLog.callsAt_store.
Qed.

(** * NaN step sizes *)

Module NaN.

Import Val NonFinite.

Lemma add_nan_l x : nan + x = nan.
Proof.
  apply F64.is_nan_eq, F64.is_nan_spec. rewrite add_spec. reflexivity.
Qed.

Lemma mul_nan_l x : nan * x = nan.
Proof.
  apply F64.is_nan_eq, F64.is_nan_spec. rewrite mul_spec. reflexivity.
Qed.

Lemma sub_nan_r x : x - nan = nan.
Proof.
  apply F64.is_nan_eq, F64.is_nan_spec. rewrite sub_spec.
  now destruct (Prim2SF x) as [s|[]| |s m e].
Qed.

Lemma div_nan_l x : nan / x = nan.
Proof.
  apply F64.is_nan_eq, F64.is_nan_spec. rewrite div_spec. reflexivity.
Qed.

Lemma div_nan_r x : x / nan = nan.
Proof.
  apply F64.is_nan_eq, F64.is_nan_spec. rewrite div_spec.
  now destruct (Prim2SF x) as [s|[]| |s m e].
Qed.

Lemma max_nan_l x : Go.max nan x = nan.
Proof. apply F64.is_nan_eq. now rewrite MinMax2.max_nan. Qed.

Lemma min_nan_r x : Go.min x nan = nan.
Proof. apply F64.is_nan_eq. rewrite MinMax.min_nan. apply orb_true_r. Qed.

(** A sum with a NaN term is NaN. *)
Lemma fold_nan_acc (g : nat -> float) l :
  fold_left (fun acc j => acc + g j) l nan = nan.
Proof. induction l as [|j l IH]; [reflexivity|]. cbn [fold_left]. now rewrite add_nan_l. Qed.

Lemma fold_nan (g : nat -> float) i l : forall a,
  In i l -> g i = nan -> fold_left (fun acc j => acc + g j) l a = nan.
Proof.
  induction l as [|j l IH]; intros a H N; [destruct H|].
  destruct H as [E|H]; cbn [fold_left].
  - subst j. rewrite N, Empty.add_nan_r. apply fold_nan_acc.
  - now apply IH.
Qed.

Section Run.

Variable pow_core : float -> float -> float.

Lemma Pow_nan y : (y =? 0) = false -> (y =? 1) = false -> Pow pow_core nan y = nan.
Proof. intros H0 H1. unfold Pow. rewrite H0, H1. reflexivity. Qed.

(** The norm of a vector with a NaN component. *)
Lemma norm_nan (g : nat -> float) n i d :
  (i < n)%nat -> g i = nan ->
  PrimFloat.sqrt (fold_left (fun acc j => acc + Pow pow_core (g j) 2) (seq 0 n) 0 / d) = nan.
Proof.
  intros Hi N.
  rewrite (fold_nan (fun j => Pow pow_core (g j) 2) i).
  - now rewrite div_nan_l.
  - apply in_seq. lia.
  - rewrite N. now apply Pow_nan.
Qed.

Variable rk : rungeKutta.
Variable dydxFunc : DydxFunc.

(** With a NaN step size an attempt is rejected, and the next step size
    is NaN. *)
Lemma nan_size_turn x y xMax tol rejected :
  stepTurn pow_core rk dydxFunc x y xMax tol nan rejected = Continue nan true.
Proof.
  unfold stepTurn, clamp.
  rewrite Empty.nlt_nan_l, Empty.add_nan_r, Empty.nlt_nan_r.
  destruct (yPlusH rk dydxFunc x y nan) as [yP te].
  unfold control. cbv zeta.
  rewrite (pin_nlt _ 1 (errorNorm_pin pow_core te (stepScale tol y yP) nan (fun F => F))).
  now rewrite mul_nan_l.
Qed.

Lemma nan_size_loop x y xMax tol fuel : forall rejected,
  stepLoop pow_core fuel rk dydxFunc x y xMax tol nan rejected = None.
Proof.
  induction fuel as [|fuel IH]; intros rejected; [reflexivity|].
  cbn [stepLoop]. rewrite nan_size_turn. apply IH.
Qed.

End Run.

End NaN.

(** X12.  Started with a NaN step size, [rungeKuttaStep] never returns,
    whatever the derivative and the Runge-Kutta scheme are: NaN is never
    below the minimum step, the error norm of the attempt is NaN, the
    attempt is rejected and the next step size is NaN again. *)
Theorem nan_step_size_never_returns pow_core fuel rk dydxFunc x y xMax tol :
  rungeKuttaStep pow_core fuel rk dydxFunc x y nan xMax tol = None.
Proof. unfold rungeKuttaStep. apply NaN.nan_size_loop. Qed.

(** X13.  If the derivative at [(x0, y0)] has a NaN component and
    [x0 < xEnd], [DormandPrince] never returns: [getFirstStep] yields NaN,
    and the first step runs for ever on it. *)
Theorem nan_derivative_at_start_never_returns pow_core fuel dydxFunc x0 xEnd y0 i :
  (x0 <? xEnd) = true ->
  is_nan (Go.idx (call dydxFunc (length y0) x0 y0) i) = true ->
  DormandPrince pow_core fuel dydxFunc (x0, xEnd) y0 = None.
Proof.
  intros L N. apply F64.is_nan_eq in N.
  assert (Hi : (i < length y0)%nat).
  { destruct (Nat.lt_ge_cases i (length y0)) as [H|H]; [exact H|exfalso].
    unfold Go.idx in N. rewrite nth_overflow in N by (now rewrite FirstStep.call_length).
    discriminate N. }
  assert (H : getFirstStep pow_core dormandPrince dydxFunc (x0, xEnd) y0 defaultTol = nan).
  { unfold getFirstStep, firstGuess. cbv beta iota zeta. unfold firstFinish. cbv zeta.
    cbn [fst snd].
    set (dydx0 := call dydxFunc (length y0) x0 y0) in *.
    set (scale := map _ y0).
    assert (Ls : length scale = length y0) by (subst scale; now rewrite length_map).
    assert (Ld : length dydx0 = length y0) by apply FirstStep.call_length.
    rewrite Ls, Ld.
    rewrite (NaN.norm_nan pow_core (fun j => Go.idx dydx0 j / Go.idx scale j) (length y0) i)
      by (auto; rewrite N; apply NaN.div_nan_l).
    set (h0 := Go.min _ _).
    rewrite (NaN.norm_nan pow_core
               (fun j => (Go.idx (call dydxFunc (length y0) (x0 + h0)
                                       (map (fun i0 => Go.idx y0 i0 + h0 * Go.idx dydx0 i0)
                                            (seq 0 (length y0)))) j
                          - Go.idx dydx0 j) / Go.idx scale j) (length y0) i)
      by (auto; rewrite N, NaN.sub_nan_r; apply NaN.div_nan_l).
    change (nan <=? 1e-15) with false. cbn [andb].
    rewrite NaN.div_nan_l, NaN.max_nan_l, NaN.div_nan_r.
    rewrite NaN.Pow_nan by reflexivity.
    unfold Go.min3. now rewrite NaN.min_nan_r, Empty.min_nan_l. }
  unfold DormandPrince, rungeKuttaIntegrate. cbv zeta. rewrite H. cbn [fst snd].
  destruct fuel as [|fuel]; [reflexivity|].
  cbn [integrateLoop]. rewrite L. unfold rungeKuttaStep.
  now rewrite NaN.nan_size_loop.
Qed.

Lemma nan_derivative_at_start_never_returns_witness :
  (0 <? 1) = true
  /\ is_nan (Go.idx (call nanDydx (length [0]) 0 [0]) 0) = true
  /\ DormandPrince powStandIn 1000 nanDydx (0, 1) [0] = None.
Proof.
  exact (conj eq_refl (conj eq_refl
           (nan_derivative_at_start_never_returns powStandIn 1000 nanDydx 0 1 [0] 0%nat
              eq_refl eq_refl))).
Defined.

Module Finite.

Import Val NonFinite.

Lemma ffin_is_finite x : ffin x -> is_finite x = true.
Proof.
  intros F. unfold is_finite, is_infinity. rewrite (ffin_nan x F). cbn [orb].
  apply negb_true_iff. apply Order.eqb_false. right; right.
  destruct (abs_fin x F) as [Fa _]. pose proof (key_fin _ Fa) as K.
  unfold Order.K, Key.keq. change (Prim2SF infinity) with (S754_infinity false).
  cbn [Key.key fst snd]. lia.
Qed.

End Finite.

(** X14.  An attempt is accepted only with a finite step size: when a
    turn of [rungeKuttaStep] returns a step, the [h] of the attempt, after
    the clamp, is neither NaN nor infinite. *)
Theorem accepted_step_is_finite pow_core rk dydxFunc x y xMax tol h rejected
        xPlusH newH yPlusH te :
  stepTurn pow_core rk dydxFunc x y xMax tol h rejected
  = Return (StepOk xPlusH newH yPlusH te) ->
  is_finite (snd (clamp x h xMax)) = true.
Proof.
  intros T. apply stepTurn_ok in T. destruct T as (_ & _ & E & C).
  unfold control in C. cbv zeta in C.
  destruct (errorNorm pow_core te (stepScale tol y yPlusH) (snd (clamp x h xMax)) <? 1)
    eqn:A; [|discriminate C].
  apply Finite.ffin_is_finite. now apply NonFinite.errorNorm_accept in A.
Qed.

Lemma accepted_step_is_finite_witness :
  match stepTurn powStandIn dormandPrince scenarioB 0 [1; -1] 4 defaultTol 0.01 false with
  | Return (StepOk _ _ _ _) => is_finite (snd (clamp 0 0.01 4)) = true
  | _ => False
  end.
Proof.
  destruct (stepTurn powStandIn dormandPrince scenarioB 0 [1; -1] 4 defaultTol 0.01 false)
    as [[xPlusH newH yPlusH te|e]|h' r'] eqn:E.
  - exact (accepted_step_is_finite powStandIn dormandPrince scenarioB 0 [1; -1] 4
             defaultTol 0.01 false xPlusH newH yPlusH te E).
  - vm_compute in E. discriminate E.
  - vm_compute in E. discriminate E.
Defined.

(** * The tableau *)

Module Consistency.

Import QArith_base Qcanon.
Local Open Scope Qc_scope.

(** The weights [b] sum to 1 and the error weights [e] to 0. *)
Lemma sum_b :
  Q2Qc (35 # 384) + Q2Qc (500 # 1113) + Q2Qc (125 # 192) + Q2Qc (-2187 # 6784)
  + Q2Qc (11 # 84) = 1.
Proof. apply Qc_is_canon. reflexivity. Qed.

Lemma sum_e :
  Q2Qc (-71 # 57600) + Q2Qc (71 # 16695) + Q2Qc (-71 # 1920) + Q2Qc (17253 # 339200)
  + Q2Qc (-22 # 525) + Q2Qc (1 # 40) = 0.
Proof. apply Qc_is_canon. reflexivity. Qed.

Lemma fill_const (v : list Qc) n x y :
  length v = n -> DP.fill exactQ (fun _ _ => v) n x y = v.
Proof.
  intros L. unfold DP.fill. rewrite firstn_app, L, Nat.sub_diag. cbn [firstn].
  rewrite app_nil_r. rewrite <- L. apply firstn_all.
Qed.

(** With a constant derivative every stage derivative is that constant. *)
Lemma stages_const (v : list Qc) x y h :
  length v = length y ->
  DP.stages exactQ (fun _ _ => v) x y h = repeat v 7.
Proof.
  intros L. unfold DP.stages. cbn [DP.c length seq repeat fold_left].
  unfold DP.stage.
  repeat (cbn [nth Go.upd]; rewrite ?repeat_length, fill_const by exact L).
  reflexivity.
Qed.

Lemma combine_b_const (v y : list Qc) h :
  DP.combine_b exactQ (repeat v 7) y h
  = map (fun i => nth i y 0 + h * nth i v 0) (seq 0 (length y)).
Proof.
  unfold DP.combine_b. apply map_ext. intros i.
  cbn -[Qcplus Qcmult Q2Qc nth]. unfold DP.coef, DP.at_. cbn -[Qcplus Qcmult Q2Qc].
  change (Q2Qc 0) with 0.
  transitivity (nth i y 0
                + (Q2Qc (35 # 384) + Q2Qc (500 # 1113) + Q2Qc (125 # 192)
                   + Q2Qc (-2187 # 6784) + Q2Qc (11 # 84)) * (h * nth i v 0));
    [ring|rewrite sum_b; ring].
Qed.

Lemma combine_e_const (v : list Qc) n :
  DP.combine_e exactQ (repeat v 7) n = repeat 0 n.
Proof.
  unfold DP.combine_e.
  transitivity (map (fun _ : nat => 0) (seq 0 n));
    [|now rewrite map_const, length_seq].
  apply map_ext. intros i.
  cbn -[Qcplus Qcmult Q2Qc nth]. unfold DP.coef, DP.at_. cbn -[Qcplus Qcmult Q2Qc].
  change (Q2Qc 0) with 0.
  transitivity ((Q2Qc (-71 # 57600) + Q2Qc (71 # 16695) + Q2Qc (-71 # 1920)
                 + Q2Qc (17253 # 339200) + Q2Qc (-22 # 525) + Q2Qc (1 # 40))
                * nth i v 0);
    [ring|rewrite sum_e; ring].
Qed.

(** The rows of [a] sum to [c]. *)
Lemma row_2 : Q2Qc (3 # 40) + Q2Qc (9 # 40) = Q2Qc (3 # 10).
Proof. apply Qc_is_canon. reflexivity. Qed.

Lemma row_3 : Q2Qc (44 # 45) + Q2Qc (-56 # 15) + Q2Qc (32 # 9) = Q2Qc (4 # 5).
Proof. apply Qc_is_canon. reflexivity. Qed.

Lemma row_4 :
  Q2Qc (19372 # 6561) + Q2Qc (-25360 # 2187) + Q2Qc (64448 # 6561) + Q2Qc (-212 # 729)
  = Q2Qc (8 # 9).
Proof. apply Qc_is_canon. reflexivity. Qed.

Lemma row_5 :
  Q2Qc (9017 # 3168) + Q2Qc (-355 # 33) + Q2Qc (46732 # 5247) + Q2Qc (49 # 176)
  + Q2Qc (-5103 # 18656) = 1.
Proof. apply Qc_is_canon. reflexivity. Qed.

(** So, over constant stage derivatives, the stage point of stage [i] is
    [y + c[i]*h*v]. *)
Lemma yItp_const (v y : list Qc) h i :
  (i < 7)%nat ->
  DP.yItp exactQ (repeat v 7) y h i
  = map (fun j => nth j y 0 + DP.coef exactQ DP.c i * h * nth j v 0) (seq 0 (length y)).
Proof.
  intros Hi. unfold DP.yItp. apply map_ext. intros j.
  destruct i as [|[|[|[|[|[|[|i]]]]]]]; try lia;
    cbn -[Qcplus Qcmult Q2Qc nth]; unfold DP.coef, DP.at_; cbn -[Qcplus Qcmult Q2Qc];
    change (Q2Qc 0) with 0; change (Q2Qc 1) with 1.
  - ring.
  - ring.
  - rewrite <- row_2. ring.
  - rewrite <- row_3. ring.
  - rewrite <- row_4. ring.
  - transitivity (nth j y 0
                  + (Q2Qc (9017 # 3168) + Q2Qc (-355 # 33) + Q2Qc (46732 # 5247)
                     + Q2Qc (49 # 176) + Q2Qc (-5103 # 18656)) * (h * nth j v 0));
      [ring|rewrite row_5; ring].
  - transitivity (nth j y 0
                  + (Q2Qc (35 # 384) + Q2Qc (500 # 1113) + Q2Qc (125 # 192)
                     + Q2Qc (-2187 # 6784) + Q2Qc (11 # 84)) * (h * nth j v 0));
      [ring|rewrite sum_b; ring].
Qed.

End Consistency.

(** X15.  The tableau is consistent.  In exact arithmetic, with a
    derivative that is constant, [dormandPrince.yPlusH] evaluates stage
    [i] at the state [y + c[i]*h*v] (the rows of [a] sum to [c]), returns
    [yPlusH = y + h*v] ([b] sums to 1) and the error estimate [te = 0]
    ([e] sums to 0). *)
Theorem tableau_exact_on_constant_derivative (v y : list Qcanon.Qc) (x h : Qcanon.Qc) :
  length v = length y ->
  let k := DP.stages exactQ (fun _ _ => v) x y h in
  (forall i, (i < 7)%nat ->
     DP.yItp exactQ k y h i
     = map (fun j => Qcanon.Qcplus (nth j y (zero exactQ))
                       (Qcanon.Qcmult (Qcanon.Qcmult (DP.coef exactQ DP.c i) h)
                                      (nth j v (zero exactQ))))
           (seq 0 (length y)))
  /\ fst (DP.yPlusH exactQ (fun _ _ => v) x y h)
     = map (fun j => Qcanon.Qcplus (nth j y (zero exactQ))
                       (Qcanon.Qcmult h (nth j v (zero exactQ))))
           (seq 0 (length y))
  /\ snd (DP.yPlusH exactQ (fun _ _ => v) x y h) = repeat (zero exactQ) (length y).
Proof.
  intros L k. subst k. unfold DP.yPlusH. cbn [fst snd].
  rewrite (Consistency.stages_const v x y h L).
  split; [intros i Hi; now apply Consistency.yItp_const|].
  split; [apply Consistency.combine_b_const|apply Consistency.combine_e_const].
Qed.

Lemma tableau_exact_on_constant_derivative_witness :
  let v := [Qcanon.Q2Qc (QArith_base.Qmake 3 1)] in
  let y := [Qcanon.Q2Qc (QArith_base.Qmake 1 2)] in
  let x := Qcanon.Q2Qc (QArith_base.Qmake 0 1) in
  let h := Qcanon.Q2Qc (QArith_base.Qmake 1 10) in
  length v = length y
  /\ fst (DP.yPlusH exactQ (fun _ _ => v) x y h)
     = map (fun j => Qcanon.Qcplus (nth j y (zero exactQ))
                       (Qcanon.Qcmult h (nth j v (zero exactQ))))
           (seq 0 (length y))
  /\ snd (DP.yPlusH exactQ (fun _ _ => v) x y h) = repeat (zero exactQ) (length y).
Proof.
  exact (conj eq_refl
           (proj2 (tableau_exact_on_constant_derivative
                     [Qcanon.Q2Qc (QArith_base.Qmake 3 1)]
                     [Qcanon.Q2Qc (QArith_base.Qmake 1 2)]
                     (Qcanon.Q2Qc (QArith_base.Qmake 0 1))
                     (Qcanon.Q2Qc (QArith_base.Qmake 1 10)) eq_refl))).
Defined.

(** * The store against the lists *)

Module Sim.

Import Mem GoFacts.
Local Open Scope nat_scope.

(** The contents of a slice. *)
Definition at_ (w : world) (s : slice) : list float := nth s (heap w) [].

(** From [w] to [w'] the store only grew, and of the slices of [w] only
    those of [T] may have changed. *)
Definition frame (T : list slice) (w w' : world) : Prop :=
  length (heap w) <= length (heap w')
  /\ forall s, s < length (heap w) -> ~ In s T -> at_ w' s = at_ w s.

Lemma frame_refl T w : frame T w w.
Proof. split; auto. Qed.

Lemma frame_trans T w1 w2 w3 : frame T w1 w2 -> frame T w2 w3 -> frame T w1 w3.
Proof.
  intros [L1 H1] [L2 H2]. split; [lia|].
  intros s Hs Hn. rewrite H2, H1; auto. lia.
Qed.

Lemma frame_weaken T T' w w' : incl T T' -> frame T w w' -> frame T' w w'.
Proof. intros I [L H]. split; [exact L|]. intros s Hs Hn. apply H; auto. Qed.

(** What holds of the result and the store after running [m] from [w]. *)
Definition post {A} (m : M A) (w : world) (Q : A -> world -> Prop) : Prop :=
  Q (fst (m w)) (snd (m w)).

Lemma post_bind {A B} (m : M A) (f : A -> M B) w Q :
  post m w (fun a w1 => post (f a) w1 Q) -> post (bind m f) w Q.
Proof. unfold post, bind. now destruct (m w). Qed.

Lemma post_ret {A} (a : A) w (Q : A -> world -> Prop) : Q a w -> post (ret a) w Q.
Proof. auto. Qed.

Lemma post_weaken {A} (m : M A) w (Q R : A -> world -> Prop) :
  post m w Q -> (forall a w', Q a w' -> R a w') -> post m w R.
Proof. unfold post. auto. Qed.

Lemma post_make n w (Q : slice -> world -> Prop) :
  (forall w', length (heap w') = S (length (heap w)) ->
              (forall s, s < length (heap w) -> at_ w' s = at_ w s) ->
              at_ w' (length (heap w)) = Go.make n ->
              Q (length (heap w)) w') ->
  post (make n) w Q.
Proof.
  intros H. unfold post. cbn [make fst snd]. apply H; unfold at_; cbn [heap].
  - rewrite length_app. cbn. lia.
  - intros s Hs. now apply app_nth1.
  - rewrite app_nth2 by lia. now rewrite Nat.sub_diag.
Qed.

Lemma post_load s w (Q : list float -> world -> Prop) :
  Q (at_ w s) w -> post (load s) w Q.
Proof. auto. Qed.

Lemma post_store s v w (Q : unit -> world -> Prop) :
  s < length (heap w) ->
  (forall w', length (heap w') = length (heap w) ->
              (forall t, t <> s -> at_ w' t = at_ w t) ->
              at_ w' s = v ->
              Q tt w') ->
  post (store s v) w Q.
Proof.
  intros Hs H. unfold post. cbn [store fst snd]. apply H; unfold at_; cbn [heap].
  - apply length_upd.
  - intros t Ht. apply nth_upd_neq. auto.
  - now apply nth_upd_eq.
Qed.

Lemma post_copy dst src w (Q : unit -> world -> Prop) :
  dst < length (heap w) ->
  (forall w', length (heap w') = length (heap w) ->
              (forall t, t <> dst -> at_ w' t = at_ w t) ->
              at_ w' dst = firstn (length (at_ w dst)) (at_ w src)
                           ++ skipn (length (at_ w src)) (at_ w dst) ->
              Q tt w') ->
  post (copy dst src) w Q.
Proof.
  intros Hd H. unfold copy.
  apply post_bind, post_load, post_bind, post_load.
  apply post_store; [exact Hd|]. exact H.
Qed.

Lemma post_callDydx f dydx x y w (Q : unit -> world -> Prop) :
  dydx < length (heap w) ->
  (forall w', length (heap w') = length (heap w) ->
              (forall t, t <> dydx -> at_ w' t = at_ w t) ->
              at_ w' dydx = call f (length (at_ w dydx)) x (at_ w y) ->
              Q tt w') ->
  post (callDydx f dydx x y) w Q.
Proof.
  intros Hd H. unfold callDydx.
  apply post_bind, post_load, post_bind, post_load, post_bind.
  unfold post at 1. cbn [fst snd].
  apply post_store; [exact Hd|]. exact H.
Qed.

(** Reading a list of slices. *)
Lemma post_loads l w (Q : list (list float) -> world -> Prop) :
  Q (map (at_ w) l) w -> post (mapM load l) w Q.
Proof.
  revert Q. induction l as [|s l IH]; intros Q H; cbn [mapM]; [exact H|].
  apply post_bind, post_load, post_bind, IH. exact H.
Qed.

(** Allocating [m] slices of length [n]. *)
Lemma post_makes n {A} (l : list A) : forall w (Q : list slice -> world -> Prop),
  (forall w', length (heap w') = length (heap w) + length l ->
              (forall s, s < length (heap w) -> at_ w' s = at_ w s) ->
              (forall i, i < length l -> at_ w' (length (heap w) + i) = Go.make n) ->
              Q (seq (length (heap w)) (length l)) w') ->
  post (mapM (fun _ => make n) l) w Q.
Proof.
  induction l as [|a l IH]; intros w Q H; cbn [mapM].
  - apply post_ret. apply H; auto; cbn [length]; try lia; intros; lia.
  - apply post_bind, post_make. intros w1 L1 F1 N1.
    apply post_bind, IH. intros w2 L2 F2 N2. apply post_ret.
    rewrite L1 in *. apply H.
    + cbn [length]. lia.
    + intros s Hs. rewrite F2 by lia. now apply F1.
    + intros [|i] Hi.
      * rewrite Nat.add_0_r, F2, N1 by lia. reflexivity.
      * replace (length (heap w) + S i) with (S (length (heap w)) + i) by lia.
        apply N2. cbn [length] in Hi. lia.
Qed.

(** ** One call of [dormandPrince.yPlusH] *)

Lemma map_upd_seq {A} (g g' : nat -> A) n : forall L i c,
  i < n -> (forall t, L <= t < L + n -> t <> L + i -> g' t = g t) -> g' (L + i) = c ->
  map g' (seq L n) = Go.upd (map g (seq L n)) i c.
Proof.
  induction n as [|n IH]; intros L i c Hi Hg Hc; [lia|].
  cbn [seq map]. destruct i as [|i]; cbn [Go.upd].
  - rewrite Nat.add_0_r in Hc. rewrite Hc. f_equal.
    apply map_ext_in. intros t Ht. apply in_seq in Ht. apply Hg; lia.
  - rewrite Hg by lia. f_equal. apply IH; [lia| |].
    + intros t Ht Hn. apply Hg; lia.
    + rewrite <- Hc. f_equal. lia.
Qed.

Lemma nth_map_seq_from {A} (g : nat -> A) d n L i :
  i < n -> nth i (map g (seq L n)) d = g (L + i).
Proof.
  intros Hi. rewrite (nth_indep _ d (g 0)) by (now rewrite length_map, length_seq).
  rewrite map_nth, seq_nth by exact Hi. reflexivity.
Qed.

Section Stage.

Variable dydxFunc : DydxFunc.
Variables (x h : float) (yv : list float).
Variable L : nat.

(** The body of the stage loop, on the slices [k = L, ..., L+6] and
    [yItp = L+7]. *)
Definition stageBody (i : nat) : M unit :=
  kv <- mapM load (seq L 7) ;;
  store (L + 7) (DP.yItp float64 kv yv h i) ;;
  callDydx dydxFunc (nth i (seq L 7) 0) (DP.xItp float64 x h i) (L + 7).

Lemma post_stageLoop l : forall w (Q : unit -> world -> Prop),
  length (heap w) = L + 8 ->
  (forall i, In i l -> i < 7) ->
  (forall w', length (heap w') = L + 8 ->
              (forall s, s < L -> at_ w' s = at_ w s) ->
              map (at_ w') (seq L 7)
              = fold_left (DP.stage float64 dydxFunc x yv h) l (map (at_ w) (seq L 7)) ->
              Q tt w') ->
  post (forEach l stageBody) w Q.
Proof.
  induction l as [|i l IH]; intros w Q Hw Hl H; cbn [forEach].
  - apply post_ret. apply H; auto.
  - assert (Hi : i < 7) by (apply Hl; now left).
    apply post_bind. unfold stageBody.
    apply post_bind, post_loads, post_bind.
    apply post_store; [lia|]. intros w1 L1 F1 N1.
    rewrite seq_nth by exact Hi.
    apply post_callDydx; [lia|]. intros w2 L2 F2 N2.
    apply IH; [lia|intros j Hj; apply Hl; now right|].
    intros w' L' F' E'. apply H; [exact L'| |].
    + intros s Hs. rewrite F', F2, F1 by lia. reflexivity.
    + rewrite E'. cbn [fold_left]. f_equal. unfold DP.stage.
      apply map_upd_seq; [exact Hi| |].
      * intros t Ht Hn. rewrite F2, F1 by lia. reflexivity.
      * rewrite N2, N1, F1 by lia.
        rewrite nth_map_seq_from by exact Hi. reflexivity.
Qed.

End Stage.

Lemma map_seq_const {A} (g : nat -> A) z n : forall L,
  (forall i, i < n -> g (L + i) = z) -> map g (seq L n) = repeat z n.
Proof.
  induction n as [|n IH]; intros L H; [reflexivity|].
  cbn [seq map repeat]. f_equal.
  - rewrite <- (H 0) by lia. f_equal. lia.
  - apply IH. intros i Hi. rewrite <- (H (S i)) by lia. f_equal. lia.
Qed.

(** [dormandPrince.yPlusH] on the store computes what [DP.yPlusH]
    computes on lists, and writes only its two output slices. *)
Lemma post_dpYPlusH yP te f x y h w (Q : unit -> world -> Prop) :
  yP < length (heap w) -> te < length (heap w) -> yP <> te ->
  (forall w',
      frame [yP; te] w w' ->
      at_ w' yP = fst (DP.yPlusH float64 f x (at_ w y) h) ->
      at_ w' te = DP.combine_e float64 (DP.stages float64 f x (at_ w y) h)
                               (length (at_ w te)) ->
      Q tt w') ->
  post (dpYPlusH yP te f x y h) w Q.
Proof.
  intros Hy Ht Hne H. unfold dpYPlusH.
  apply post_bind, post_load.
  set (yv := at_ w y). set (L := length (heap w)) in *.
  apply post_bind, post_makes. fold L. intros w1 L1 F1 N1.
  change (length DP.c) with 7 in *.
  apply post_bind, post_make. rewrite L1. intros w2 L2 F2 N2.
  apply post_bind.
  rewrite length_seq.
  apply (post_stageLoop f x h yv L (seq 0 7) w2); [lia| |].
  { intros i Hi. apply in_seq in Hi. lia. }
  intros w3 L3 F3 E3.
  assert (K : map (at_ w3) (seq L 7) = DP.stages float64 f x yv h).
  { rewrite E3. unfold DP.stages. f_equal. change (length DP.c) with 7.
    apply map_seq_const. intros i Hi. rewrite F2 by lia. now apply N1. }
  apply post_bind, post_loads. rewrite K.
  apply post_bind, post_store; [lia|]. intros w4 L4 F4 N4.
  apply post_bind, post_load.
  apply post_store; [lia|]. intros w5 L5 F5 N5.
  assert (E : forall s, s < L -> s <> yP -> at_ w4 s = at_ w s).
  { intros s Hs Hn. rewrite F4, F3, F2, F1 by lia. reflexivity. }
  apply H.
  - split; [lia|]. intros s Hs Hn. cbn [In] in Hn.
    rewrite F5 by (intros ->; tauto). apply E; [exact Hs|intros ->; tauto].
  - rewrite F5 by exact Hne. exact N4.
  - rewrite N5. rewrite E by auto. reflexivity.
Qed.

End Sim.

Module Sim2.

Import Sim GoFacts.
Local Open Scope nat_scope.

(** A turn of the loop on the store against the same turn on lists: the
    same verdict, and on success the trial point is in [yPlusH]. *)
Definition turnRel (w' : Mem.world) (yP : Mem.slice) (t : Mem.turn) (t' : turn) : Prop :=
  match t, t' with
  | Mem.Return (xP, nH, None), Return (StepOk xP' nH' yPv _) =>
    xP = xP' /\ nH = nH' /\ at_ w' yP = yPv
  | Mem.Return (_, _, Some e), Return (StepErr e') => e = e'
  | Mem.Continue h1 r1, Continue h2 r2 => h1 = h2 /\ r1 = r2
  | _, _ => False
  end.

Definition stepRel (w' : Mem.world) (yP : Mem.slice)
           (r : option Mem.stepResult) (r' : option stepResult) : Prop :=
  match r, r' with
  | Some (xP, nH, None), Some (StepOk xP' nH' yPv _) =>
    xP = xP' /\ nH = nH' /\ at_ w' yP = yPv
  | Some (_, _, Some e), Some (StepErr e') => e = e'
  | None, None => True
  | _, _ => False
  end.

Section Step.

Variable pow_core : float -> float -> float.
Variable dydxFunc : DydxFunc.
Variables (x xMax : float) (tol : tolerance).
Variables (y yP te : Mem.slice).

Lemma length_combine_e k n : length (DP.combine_e float64 k n) = n.
Proof. unfold DP.combine_e. now rewrite length_map, length_seq. Qed.

Lemma post_stepTurn h rejected w (Q : Mem.turn -> Mem.world -> Prop) :
  y < length (Mem.heap w) -> yP < length (Mem.heap w) -> te < length (Mem.heap w) ->
  yP <> te -> y <> yP -> y <> te ->
  length (at_ w te) = length (at_ w y) ->
  (forall t w',
      frame [yP; te] w w' ->
      length (at_ w' te) = length (at_ w y) ->
      turnRel w' yP t (stepTurn pow_core dormandPrince dydxFunc x (at_ w y) xMax tol
                                h rejected) ->
      Q t w') ->
  post (Mem.stepTurn pow_core yP te Mem.dormandPrince dydxFunc x y xMax tol h rejected)
       w Q.
Proof.
  intros Hy Hp Ht N1 N2 N3 Lt. unfold Mem.stepTurn, stepTurn.
  destruct (h <? minStep x)%float.
  - intros H. apply post_ret. apply H; [apply frame_refl|exact Lt|exact eq_refl].
  - destruct (clamp x h xMax) as [xP hc].
    cbn [yPlusH dormandPrince errorOrder]. unfold DP.yPlusH.
    set (k := DP.stages float64 dydxFunc x (at_ w y) hc).
    intros H.
    apply post_bind. cbn [Mem.yPlusH Mem.dormandPrince].
    apply post_dpYPlusH; [exact Hp|exact Ht|exact N1|]. intros w1 [L1 F1] EP ET.
    assert (Ey : at_ w1 y = at_ w y).
    { apply F1; [exact Hy|]. cbn [In]. intros [E|[E|[]]]; congruence. }
    apply post_bind, post_load, post_bind, post_load, post_bind, post_load.
    apply post_bind, post_make. intros w2 L2 F2 _.
    apply post_bind, post_store; [lia|]. intros w3 L3 F3 _.
    assert (E3 : forall s, s < length (Mem.heap w1) -> at_ w3 s = at_ w1 s).
    { intros s Hs. rewrite F3, F2 by lia. reflexivity. }
    assert (FR : frame [yP; te] w w3).
    { split; [lia|]. intros s Hs Hn. rewrite E3 by lia. now apply F1. }
    assert (LT : length (at_ w3 te) = length (at_ w y)).
    { rewrite E3, ET by lia. rewrite length_combine_e. exact Lt. }
    rewrite Ey, EP, ET, Lt. unfold DP.yPlusH. fold k. cbn [fst snd Mem.errorOrder].
    specialize (H (match control pow_core 4 tol (at_ w y)
                                 (DP.combine_b float64 k (at_ w y) hc)
                                 (DP.combine_e float64 k (length (at_ w y))) hc rejected with
                   | Accept newH => Mem.Return (xP, newH, None)
                   | Reject h' => Mem.Continue h' true
                   end) w3 FR LT).
    destruct (control _ _ _ _ _ _ _ _) as [newH|h'];
      apply post_ret; apply H.
    + cbn. repeat split. rewrite E3, EP by lia. reflexivity.
    + cbn. auto.
Qed.

Lemma post_stepLoop fuel : forall h rejected w (Q : option Mem.stepResult -> Mem.world -> Prop),
  y < length (Mem.heap w) -> yP < length (Mem.heap w) -> te < length (Mem.heap w) ->
  yP <> te -> y <> yP -> y <> te ->
  length (at_ w te) = length (at_ w y) ->
  (forall r w',
      frame [yP; te] w w' ->
      length (at_ w' te) = length (at_ w y) ->
      stepRel w' yP r (stepLoop pow_core fuel dormandPrince dydxFunc x (at_ w y) xMax tol
                                h rejected) ->
      Q r w') ->
  post (Mem.stepLoop pow_core fuel yP te Mem.dormandPrince dydxFunc x y xMax tol h rejected)
       w Q.
Proof.
  induction fuel as [|fuel IH]; intros h rejected w Q Hy Hp Ht N1 N2 N3 Lt;
    cbn [Mem.stepLoop stepLoop]; intros H.
  - apply post_ret. apply H; [apply frame_refl|exact Lt|exact I].
  - apply post_bind, post_stepTurn; auto. intros t w1 FR LT R.
    assert (Ey : at_ w1 y = at_ w y).
    { apply FR; [exact Hy|]. cbn [In]. intros [E|[E|[]]]; congruence. }
    destruct FR as [L1 F1]. revert H R.
    destruct t as [[[xP nH] [e|]]|h1 r1],
      (stepTurn pow_core dormandPrince dydxFunc x (at_ w y) xMax tol h rejected)
      as [[xP' nH' yPv tev|e']|h2 r2]; cbn [turnRel]; intros H R; try contradiction.
    + apply post_ret. apply H; [split; auto|exact LT|exact R].
    + apply post_ret. apply H; [split; auto|exact LT|exact R].
    + destruct R as [<- <-].
      apply IH; try lia; auto; [congruence|].
      intros r w2 FR2 LT2 R2. rewrite Ey in *.
      apply H; [apply (frame_trans _ w w1 w2); [split; auto|exact FR2]|exact LT2|exact R2].
Qed.

End Step.

(** A result on the store against a result on lists: the same [xs] and
    error, and the slices of [ys] hold the states. *)
Definition runRel (w' : Mem.world) (r : option Mem.result) (r' : option result) : Prop :=
  match r, r' with
  | Some r, Some r' =>
    Mem.xs r = xs r' /\ Mem.err r = err r' /\ map (at_ w') (Mem.ys r) = ys r'
  | None, None => True
  | _, _ => False
  end.

Section Run.

Variable pow_core : float -> float -> float.
Variable dydxFunc : DydxFunc.

Lemma post_integrateLoop xEnd tol n fuel : forall x y te h xs0 ys0 w
    (Q : option Mem.result -> Mem.world -> Prop),
  y < length (Mem.heap w) -> te < length (Mem.heap w) -> y <> te ->
  length (at_ w y) = n -> length (at_ w te) = n ->
  Forall (fun s => s < length (Mem.heap w) /\ s <> y /\ s <> te) ys0 ->
  (forall r w',
      runRel w' r (integrateLoop pow_core fuel dormandPrince dydxFunc xEnd tol x
                                 (at_ w y) h xs0 (map (at_ w) ys0)) ->
      Q r w') ->
  post (Mem.integrateLoop pow_core fuel Mem.dormandPrince dydxFunc xEnd tol n x y te h
                          xs0 ys0) w Q.
Proof.
  induction fuel as [|fuel IH]; intros x y te h xs0 ys0 w Q Hy Ht Ne Ly Lt Fy;
    cbn [Mem.integrateLoop integrateLoop]; intros H.
  - apply post_ret. apply H. exact I.
  - revert H. destruct (x <? xEnd)%float; intros H.
    + apply post_bind, post_make. intros w1 L1 F1 _.
      set (yP := length (Mem.heap w)) in *.
      apply post_bind. unfold Mem.rungeKuttaStep. revert H. unfold rungeKuttaStep. intros H.
      assert (Ey1 : at_ w1 y = at_ w y) by now apply F1.
      assert (Et1 : at_ w1 te = at_ w te) by now apply F1.
      apply post_stepLoop; try lia; [congruence|]. rewrite Ey1.
      intros r w2 [L2 F2] LT R. revert H R.
      destruct r as [[[xP nH] [e|]]|],
        (stepLoop pow_core fuel dormandPrince dydxFunc x (at_ w y) xEnd tol h false)
        as [[xP' nH' yPv tev|e']|] eqn:SL; cbn [stepRel]; intros H R; try contradiction.
      * apply post_ret. apply H. cbn. subst e'. auto.
      * destruct R as (<- & <- & EP).
        assert (Lp : length yPv = n).
        { destruct (Shape.stepLoop_ok _ _ _ _ _ _ _ _ _ _ _ _ _ _ SL) as [hc E].
          rewrite <- Ly, <- (Shape.dp_length dydxFunc x (at_ w y) hc), <- E. reflexivity. }
        assert (Ey2 : at_ w2 y = at_ w y).
        { rewrite F2, Ey1; [reflexivity|lia|]. cbn [In]. intros [E|[E|[]]]; lia. }
        apply post_bind, post_copy; [lia|]. intros w3 L3 F3 N3.
        rewrite Ey2, EP, Ly, <- Lp, firstn_all, skipn_all2, app_nil_r in N3 by lia.
        assert (K : forall s, s < yP -> s <> y -> s <> te -> at_ w3 s = at_ w s).
        { intros s Hs N1 N2. rewrite F3, F2, F1; auto; try lia.
          cbn [In]. intros [E|[E|[]]]; lia. }
        apply IH; try lia.
        -- now rewrite N3.
        -- rewrite F3, LT by lia. exact Ly.
        -- apply Forall_app. split.
           ++ eapply Forall_impl; [|exact Fy]. cbn. intros s (A & B & C). lia.
           ++ constructor; [lia|constructor].
        -- intros r w' R. apply H. rewrite N3 in R.
           rewrite map_app in R. cbn [map] in R.
           rewrite F3, EP in R by lia.
           replace (map (at_ w3) ys0) with (map (at_ w) ys0) in R; [exact R|].
           apply map_ext_in. intros s Hs. rewrite Forall_forall in Fy.
           destruct (Fy s Hs) as (A & B & C). symmetry. now apply K.
      * apply post_ret. apply H. exact I.
    + apply post_ret. apply H. cbn. auto.
Qed.

(** [getFirstStep] on the store returns what it returns on lists, and
    writes only slices of its own. *)
Lemma post_getFirstStep xspan y0 tol w (Q : float -> Mem.world -> Prop) :
  y0 < length (Mem.heap w) ->
  (forall w',
      frame [] w w' ->
      Q (getFirstStep pow_core dormandPrince dydxFunc xspan (at_ w y0) tol) w') ->
  post (Mem.getFirstStep pow_core Mem.dormandPrince dydxFunc xspan y0 tol) w Q.
Proof.
  intros Hy. unfold Mem.getFirstStep, getFirstStep.
  cbn [errorOrder dormandPrince Mem.errorOrder Mem.dormandPrince].
  set (n := length (at_ w y0)). intros H.
  apply post_bind, post_load. fold n.
  apply post_bind, post_make. intros w1 L1 F1 N1.
  apply post_bind, post_callDydx; [lia|]. intros w2 L2 F2 N2.
  rewrite N1, F1 in N2 by lia. unfold Go.make in N2. rewrite repeat_length in N2.
  apply post_bind, post_load. rewrite N2. revert H.
  destruct (firstGuess pow_core tol (snd xspan - fst xspan)%float (at_ w y0)
                       (call dydxFunc n (fst xspan) (at_ w y0)))
    as [[[sc d1] h0] y1v]. intros H.
  apply post_bind, post_make. intros w3 L3 F3 _.
  apply post_bind, post_store; [lia|]. intros w4 L4 F4 _.
  apply post_bind, post_make. intros w5 L5 F5 _.
  apply post_bind, post_store; [lia|]. intros w6 L6 F6 N6.
  apply post_bind, post_make. intros w7 L7 F7 N7.
  apply post_bind, post_callDydx; [lia|]. intros w8 L8 F8 N8.
  rewrite N7, F7, N6 in N8 by lia. unfold Go.make in N8. rewrite repeat_length in N8.
  apply post_bind, post_load. rewrite N8.
  apply post_ret. apply H.
  split; [lia|]. intros s Hs _.
  rewrite F8, F7, F6, F5, F4, F3, F2, F1 by lia. reflexivity.
Qed.

Lemma post_rungeKuttaIntegrate fuel xspan y0 w
      (Q : option Mem.result -> Mem.world -> Prop) :
  y0 < length (Mem.heap w) ->
  (forall r w',
      runRel w' r (rungeKuttaIntegrate pow_core fuel dormandPrince dydxFunc xspan
                                       (at_ w y0)) ->
      Q r w') ->
  post (Mem.rungeKuttaIntegrate pow_core fuel Mem.dormandPrince dydxFunc xspan y0) w Q.
Proof.
  intros Hy H. unfold Mem.rungeKuttaIntegrate. cbv zeta.
  apply post_bind, post_getFirstStep; [exact Hy|]. intros w1 [L1 F1].
  assert (E1 : at_ w1 y0 = at_ w y0) by (apply F1; auto).
  apply post_bind, post_load. rewrite E1.
  apply post_bind, post_make. intros w2 L2 F2 N2.
  apply post_bind, post_copy; [lia|]. intros w3 L3 F3 N3.
  rewrite N2, F2, E1 in N3 by lia. unfold Go.make in N3.
  rewrite repeat_length, firstn_all, skipn_all2, app_nil_r in N3
    by (rewrite repeat_length; lia).
  apply post_bind, post_make. intros w4 L4 F4 N4.
  assert (E4 : at_ w4 y0 = at_ w y0).
  { rewrite F4, F3, F2 by lia. exact E1. }
  apply post_integrateLoop; try lia.
  - rewrite F4, N3 by lia. reflexivity.
  - rewrite N4. apply repeat_length.
  - constructor; [lia|constructor].
  - intros r w' R. apply H. unfold rungeKuttaIntegrate. cbv zeta.
    cbn [map] in R. rewrite E4, F4, N3 in R by lia. exact R.
Qed.

End Run.

End Sim2.

(** X16.  The slices do not get in each other's way.  Run on a store,
    with its buffers shared and reused as in the Go code ([te] and [y]
    live across steps, [y0] is appended itself, every accepted [yPlusH] is
    a slice of its own), [DormandPrince] returns the [xs] and the error
    that the reading on lists returns, and at return each slice of [ys]
    holds the state of the list reading: no later step has overwritten
    it. *)
Theorem store_run_agrees_with_lists pow_core fuel dydxFunc xspan (y0 : Mem.slice)
        (w : Mem.world) :
  (y0 < length (Mem.heap w))%nat ->
  let out := Mem.DormandPrince pow_core fuel dydxFunc xspan y0 w in
  match fst out, DormandPrince pow_core fuel dydxFunc xspan (nth y0 (Mem.heap w) []) with
  | Some r, Some r' =>
    Mem.xs r = xs r' /\ Mem.err r = err r'
    /\ map (fun s => nth s (Mem.heap (snd out)) []) (Mem.ys r) = ys r'
  | None, None => True
  | _, _ => False
  end.
Proof.
  intros Hy out. subst out. unfold Mem.DormandPrince, DormandPrince.
  apply (Sim2.post_rungeKuttaIntegrate pow_core dydxFunc fuel xspan y0 w
           (fun r w' =>
              match r, rungeKuttaIntegrate pow_core fuel dormandPrince dydxFunc xspan
                                            (nth y0 (Mem.heap w) []) with
              | Some r, Some r' =>
                Mem.xs r = xs r' /\ Mem.err r = err r'
                /\ map (fun s => nth s (Mem.heap w') []) (Mem.ys r) = ys r'
              | None, None => True
              | _, _ => False
              end) Hy).
  intros r w' R. exact R.
Qed.

Lemma store_run_agrees_with_lists_witness :
  (0 < length (Mem.heap callerWorld))%nat
  /\ let out := Mem.DormandPrince powStandIn 12 scenarioB (0, 4) 0%nat callerWorld in
     match fst out,
           DormandPrince powStandIn 12 scenarioB (0, 4) (nth 0 (Mem.heap callerWorld) []) with
     | Some r, Some r' =>
       Mem.xs r = xs r' /\ Mem.err r = err r'
       /\ map (fun s => nth s (Mem.heap (snd out)) []) (Mem.ys r) = ys r'
     | None, None => True
     | _, _ => False
     end.
Proof.
  exact (conj (le_n 1)
           (store_run_agrees_with_lists powStandIn 12 scenarioB (0, 4) 0%nat callerWorld
              (le_n 1))).
Defined.

